(** * A shallow embedding of the reactive store core of [src/valtio.ts]

    The development follows the module top to bottom: the key model
    ([keyOf], the prefix test of the invalidation loops), the module
    singletons ([computedRegistry], [dependencyGraph], [proxyCache],
    [storeOfRoot], [storeOfProxy], [currentTracker]), the eager
    recomputation pass ([recomputeAffectedComputeds], [notifyPathChange]),
    live primitives, [runComputed] / [ensureComputed], the three traps of
    [makeProxy], and the public entry points [proxy] and
    [withComponentTracking].

    Host behaviour that the module relies on (ordinary objects, arrays,
    [Reflect.get] / [Reflect.set] / [Reflect.deleteProperty], the [[Get]]
    of a [Proxy] with its invariant, [Map], [Set]) is modelled in the first
    part.  User code (getter bodies, the function
    handed to [withComponentTracking]) is a small read-only command tree,
    [expr]; the interpreter threads the module state through every read.

    What the model covers, and what it leaves out:
    - property keys are strings (the symbol pass-through of the [get] trap
      is not modelled); numbers are integers;
    - accessor properties in managed state have a getter or nothing: no
      setter is ever called by a write;
    - an object inherits what its prototype chain in the heap holds: the
      members of [Object.prototype] and [Array.prototype] are there when
      the heap lists them, and the example heaps leave them out;
    - values written into managed state are primitives, ordinary objects
      and opaque functions, not wrappers or live primitives;
    - evaluation functions only read (the module expects them to be free
      of side effects);
    - a listener is a callback of the view layer that returns or throws;
      each call is recorded in the trace.  A listener that calls back into
      the engine, as the one the React adapter registers does when it
      recomputes its snapshot, is outside the model: statements about a
      pass say what happens up to and between the listener calls, not what
      a listener does to the module state;
    - assigning to the [length] of an array converts the value as the host
      does where the model can tell (numbers, booleans, [null],
      [undefined], strings of decimal digits, symbols and bigints); for an
      object, a function or any other string the conversion runs code or a
      grammar that is outside the model, and the write gives no outcome;
    - in user code [Resolve] is the leaf case of [snapshot]; [snapshot]
      itself, and the tracked snapshot that the React adapter computes, are
      modelled in the second part of the vocabulary, with the enumeration
      order of [Object.keys] as a parameter; hooks and rendering are
      outside;
    - user code that calls back into the engine makes the evaluator
      recursive through the store, so [exec] and the loops of the write
      pass take fuel; [more_fuel_same_result] shows the fuel only bounds
      them.  [Timeout] is the outcome of an operation the model has no
      answer for: the fuel ran out, or the host's behaviour is outside the
      model. *)

From Stdlib Require Import Ascii String ZArith List Lia.
From stdpp Require Import base tactics option list gmap sets strings pretty.


(* ================================================================== *)
(** ** Values *)
(* ================================================================== *)

Abbreviation addr := nat (only parsing).      (* identity of an ordinary object *)
Abbreviation Path := (list string) (only parsing).
Abbreviation DepKey := string (only parsing). (* "a.b.c" or "__computed__:a.b" *)

(** [CompId = string | symbol]: a string for a computed key, a symbol for a
    UI subscriber. *)
Inductive CompId :=
| CompKey (k : DepKey)
| CompSym (s : nat).

#[global] Instance CompId_eq_dec : EqDecision CompId.
Proof. solve_decision. Defined.

(** What a property slot of the underlying data can hold: a primitive, a
    reference to an ordinary object (or array), or an opaque function.
    Numbers are integers here. *)
Inductive raw :=
| RUndefined
| RNull
| RBool (b : bool)
| RNumber (n : Z)
| RString (s : string)
| RBigInt (n : Z)
| RSymbol (n : nat)
| RObject (a : addr)
| RFunction (f : nat).

(** [__path] of a live primitive: a raw path below [rootRef], or the pair
    [[__COMPUTED_VALUE_KEY, depKey]]. *)
Inductive LivePath :=
| RawPath (rootRef : addr) (path : Path)
| ComputedPath (depKey : DepKey).

(** Values that flow through user code: raw values, wrappers made by
    [makeProxy], and live primitives (each [createLivePrimitive] call makes
    a new function, hence the identity [f]). *)
Inductive value :=
| VRaw (r : raw)
| VProxy (p : nat)
| VLive (f : nat) (lp : LivePath).

Coercion VRaw : raw >-> value.

#[global] Instance raw_eq_dec : EqDecision raw.
Proof. solve_decision. Defined.
#[global] Instance LivePath_eq_dec : EqDecision LivePath.
Proof. solve_decision. Defined.
#[global] Instance value_eq_dec : EqDecision value.
Proof. solve_decision. Defined.

(** [Object.is] on modelled values. *)
Definition Object_is (a b : value) : bool := bool_decide (a = b).

Definition isPrimitive (v : value) : bool :=
  match v with
  | VRaw RNull | VRaw RUndefined | VRaw (RString _) | VRaw (RNumber _)
  | VRaw (RBool _) | VRaw (RBigInt _) | VRaw (RSymbol _) => true
  | _ => false
  end.

Definition isLivePrimitiveGuard (v : value) : bool :=
  match v with VLive _ _ => true | _ => false end.

(** User code: a getter body, or the function given to
    [withComponentTracking].  It reads properties ([o[key]]), resolves a
    value that may be a live primitive ([isLivePrimitiveGuard(v) ? v() : v],
    which is also what [snapshot] and [valueOf] do), returns or throws. *)
Inductive expr :=
| Return (v : value)
| Throw (e : value)
| Get (o : value) (key : string) (k : value → expr)
| Resolve (v : value) (k : value → expr).

(** A getter receives [this]. *)
Abbreviation getter := (value → expr) (only parsing).

(* ================================================================== *)
(** ** Ordinary objects and arrays *)
(* ================================================================== *)

Inductive slot :=
| Data (v : raw) (writable configurable : bool)
| Accessor (get : option getter) (configurable : bool).

Record obj := {
  is_array : bool;
  ref_mark : bool;              (* carries the [REF_MARK] symbol *)
  extensible : bool;
  proto : option addr;
  props : gmap string slot
}.

(** [ref(value)]: the object literal [{ [REF_MARK]: true, value }]. *)
Definition ref (v : raw) : obj :=
  {| is_array := false; ref_mark := true; extensible := true; proto := None;
     props := {[ "value" := Data v true true ]} |}.

Definition set_props (ps : gmap string slot) (o : obj) : obj :=
  {| is_array := is_array o; ref_mark := ref_mark o;
     extensible := extensible o; proto := proto o; props := ps |}.

(** [hasOwnDescriptor = Object.getOwnPropertyDescriptor]. *)
Definition hasOwnDescriptor (h : gmap addr obj) (a : addr) (prop : string)
    : option slot :=
  o ← h !! a; props o !! prop.

Definition getPrototypeOf (h : gmap addr obj) (a : addr) : option addr :=
  o ← h !! a; proto o.

(** The loop of [getDescriptorDeep], [n] steps of it. *)
Fixpoint descriptorWalk (n : nat) (h : gmap addr obj) (cur : option addr)
    (prop : string) : option slot :=
  match n with
  | O => None
  | S n' =>
      match cur with
      | None => None
      | Some a =>
          match hasOwnDescriptor h a prop with
          | Some d => Some d
          | None => descriptorWalk n' h (getPrototypeOf h a) prop
          end
      end
  end.

(** [getDescriptorDeep]: walk the prototype chain.  A chain has no cycle, so
    it is no longer than the heap. *)
Definition getDescriptorDeep (h : gmap addr obj) (a : addr) (prop : string)
    : option slot :=
  descriptorWalk (S (size h)) h (Some a) prop.

(** Canonical array indices: decimal digits, no leading zero, at most
    [2^32 - 2]. *)
Definition digit_of (c : Ascii.ascii) : option nat :=
  let n := Ascii.nat_of_ascii c in
  if (48 <=? n) && (n <=? 57) then Some (n - 48) else None.

Fixpoint digits_value (acc : nat) (s : string) : option nat :=
  match s with
  | EmptyString => Some acc
  | String c s' =>
      match digit_of c with
      | Some d => digits_value (10 * acc + d) s'
      | None => None
      end
  end.

Definition array_index (s : string) : option nat :=
  match s with
  | EmptyString => None
  | String c s' =>
      if bool_decide (c = "0"%char) && negb (bool_decide (s' = EmptyString))
      then None
      else
        match digits_value 0 s with
        | Some i => if (Z.of_nat i <? 4294967295)%Z then Some i else None
        | None => None
        end
  end.

Definition array_length (o : obj) : nat :=
  match props o !! "length" with
  | Some (Data (RNumber n) _ _) => Z.to_nat n
  | _ => 0
  end.

Definition length_writable (o : obj) : bool :=
  match props o !! "length" with
  | Some (Data _ w _) => w
  | _ => false
  end.

(** An element survives [length = n] when its index is below [n]. *)
Definition survives_length (n : Z) (k : string) : bool :=
  match array_index k with
  | Some i => (Z.of_nat i <? n)%Z
  | None => true
  end.

(** Outcome of a host mutation: it reports success or failure, or throws;
    [Unmodelled] when the model cannot tell which. *)
Inductive mutation :=
| Done (ok : bool) (h : gmap addr obj)
| Raised (e : value)
| Unmodelled.

Definition RangeError : value := VRaw (RString "RangeError: Invalid array length").
Definition TypeError : value := VRaw (RString "TypeError").

(** [ToUint32(v)] and [ToNumber(v)] of a value assigned to the [length] of
    an array. *)
Inductive length_of_value :=
| LengthIs (n : Z)         (* both give the integer [n], below [2^32] *)
| LengthInvalid            (* they differ: [RangeError] *)
| LengthThrows             (* [ToNumber] throws a [TypeError] *)
| LengthUnmodelled.        (* [ToNumber] calls [valueOf] / [toString], or
                              parses a numeric string beyond plain digits *)

Definition toArrayLength (v : raw) : length_of_value :=
  match v with
  | RNumber n =>
      if (0 <=? n)%Z && (n <? 4294967296)%Z then LengthIs n
      else LengthInvalid
  | RBool b => LengthIs (if b then 1 else 0)%Z
  | RNull => LengthIs 0
  | RUndefined => LengthInvalid
  | RString s =>
      match digits_value 0 s with
      | Some n =>
          if (Z.of_nat n <? 4294967296)%Z then LengthIs (Z.of_nat n)
          else LengthInvalid
      | None => LengthUnmodelled
      end
  | RBigInt _ | RSymbol _ => LengthThrows
  | RObject _ | RFunction _ => LengthUnmodelled
  end.

Definition isConfigurable (d : slot) : bool :=
  match d with
  | Data _ _ c | Accessor _ c => c
  end.

(** The elements at or above [n] that [length = n] cannot delete. *)
Definition stuck_elements (n : Z) (ps : gmap string slot) : list nat :=
  omap (λ kv : string * slot,
          match array_index kv.1 with
          | Some i =>
              if (n <=? Z.of_nat i)%Z && negb (isConfigurable kv.2) then Some i
              else None
          | None => None
          end) (map_to_list ps).

(** [ArraySetLength] once the value is converted: the elements at or
    above the new length are deleted from the top down; an element that is
    not configurable stops the deletion, the length becomes its index plus
    one, and the write reports failure. *)
Definition set_array_length (h : gmap addr obj) (a : addr) (o : obj) (n : Z)
    (w c : bool) : mutation :=
  let stuck := stuck_elements n (props o) in
  let len := match stuck with
             | [] => n
             | _ => Z.of_nat (S (max_list stuck))
             end in
  let keep := filter (λ kv : string * slot, survives_length len kv.1 = true)
                     (props o) in
  Done (bool_decide (stuck = []))
       (<[a := set_props (<["length" := Data (RNumber len) w c]> keep) o]> h).

(** Writing the own data property [prop] of [o] (the object at [a]),
    with the bookkeeping of arrays: an index at or beyond [length] grows
    [length]; writing [length] converts the value and truncates. *)
Definition define_value (h : gmap addr obj) (a : addr) (o : obj)
    (prop : string) (v : raw) (w c : bool) : mutation :=
  if is_array o then
    if bool_decide (prop = "length") then
      match toArrayLength v with
      | LengthIs n => set_array_length h a o n w c
      | LengthInvalid => Raised RangeError
      | LengthThrows => Raised TypeError
      | LengthUnmodelled => Unmodelled
      end
    else
      match array_index prop with
      | Some i =>
          if i <? array_length o then
            Done true (<[a := set_props (<[prop := Data v w c]> (props o)) o]> h)
          else if length_writable o then
            Done true
              (<[a := set_props
                        (<["length" := Data (RNumber (Z.of_nat (S i))) true false]>
                           (<[prop := Data v w c]> (props o))) o]> h)
          else Done false h
      | None =>
          Done true (<[a := set_props (<[prop := Data v w c]> (props o)) o]> h)
      end
  else
    Done true (<[a := set_props (<[prop := Data v w c]> (props o)) o]> h).

(** [Reflect.set(obj, prop, newVal, receiver)] where [receiver] is the
    wrapper of [obj] (no [defineProperty] trap, so the definition lands on
    [obj]).  Accessors in managed state have no setter. *)
Definition Reflect_set (h : gmap addr obj) (a : addr) (prop : string)
    (newVal : raw) : mutation :=
  match h !! a with
  | None => Raised TypeError
  | Some o =>
      match getDescriptorDeep h a prop with
      | Some (Accessor _ _) => Done false h
      | Some (Data _ false _) => Done false h
      | _ =>
          match props o !! prop with
          | Some (Accessor _ _) => Done false h
          | Some (Data _ w c) =>
              if w then define_value h a o prop newVal w c else Done false h
          | None =>
              if extensible o then define_value h a o prop newVal true true
              else Done false h
          end
      end
  end.

(** [Reflect.deleteProperty(obj, prop)]. *)
Definition Reflect_deleteProperty (h : gmap addr obj) (a : addr)
    (prop : string) : mutation :=
  match h !! a with
  | None => Raised TypeError
  | Some o =>
      match props o !! prop with
      | None => Done true h
      | Some (Data _ _ c) | Some (Accessor _ c) =>
          if c then Done true (<[a := set_props (delete prop (props o)) o]> h)
          else Done false h
      end
  end.

(* ================================================================== *)
(** ** Tiny runtime state (the module singletons) *)
(* ================================================================== *)

(** [ComputedEntry = { run, last, lastRun }]. *)
Record ComputedEntry := {
  run : expr;
  last : value;
  lastRun : nat
}.

(** [currentTracker]: [{ kind: "component"; id }], [{ kind: "computed"; id }]
    or [null] (modelled by [option Tracker]). *)
Inductive Tracker :=
| TComponent (id : nat)
| TComputed (id : DepKey).

Definition tracker_id (t : Tracker) : CompId :=
  match t with
  | TComponent s => CompSym s
  | TComputed k => CompKey k
  end.

(** What the traps of one wrapper close over. *)
Record ProxyMeta := {
  target : addr;
  store : nat;
  base : Path;
  rootRef : addr
}.

(** A [StoreListener] belongs to the view layer.  The model knows it by a
    label, and by what a call of it does: it returns, or it throws. *)
Record listener := {
  label : nat;
  raises : option value
}.

(** A listener that returns. *)
Definition callback (cb : nat) : listener := {| label := cb; raises := None |}.

Coercion callback : nat >-> listener.

(** A [Store]: its root and its private [componentSubscribers] map (symbol
    to listener). *)
Record Store := {
  root : addr;
  componentSubscribers : list (nat * listener)
}.

(** Observable calls, in the order they happen: a write-invalidation pass
    starting, [entry.run()] being invoked for a computed, the listener
    with label [cb] being called. *)
Inductive event :=
| EvNotify (s : nat) (path : Path)
| EvRun (depKey : DepKey)
| EvPing (s : nat) (id : nat) (cb : nat).

#[global] Instance event_eq_dec : EqDecision event.
Proof. solve_decision. Defined.

Record state := {
  heap : gmap addr obj;
  computedRegistry : gmap DepKey ComputedEntry;        (* depKey -> entry *)
  dependencyGraph : list (CompId * gset DepKey);       (* tracker -> deps *)
  proxyCache : gmap addr nat;                          (* target -> proxy *)
  proxies : gmap nat ProxyMeta;                        (* the wrappers made *)
  storeOfRoot : gmap addr nat;                         (* root -> store *)
  storeOfProxy : gmap nat nat;                         (* proxy -> store *)
  stores : list Store;
  currentTracker : option Tracker;
  nextId : nat;                                        (* fresh identities *)
  now : nat;                                           (* [Date.now()] *)
  trace : list event
}.

Definition set_heap (x : gmap addr obj) (σ : state) : state :=
  {| heap := x; computedRegistry := computedRegistry σ;
     dependencyGraph := dependencyGraph σ; proxyCache := proxyCache σ;
     proxies := proxies σ; storeOfRoot := storeOfRoot σ;
     storeOfProxy := storeOfProxy σ; stores := stores σ;
     currentTracker := currentTracker σ; nextId := nextId σ; now := now σ;
     trace := trace σ |}.

Definition set_computedRegistry (x : gmap DepKey ComputedEntry) (σ : state)
    : state :=
  {| heap := heap σ; computedRegistry := x;
     dependencyGraph := dependencyGraph σ; proxyCache := proxyCache σ;
     proxies := proxies σ; storeOfRoot := storeOfRoot σ;
     storeOfProxy := storeOfProxy σ; stores := stores σ;
     currentTracker := currentTracker σ; nextId := nextId σ; now := now σ;
     trace := trace σ |}.

Definition set_dependencyGraph (x : list (CompId * gset DepKey)) (σ : state)
    : state :=
  {| heap := heap σ; computedRegistry := computedRegistry σ;
     dependencyGraph := x; proxyCache := proxyCache σ;
     proxies := proxies σ; storeOfRoot := storeOfRoot σ;
     storeOfProxy := storeOfProxy σ; stores := stores σ;
     currentTracker := currentTracker σ; nextId := nextId σ; now := now σ;
     trace := trace σ |}.

Definition set_proxyCache (x : gmap addr nat) (σ : state) : state :=
  {| heap := heap σ; computedRegistry := computedRegistry σ;
     dependencyGraph := dependencyGraph σ; proxyCache := x;
     proxies := proxies σ; storeOfRoot := storeOfRoot σ;
     storeOfProxy := storeOfProxy σ; stores := stores σ;
     currentTracker := currentTracker σ; nextId := nextId σ; now := now σ;
     trace := trace σ |}.

Definition set_proxies (x : gmap nat ProxyMeta) (σ : state) : state :=
  {| heap := heap σ; computedRegistry := computedRegistry σ;
     dependencyGraph := dependencyGraph σ; proxyCache := proxyCache σ;
     proxies := x; storeOfRoot := storeOfRoot σ;
     storeOfProxy := storeOfProxy σ; stores := stores σ;
     currentTracker := currentTracker σ; nextId := nextId σ; now := now σ;
     trace := trace σ |}.

Definition set_storeOfRoot (x : gmap addr nat) (σ : state) : state :=
  {| heap := heap σ; computedRegistry := computedRegistry σ;
     dependencyGraph := dependencyGraph σ; proxyCache := proxyCache σ;
     proxies := proxies σ; storeOfRoot := x;
     storeOfProxy := storeOfProxy σ; stores := stores σ;
     currentTracker := currentTracker σ; nextId := nextId σ; now := now σ;
     trace := trace σ |}.

Definition set_storeOfProxy (x : gmap nat nat) (σ : state) : state :=
  {| heap := heap σ; computedRegistry := computedRegistry σ;
     dependencyGraph := dependencyGraph σ; proxyCache := proxyCache σ;
     proxies := proxies σ; storeOfRoot := storeOfRoot σ;
     storeOfProxy := x; stores := stores σ;
     currentTracker := currentTracker σ; nextId := nextId σ; now := now σ;
     trace := trace σ |}.

Definition set_stores (x : list Store) (σ : state) : state :=
  {| heap := heap σ; computedRegistry := computedRegistry σ;
     dependencyGraph := dependencyGraph σ; proxyCache := proxyCache σ;
     proxies := proxies σ; storeOfRoot := storeOfRoot σ;
     storeOfProxy := storeOfProxy σ; stores := x;
     currentTracker := currentTracker σ; nextId := nextId σ; now := now σ;
     trace := trace σ |}.

Definition set_currentTracker (x : option Tracker) (σ : state) : state :=
  {| heap := heap σ; computedRegistry := computedRegistry σ;
     dependencyGraph := dependencyGraph σ; proxyCache := proxyCache σ;
     proxies := proxies σ; storeOfRoot := storeOfRoot σ;
     storeOfProxy := storeOfProxy σ; stores := stores σ;
     currentTracker := x; nextId := nextId σ; now := now σ;
     trace := trace σ |}.

Definition set_nextId (x : nat) (σ : state) : state :=
  {| heap := heap σ; computedRegistry := computedRegistry σ;
     dependencyGraph := dependencyGraph σ; proxyCache := proxyCache σ;
     proxies := proxies σ; storeOfRoot := storeOfRoot σ;
     storeOfProxy := storeOfProxy σ; stores := stores σ;
     currentTracker := currentTracker σ; nextId := x; now := now σ;
     trace := trace σ |}.

Definition set_trace (x : list event) (σ : state) : state :=
  {| heap := heap σ; computedRegistry := computedRegistry σ;
     dependencyGraph := dependencyGraph σ; proxyCache := proxyCache σ;
     proxies := proxies σ; storeOfRoot := storeOfRoot σ;
     storeOfProxy := storeOfProxy σ; stores := stores σ;
     currentTracker := currentTracker σ; nextId := nextId σ; now := now σ;
     trace := x |}.

(* ================================================================== *)
(** ** The effect monad: state, exceptions, and running out of fuel *)
(* ================================================================== *)

Inductive outcome (A : Type) :=
| Normal (a : A)
| Throws (e : value)
| Timeout.

Arguments Normal {A} a.
Arguments Throws {A} e.
Arguments Timeout {A}.

Definition M (A : Type) : Type := state → outcome A * state.

#[global] Instance M_ret : MRet M := λ A a σ, (Normal a, σ).

#[global] Instance M_bind : MBind M := λ A B k m σ,
  match m σ with
  | (Normal a, σ') => k a σ'
  | (Throws e, σ') => (Throws e, σ')
  | (Timeout, σ') => (Timeout, σ')
  end.

Definition throw {A} (e : value) : M A := λ σ, (Throws e, σ).
Definition timeout {A} : M A := λ σ, (Timeout, σ).
Definition gets {A} (f : state → A) : M A := λ σ, (Normal (f σ), σ).
Definition modify (f : state → state) : M unit := λ σ, (Normal tt, f σ).

(** [try { body } finally { cleanup }]: the cleanup runs on normal and on
    exceptional exit. *)
Definition finally {A} (body : M A) (cleanup : state → state) : M A := λ σ,
  match body σ with
  | (Timeout, σ') => (Timeout, σ')
  | (r, σ') => (r, cleanup σ')
  end.

Definition log (e : event) : M unit :=
  modify (λ σ, set_trace (trace σ ++ [e]) σ).

Definition fresh : M nat := λ σ, (Normal (nextId σ), set_nextId (S (nextId σ)) σ).

(* ================================================================== *)
(** ** [Map] in insertion order, [Set] *)
(* ================================================================== *)

Fixpoint Map_get {K V} `{EqDecision K} (k : K) (m : list (K * V)) : option V :=
  match m with
  | [] => None
  | (k', v) :: m' => if decide (k' = k) then Some v else Map_get k m'
  end.

(** [set] keeps the position of a key that is present and appends a new
    one. *)
Fixpoint Map_set {K V} `{EqDecision K} (k : K) (v : V) (m : list (K * V))
    : list (K * V) :=
  match m with
  | [] => [(k, v)]
  | (k', v') :: m' =>
      if decide (k' = k) then (k', v) :: m' else (k', v') :: Map_set k v m'
  end.

(** [delete] takes the entry of the key out; the other entries keep their
    order. *)
Definition Map_delete {K V} `{EqDecision K} (k : K) (m : list (K * V))
    : list (K * V) :=
  filter (λ kv, kv.1 ≠ k) m.

(** [for (const d of deps) if (test d) { found = true; break }]. *)
Definition Set_some (test : DepKey → bool) (deps : gset DepKey) : bool :=
  existsb test (elements deps).

(* ================================================================== *)
(** ** utils *)
(* ================================================================== *)

Definition REF_COMPUTED_PREFIX : string := "__computed__:".

(** [keyOf = path.join(".")]. *)
Definition keyOf (path : Path) : DepKey := String.concat "." path.

(** The test both invalidation loops apply to a dependency [d]:
    [d === changed || d.startsWith(changed + ".") ||
     changed.startsWith(d + ".")]. *)
Definition matches (d changed : DepKey) : bool :=
  String.eqb d changed
  || String.prefix (changed +:+ ".") d
  || String.prefix (d +:+ ".") changed.

Definition computedKeyForPath (absPath : DepKey) : DepKey :=
  REF_COMPUTED_PREFIX +:+ absPath.

Definition ensureDepSet (id : CompId) : M (gset DepKey) :=
  cur ← gets (λ σ, Map_get id (dependencyGraph σ));
  match cur with
  | Some s => mret s
  | None =>
      modify (λ σ, set_dependencyGraph (Map_set id ∅ (dependencyGraph σ)) σ);;
      mret ∅
  end.

(** [ensureDepSet(id).add(k)]: the set stored under [id] gains [k]. *)
Definition depsAdd (id : CompId) (k : DepKey) : M unit :=
  s ← ensureDepSet id;
  modify (λ σ, set_dependencyGraph (Map_set id (s ∪ {[k]}) (dependencyGraph σ)) σ).

(** [REF_MARK in value]: the mark is looked up along the prototype chain. *)
Fixpoint refMarkWalk (n : nat) (h : gmap addr obj) (cur : option addr) : bool :=
  match n with
  | O => false
  | S n' =>
      match cur with
      | None => false
      | Some a =>
          match h !! a with
          | None => false
          | Some o => ref_mark o || refMarkWalk n' h (proto o)
          end
      end
  end.

(** [isRef]: [typeof value === "object" && value !== null &&
    (REF_MARK in value)]. *)
Definition isRef (σ : state) (v : value) : bool :=
  match v with
  | VRaw (RObject a) => refMarkWalk (S (size (heap σ))) (heap σ) (Some a)
  | VProxy p =>
      match proxies σ !! p with
      | Some m => refMarkWalk (S (size (heap σ))) (heap σ) (Some (target m))
      | None => false
      end
  | _ => false
  end.

(** [v !== null && typeof v === "object"]. *)
Definition isObject (v : value) : bool :=
  match v with
  | VRaw (RObject _) | VProxy _ => true
  | _ => false
  end.

(** The local [shouldPing] of the subscriber loop: a dependency matches the
    raw changed path, or [changedComputeds] is not empty and holds a
    dependency. *)
Definition shouldPing (changedRaw : DepKey) (changedComputeds : gset DepKey)
    (deps : gset DepKey) : bool :=
  Set_some (λ d, matches d changedRaw) deps
  || (negb (bool_decide (size changedComputeds = 0))
      && Set_some (λ d, bool_decide (d ∈ changedComputeds)) deps).

(** What the [[Get]] of a [Proxy] accepts from its trap, given the own
    property of the target ([SameValue] on modelled values is equality). *)
Definition get_invariant (targetDesc : option slot) (trapResult : value) : bool :=
  match targetDesc with
  | Some (Data v false false) => bool_decide (trapResult = VRaw v)
  | Some (Accessor None false) => bool_decide (trapResult = VRaw RUndefined)
  | _ => true
  end.

(** [cb()]. *)
Definition call_listener (cb : listener) : M unit :=
  match raises cb with
  | Some e => throw e
  | None => mret tt
  end.

(* ================================================================== *)
(** ** The engine, over the evaluator of user code *)
(* ================================================================== *)

(** Local variables of [recomputeAffectedComputeds]. *)
Record worklist := {
  queue : list DepKey;
  seen : gset DepKey;
  changedComputed : gset DepKey
}.

Section Engine.

(** [ev e] calls a user function whose body is [e]: [entry.run()],
    [desc.get.call(receiver)], [fn()]. *)
Variable ev : expr → M value.

(* --------- computed plumbing --------- *)

Definition runComputed (depKey : DepKey) : M value :=
  entry ← gets (λ σ, computedRegistry σ !! depKey);
  match entry with
  | None => mret (VRaw RUndefined)
  | Some entry =>
      modify (λ σ, set_dependencyGraph
                     (Map_set (CompKey depKey) ∅ (dependencyGraph σ)) σ);;
      modify (set_currentTracker (Some (TComputed depKey)));;
      finally
        (log (EvRun depKey);;
         val ← ev (run entry);
         modify (λ σ, set_computedRegistry
                        (alter (λ e, {| run := run e; last := val;
                                        lastRun := now σ |})
                               depKey (computedRegistry σ)) σ);;
         mret val)
        (set_currentTracker None)
  end.

Definition ensureComputed (absPath : DepKey) (runner : expr) : M DepKey :=
  let depKey := computedKeyForPath absPath in
  has ← gets (λ σ, bool_decide (is_Some (computedRegistry σ !! depKey)));
  (if has : bool then mret (VRaw RUndefined)
   else
     modify (λ σ, set_computedRegistry
                    (<[depKey := {| run := runner; last := VRaw RUndefined;
                                    lastRun := 0 |}]> (computedRegistry σ)) σ);;
     runComputed depKey);;
  mret depKey.

(* --------- live primitive --------- *)

Definition createLivePrimitive (lp : LivePath) : M value :=
  f ← fresh;
  mret (VLive f lp).

(* --------- proxy creation --------- *)

Definition makeProxy (target : addr) (store : nat) (base : Path)
    (rootRef : addr) : M value :=
  cached ← gets (λ σ, proxyCache σ !! target);
  match cached with
  | Some p => mret (VProxy p)
  | None =>
      p ← fresh;
      modify (λ σ, set_proxies
                     (<[p := {| target := target; store := store;
                                base := base; rootRef := rootRef |}]>
                        (proxies σ)) σ);;
      modify (λ σ, set_proxyCache (<[target := p]> (proxyCache σ)) σ);;
      modify (λ σ, set_storeOfProxy (<[p := store]> (storeOfProxy σ)) σ);;
      mret (VProxy p)
  end.

(** [Reflect.get(obj, prop, receiver)] on an ordinary object, which is
    also a plain property read [o[key]] with [receiver = o]. *)
Definition Reflect_get (a : addr) (prop : string) (receiver : value)
    : M value :=
  d ← gets (λ σ, getDescriptorDeep (heap σ) a prop);
  match d with
  | Some (Data v _ _) => mret (VRaw v)
  | Some (Accessor (Some g) _) => ev (g receiver)
  | _ => mret (VRaw RUndefined)
  end.

(** [if (currentTracker) ensureDepSet(currentTracker.id).add(k)]. *)
Definition trackDep (k : DepKey) : M unit :=
  t ← gets currentTracker;
  match t with
  | Some t => depsAdd (tracker_id t) k
  | None => mret tt
  end.

(** The [get] trap of the wrapper [p], for a string key. *)
Definition get_trap (p : nat) (prop : string) (receiver : value) : M value :=
  meta ← gets (λ σ, proxies σ !! p);
  match meta with
  | None => throw TypeError
  | Some m =>
      if bool_decide (prop = "__raw") then mret (VRaw (RObject (target m)))
      else if bool_decide (prop = "__isProxy") then mret (VRaw (RBool true))
      else
        let key := prop in
        let currentPath := base m ++ [key] in
        desc ← gets (λ σ, getDescriptorDeep (heap σ) (target m) key);
        match desc with
        | Some (Accessor (Some g) _) =>
            (* A) computed getter *)
            depKey ← ensureComputed (keyOf currentPath) (g receiver);
            t ← gets currentTracker;
            match t with
            | Some t =>
                depsAdd (tracker_id t) depKey;;
                entry ← gets (λ σ, computedRegistry σ !! depKey);
                mret (match entry with
                      | Some entry => last entry
                      | None => VRaw RUndefined
                      end)
            | None => createLivePrimitive (ComputedPath depKey)
            end
        | _ =>
            (* B) plain data property *)
            value ← Reflect_get (target m) prop receiver;
            ref ← gets (λ σ, isRef σ value);
            if ref : bool then
              trackDep (keyOf currentPath);;
              match value with
              | VRaw (RObject a) => Reflect_get a "value" value
              | _ => mret (VRaw RUndefined)
              end
            else if isPrimitive value then
              t ← gets currentTracker;
              match t with
              | Some t =>
                  depsAdd (tracker_id t) (keyOf currentPath);;
                  mret value
              | None =>
                  createLivePrimitive (RawPath (rootRef m) currentPath)
              end
            else
              match value with
              | VRaw (RObject a) => makeProxy a (store m) currentPath (rootRef m)
              | _ => mret value
              end
        end
  end.

(** [[Get]] of the wrapper [p]: the host looks up the target, calls the
    trap, and then holds the result against the target's own property.  If
    that is a data property that is neither writable nor configurable, the
    trap must have reported its value; if it is an accessor without getter
    that is not configurable, the trap must have reported [undefined];
    otherwise the read throws a [TypeError]. *)
Definition proxy_get (p : nat) (prop : string) (receiver : value) : M value :=
  meta ← gets (λ σ, proxies σ !! p);
  trapResult ← get_trap p prop receiver;
  targetDesc ← gets (λ σ, m ← meta; hasOwnDescriptor (heap σ) (target m) prop);
  if get_invariant targetDesc trapResult then mret trapResult
  else throw TypeError.

(** A property read [o[key]] in user code or in [getValueAtPath]. *)
Definition js_get (o : value) (key : string) : M value :=
  match o with
  | VProxy p => proxy_get p key o
  | VRaw (RObject a) => Reflect_get a key o
  | VRaw RUndefined | VRaw RNull => throw TypeError
  | _ => mret (VRaw RUndefined)
  end.

Fixpoint getValueAtPath (cur : value) (path : Path) : M value :=
  match path with
  | [] => mret cur
  | k :: path' =>
      next ← (if isObject cur then js_get cur k else mret (VRaw RUndefined));
      getValueAtPath next path'
  end.

(** [read] and [access] of a live primitive. *)
Definition live_read (lp : LivePath) : M value :=
  match lp with
  | ComputedPath depKey =>
      entry ← gets (λ σ, computedRegistry σ !! depKey);
      mret (match entry with
            | Some entry => last entry
            | None => VRaw RUndefined
            end)
  | RawPath rootRef path => getValueAtPath (VRaw (RObject rootRef)) path
  end.

Definition live_access (lp : LivePath) : M value :=
  val ← live_read lp;
  trackDep (match lp with
            | ComputedPath depKey => depKey
            | RawPath _ path => keyOf path
            end);;
  mret val.

(** [isLivePrimitiveGuard(v) ? v() : v]. *)
Definition resolve (v : value) : M value :=
  match v with
  | VLive _ lp => live_access lp
  | _ => mret v
  end.

(** One user function body, statement by statement. *)
Fixpoint interp (e : expr) : M value :=
  match e with
  | Return v => mret v
  | Throw x => throw x
  | Get o key k => v ← js_get o key; interp (k v)
  | Resolve v k => v' ← resolve v; interp (k v')
  end.

(* --------- the eager recomputation pass --------- *)

(** Body of [for (const [tracker, deps] of dependencyGraph)] for one
    entry. *)
Definition visitTracker (changed : DepKey) (tracker : CompId)
    (deps : gset DepKey) (w : worklist) : M worklist :=
  match tracker with
  | CompSym _ => mret w                       (* skip components *)
  | CompKey tracker =>
      if negb (Set_some (λ d, matches d changed) deps) then mret w
      else
        entry ← gets (λ σ, computedRegistry σ !! tracker);
        match entry with
        | None => mret w
        | Some entry =>
            let prev := last entry in
            runComputed tracker;;
            entry' ← gets (λ σ, computedRegistry σ !! tracker);
            let cur := match entry' with
                       | Some e => last e
                       | None => VRaw RUndefined
                       end in
            if negb (Object_is prev cur) && negb (bool_decide (tracker ∈ seen w))
            then mret {| queue := queue w ++ [tracker];
                         seen := seen w ∪ {[tracker]};
                         changedComputed := changedComputed w ∪ {[tracker]} |}
            else mret w
        end
  end.

(** The [for ... of dependencyGraph] loop: the iteration is live, an
    entry appended while it runs is visited too. *)
Fixpoint scanTrackers (n : nat) (i : nat) (changed : DepKey) (w : worklist)
    : M worklist :=
  match n with
  | O => timeout
  | S n' =>
      entry ← gets (λ σ, dependencyGraph σ !! i);
      match entry with
      | None => mret w
      | Some (tracker, deps) =>
          w' ← visitTracker changed tracker deps w;
          scanTrackers n' (S i) changed w'
      end
  end.

(** [while (queue.length)]. *)
Fixpoint drainQueue (n : nat) (w : worklist) : M (gset DepKey) :=
  match n with
  | O => timeout
  | S n' =>
      match queue w with
      | [] => mret (changedComputed w)
      | changed :: rest =>
          w' ← scanTrackers n 0 changed
                 {| queue := rest; seen := seen w;
                    changedComputed := changedComputed w |};
          drainQueue n' w'
      end
  end.

Definition recomputeAffectedComputeds (n : nat) (startKeys : list DepKey)
    : M (gset DepKey) :=
  drainQueue n {| queue := startKeys; seen := list_to_set startKeys;
                  changedComputed := ∅ |}.

(* --------- store --------- *)

(** Body of the subscriber loop of [notifyPathChange] for one entry. *)
Definition pingTracker (s : nat) (changedRaw : DepKey)
    (changedComputeds : gset DepKey) (entry : CompId * gset DepKey)
    : M unit :=
  match entry.1 with
  | CompKey _ => mret tt                      (* components only *)
  | CompSym id =>
      let deps := entry.2 in
      if shouldPing changedRaw changedComputeds deps then
        st ← gets (λ σ, stores σ !! s);
        match st ≫= (λ st, Map_get id (componentSubscribers st)) with
        | Some cb => log (EvPing s id (label cb));; call_listener cb
        | None => mret tt
        end
      else mret tt
  end.

(** [notifyPathChange(path)].  The subscriber loop iterates the live [Map];
    a listener of the model leaves [dependencyGraph] alone, so the loop
    goes over the graph as the recomputation left it. *)
Definition notifyPathChange (n : nat) (s : nat) (path : Path) : M unit :=
  log (EvNotify s path);;
  let changedRaw := keyOf path in
  changedComputeds ← recomputeAffectedComputeds n [changedRaw];
  graph ← gets dependencyGraph;
  mapM (pingTracker s changedRaw changedComputeds) graph;;
  mret tt.

(* --------- the write traps --------- *)

Definition set_trap (n : nat) (p : nat) (prop : string) (newVal : raw)
    : M bool :=
  meta ← gets (λ σ, proxies σ !! p);
  match meta with
  | None => throw TypeError
  | Some m =>
      h ← gets heap;
      match Reflect_set h (target m) prop newVal with
      | Raised e => throw e
      | Unmodelled => timeout
      | Done ok h' =>
          modify (set_heap h');;
          notifyPathChange n (store m) (base m ++ [prop]);;
          mret ok
      end
  end.

Definition deleteProperty_trap (n : nat) (p : nat) (prop : string) : M bool :=
  meta ← gets (λ σ, proxies σ !! p);
  match meta with
  | None => throw TypeError
  | Some m =>
      h ← gets heap;
      match Reflect_deleteProperty h (target m) prop with
      | Raised e => throw e
      | Unmodelled => timeout
      | Done ok h' =>
          modify (set_heap h');;
          notifyPathChange n (store m) (base m ++ [prop]);;
          mret ok
      end
  end.

(* --------- public core API --------- *)

Definition withComponentTracking (id : nat) (fn : expr) : M value :=
  modify (λ σ, set_dependencyGraph
                 (Map_set (CompSym id) ∅ (dependencyGraph σ)) σ);;
  modify (set_currentTracker (Some (TComponent id)));;
  finally (ev fn) (set_currentTracker None).

End Engine.

(** [createStore(root)]. *)
Definition createStore (root : addr) : M nat :=
  s ← gets (λ σ, length (stores σ));
  modify (λ σ, set_stores
                 (stores σ ++ [{| root := root; componentSubscribers := [] |}]) σ);;
  modify (λ σ, set_storeOfRoot (<[root := s]> (storeOfRoot σ)) σ);;
  mret s.

(** [store.subscribeComponent(id, cb)], and the function it returns. *)
Definition subscribeComponent (s : nat) (id : nat) (cb : listener) : M unit :=
  modify (λ σ, set_stores
                 (alter (λ st, {| root := root st;
                                  componentSubscribers :=
                                    Map_set id cb (componentSubscribers st) |})
                        s (stores σ)) σ).

Definition unsubscribeComponent (s : nat) (id : nat) : M unit :=
  modify (λ σ, set_stores
                 (alter (λ st, {| root := root st;
                                  componentSubscribers :=
                                    Map_delete id (componentSubscribers st) |})
                        s (stores σ)) σ).

(** [proxy(initial)]. *)
Definition proxy (initial : addr) : M value :=
  store ← createStore initial;
  makeProxy initial store [] initial.

(** [getStoreFor(state)]: [state.__raw ?? state] is looked up among the
    roots, then [state] itself among the wrappers. *)
Definition getStoreFor (ev : expr → M value) (state : value) : M nat :=
  raw ← js_get ev state "__raw";
  let maybeRaw := match raw with
                  | VRaw RUndefined | VRaw RNull => state
                  | _ => raw
                  end in
  byRoot ← gets (λ σ, match maybeRaw with
                      | VRaw (RObject a) => storeOfRoot σ !! a
                      | _ => None
                      end);
  match byRoot with
  | Some s => mret s
  | None =>
      byProxy ← gets (λ σ, match state with
                           | VProxy p => storeOfProxy σ !! p
                           | _ => None
                           end);
      match byProxy with
      | Some s => mret s
      | None => throw (VRaw (RString
          "useSnapshot() expects a value created by proxy() (root or nested)."))
      end
  end.

(* ================================================================== *)
(** ** Tying the knot: user code that calls back into the engine *)
(* ================================================================== *)

(** [exec n e] runs the body [e]; [n] bounds how deep user functions may
    call one another through the engine (a getter read inside a getter). *)
Fixpoint exec (n : nat) (e : expr) : M value :=
  match n with
  | O => timeout
  | S n' => interp (exec n') e
  end.

(** Operations as the outside calls them. *)
Definition read (n : nat) (p : nat) (prop : string) : M value :=
  proxy_get (exec n) p prop (VProxy p).

(** A read whose result is used as a value: [snapshot(p[prop])]. *)
Definition readValue (n : nat) (p : nat) (prop : string) : M value :=
  v ← read n p prop;
  resolve (exec n) v.

Definition assign (n : nat) (p : nat) (prop : string) (newVal : raw) : M bool :=
  set_trap (exec n) n p prop newVal.

Definition deleteProp (n : nat) (p : nat) (prop : string) : M bool :=
  deleteProperty_trap (exec n) n p prop.

Definition tracked (n : nat) (id : nat) (fn : expr) : M value :=
  withComponentTracking (exec n) id fn.

Definition storeFor (n : nat) (state : value) : M nat :=
  getStoreFor (exec n) state.

(* ================================================================== *)
(** ** Vocabulary of the statements *)
(* ================================================================== *)

Definition after {A} (m : M A) (σ : state) : state := (m σ).2.

(** The events an operation appended, given the state before and after. *)
Definition new_events (σ σ' : state) : list event :=
  drop (length (trace σ)) (trace σ').

Definition registered (σ : state) (k : DepKey) : Prop :=
  is_Some (computedRegistry σ !! k).

(** The dependency set recorded for a tracker ([∅] when it has none). *)
Definition deps_of (σ : state) (c : CompId) : gset DepKey :=
  default ∅ (Map_get c (dependencyGraph σ)).

(** A tracker whose entries evaluation may not touch: a component, or a
    computed that is already in the registry. *)
Definition owned (σ : state) (c : CompId) : Prop :=
  match c with
  | CompSym _ => True
  | CompKey k => registered σ k
  end.

(** [c] is not the active scope. *)
Definition quiet (σ : state) (c : CompId) : Prop :=
  ∀ t, currentTracker σ = Some t → tracker_id t ≠ c.

(** The entries of [c] in [dependencyGraph], position by position. *)
Definition same_entries (c : CompId) (σ σ' : state) : Prop :=
  ∀ j x, dependencyGraph σ' !! j = Some (c, x) ↔ dependencyGraph σ !! j = Some (c, x).

(** Every wrapper made so far has an identity below [nextId]. *)
Definition ids_fresh (σ : state) : Prop :=
  map_Forall (λ p _, p < nextId σ) (proxies σ).

(** What running user code (reads only) can do to the state.  [X] names the
    computed whose entry the step is allowed to refresh. *)
Record steps (X : option DepKey) (σ σ' : state) : Prop := {
  steps_heap : heap σ' = heap σ;
  steps_stores : stores σ' = stores σ;
  steps_trace : ∃ ks, trace σ' = trace σ ++ map EvRun ks;
  steps_entry : ∀ k e, X ≠ Some k →
    computedRegistry σ !! k = Some e → computedRegistry σ' !! k = Some e;
  steps_registered : ∀ k, registered σ k → registered σ' k;
  steps_cache : ∀ a p, proxyCache σ !! a = Some p → proxyCache σ' !! a = Some p;
  steps_proxies : ids_fresh σ →
    ids_fresh σ' ∧ ∀ p m, proxies σ !! p = Some m → proxies σ' !! p = Some m;
  steps_frame : ∀ c, CompKey <$> X ≠ Some c → owned σ c → quiet σ c →
    quiet σ' c ∧ same_entries c σ σ'
}.

(** The graph after [ensureDepSet(id).add(k)]. *)
Definition graph_add (id : CompId) (k : DepKey)
    (g : list (CompId * gset DepKey)) : list (CompId * gset DepKey) :=
  match Map_get id g with
  | Some s => Map_set id (s ∪ {[k]}) g
  | None => Map_set id (∅ ∪ {[k]}) (Map_set id ∅ g)
  end.

(** What the recomputation loop of a write pass can do to the state: it
    re-runs computeds, and leaves the entries of components alone. *)
Record pass_steps (σ σ' : state) : Prop := {
  pass_heap : heap σ' = heap σ;
  pass_stores : stores σ' = stores σ;
  pass_trace : ∃ ks, trace σ' = trace σ ++ map EvRun ks;
  pass_registered : ∀ k, registered σ k → registered σ' k;
  pass_components : ∀ id, same_entries (CompSym id) σ σ'
}.

(* ------------------------------------------------------------------ *)
(** *** What bounds the loops of the write pass *)
(* ------------------------------------------------------------------ *)

(** Every wrapper is the cached wrapper of its target. *)
Definition cache_consistent (σ : state) : Prop :=
  map_Forall (λ p m, proxyCache σ !! target m = Some p) (proxies σ).

(** The active scope has an entry in [dependencyGraph]. *)
Definition tracker_entered (σ : state) : Prop :=
  match currentTracker σ with
  | Some t => is_Some (Map_get (tracker_id t) (dependencyGraph σ))
  | None => True
  end.

(** Every wrapper is filed in [storeOfProxy] under the store it closes
    over. *)
Definition store_indexed (σ : state) : Prop :=
  map_Forall (λ p m, storeOfProxy σ !! p = Some (store m)) (proxies σ).

(** [dependencyGraph] is a [Map]: a key has one entry. *)
Definition graph_unique (σ : state) : Prop :=
  NoDup (dependencyGraph σ).*1.

Definition wf (σ : state) : Prop :=
  ids_fresh σ ∧ cache_consistent σ ∧ store_indexed σ ∧ graph_unique σ
  ∧ tracker_entered σ.

(** The property names that occur in the heap. *)
Definition names (h : gmap addr obj) : gset string :=
  ⋃ ((λ ao : addr * obj, dom (props ao.2)) <$> map_to_list h).

Definition isGetter (h : gmap addr obj) (a : addr) (prop : string) : bool :=
  match getDescriptorDeep h a prop with
  | Some (Accessor (Some _) _) => true
  | _ => false
  end.

(** The getter [prop] of [a] is registered under the key its wrapper gives
    it. *)
Definition registeredVia (σ : state) (a : addr) (prop : string) : bool :=
  match proxyCache σ !! a with
  | Some p =>
      match proxies σ !! p with
      | Some m =>
          bool_decide
            (registered σ (computedKeyForPath (keyOf (base m ++ [prop]))))
      | None => false
      end
  | None => false
  end.

(** The getters that a read can still register: each registration takes
    one away, and nothing adds any. *)
Definition pending (σ : state) : gset (addr * string) :=
  filter (λ ap, isGetter (heap σ) ap.1 ap.2 = true
                ∧ registeredVia σ ap.1 ap.2 = false)
    (list_to_set (a ← elements (dom (heap σ));
                  (λ prop, (a, prop)) <$> elements (names (heap σ)))
       : gset (addr * string)).

(** Entries of [dependencyGraph] now, plus entries that can still be
    appended. *)
Definition potential (σ : state) : nat :=
  length (dependencyGraph σ) + size (pending σ).

(** What evaluation does to these: the graph keeps its keys in place, the
    wrappers made stay, and the graph grows by no more than [pending]
    shrinks. *)
Definition tame (σ σ' : state) : Prop :=
  wf σ →
  wf σ'
  ∧ (dependencyGraph σ).*1 `prefix_of` (dependencyGraph σ').*1
  ∧ proxies σ ⊆ proxies σ'
  ∧ potential σ' ≤ potential σ.

Definition isUnseen (s : gset DepKey) (c : CompId) : bool :=
  match c with
  | CompKey k => negb (bool_decide (k ∈ s))
  | CompSym _ => false
  end.

(** Entries of computeds that the worklist has not seen. *)
Definition unseen (σ : state) (w : worklist) : nat :=
  length (filter (λ c, isUnseen (seen w) c = true) (dependencyGraph σ).*1).

(** What bounds [while (queue.length)]. *)
Definition backlog (σ : state) (w : worklist) : nat :=
  length (queue w) + unseen σ w + size (pending σ).

(** The listener that store [s] holds for component [id]. *)
Definition listener_of (sts : list Store) (s id : nat) : option listener :=
  sts !! s ≫= (λ st, Map_get id (componentSubscribers st)).

(** The listener call that the subscriber loop makes for one entry. *)
Definition ping_of (sts : list Store) (s : nat) (changedRaw : DepKey)
    (changedComputeds : gset DepKey) (entry : CompId * gset DepKey)
    : list event :=
  match entry.1 with
  | CompKey _ => []
  | CompSym id =>
      if shouldPing changedRaw changedComputeds entry.2 then
        match listener_of sts s id with
        | Some cb => [EvPing s id (label cb)]
        | None => []
        end
      else []
  end.

(** What the listener called for an entry throws, if it throws. *)
Definition stops_loop (sts : list Store) (s : nat) (changedRaw : DepKey)
    (changedComputeds : gset DepKey) (entry : CompId * gset DepKey)
    : option value :=
  match entry.1 with
  | CompKey _ => None
  | CompSym id =>
      if shouldPing changedRaw changedComputeds entry.2
      then listener_of sts s id ≫= raises
      else None
  end.

(** The listener calls of the subscriber loop, in order, and the exception
    that ended it: the loop stops at the first listener that throws. *)
Fixpoint ping_loop (sts : list Store) (s : nat) (changedRaw : DepKey)
    (changedComputeds : gset DepKey) (g : list (CompId * gset DepKey))
    : list event * option value :=
  match g with
  | [] => ([], None)
  | entry :: g' =>
      match stops_loop sts s changedRaw changedComputeds entry with
      | Some e => (ping_of sts s changedRaw changedComputeds entry, Some e)
      | None =>
          (ping_of sts s changedRaw changedComputeds entry
             ++ (ping_loop sts s changedRaw changedComputeds g').1,
           (ping_loop sts s changedRaw changedComputeds g').2)
      end
  end.

(** [m'] returns what [m] returns whenever [m] does not run out of fuel. *)
Definition refines {A} (m m' : M A) : Prop :=
  ∀ σ r σ', m σ = (r, σ') → r ≠ Timeout → m' σ = (r, σ').

(* ------------------------------------------------------------------ *)
(** *** The invalidation rule of the spec's write-time algorithm *)
(* ------------------------------------------------------------------ *)

(** Non-empty prefixes of a path: writing [a.b.c] looks up [a], [a.b],
    [a.b.c]. *)
Fixpoint prefixes (path : Path) : list Path :=
  match path with
  | [] => []
  | x :: path' => [x] :: map (cons x) (prefixes path')
  end.

Definition isComputedKey (d : DepKey) : bool :=
  String.prefix REF_COMPUTED_PREFIX d.

(** The raw-to-computed index holds a computed under every prefix of each
    raw path it depends on: [p] finds the dependency [d] when [d] is [p] or
    lies below it. *)
Definition indexed_under (p d : DepKey) : bool :=
  negb (isComputedKey d) && (String.eqb d p || String.prefix (p +:+ ".") d).

(** Step 2: the computeds found under some prefix of the changed path. *)
Definition spec_direct (σ : state) (path : Path) : list DepKey :=
  omap (λ entry : CompId * gset DepKey,
          match entry.1 with
          | CompKey c =>
              if existsb (λ p, Set_some (indexed_under (keyOf p)) entry.2)
                   (prefixes path)
              then Some c else None
          | CompSym _ => None
          end) (dependencyGraph σ).

(** Step 3, one round: every computed that read an affected computed. *)
Definition spec_parents (σ : state) (affected : list DepKey) : list DepKey :=
  omap (λ entry : CompId * gset DepKey,
          match entry.1 with
          | CompKey c =>
              if Set_some (λ d, bool_decide (d ∈ affected)) entry.2
              then Some c else None
          | CompSym _ => None
          end) (dependencyGraph σ).

Fixpoint spec_closure (n : nat) (σ : state) (affected : list DepKey)
    : list DepKey :=
  match n with
  | O => affected
  | S n' => spec_closure n' σ (affected ++ spec_parents σ affected)
  end.

(** The final [affected] set of the spec's pass. *)
Definition spec_affected (σ : state) (path : Path) : list DepKey :=
  spec_closure (length (dependencyGraph σ)) σ (spec_direct σ path).

(** Step 4: who the spec's pass pings. *)
Definition spec_should_ping (σ : state) (id : nat) (path : Path) : bool :=
  let deps := deps_of σ (CompSym id) in
  Set_some (λ d, negb (isComputedKey d) && matches d (keyOf path)) deps
  || Set_some (λ d, isComputedKey d && bool_decide (d ∈ spec_affected σ path)) deps.

(* ------------------------------------------------------------------ *)
(** *** A small store used by the examples *)
(* ------------------------------------------------------------------ *)

Definition boot (h : gmap addr obj) : state :=
  {| heap := h; computedRegistry := ∅; dependencyGraph := []; proxyCache := ∅;
     proxies := ∅; storeOfRoot := ∅; storeOfProxy := ∅; stores := [];
     currentTracker := None; nextId := 0; now := 0; trace := [] |}.

Definition plain (ps : list (string * slot)) : obj :=
  {| is_array := false; ref_mark := false; extensible := true; proto := None;
     props := list_to_map ps |}.

Definition array (xs : list raw) : obj :=
  {| is_array := true; ref_mark := false; extensible := true; proto := None;
     props := list_to_map
       (("length", Data (RNumber (Z.of_nat (length xs))) true false)
        :: imap (λ i x, (pretty i, Data x true true)) xs) |}.

(** Use of a read as a number: [valueOf] of a live primitive, or the
    number itself. *)
Definition num (k : Z → expr) (v : value) : expr :=
  Resolve v (λ v', match v' with
                   | VRaw (RNumber z) => k z
                   | _ => Throw TypeError
                   end).

(** [get double() { return this.n * 2 }] *)
Definition double_body : getter := λ this,
  Get this "n" (num (λ n, Return (VRaw (RNumber (2 * n))))).

(** [get sum() { return this.double + this.k }] *)
Definition sum_body : getter := λ this,
  Get this "double" (num (λ d,
    Get this "k" (num (λ k, Return (VRaw (RNumber (d + k))))))).

(** [get sign() { return this.n > 0 ? 1 : 0 }] *)
Definition sign_body : getter := λ this,
  Get this "n" (num (λ n, Return (VRaw (RNumber (if (0 <? n)%Z then 1 else 0))))).

(** [get bad() { throw "boom" }] *)
Definition bad_body : getter := λ this, Throw (VRaw (RString "boom")).

Definition cart_heap : gmap addr obj :=
  {[ 0 := plain [("n", Data (RNumber 1) true true);
                 ("k", Data (RNumber 3) true true);
                 ("items", Data (RObject 1) true true);
                 ("double", Accessor (Some double_body) true);
                 ("sum", Accessor (Some sum_body) true);
                 ("sign", Accessor (Some sign_body) true);
                 ("bad", Accessor (Some bad_body) true)];
     1 := array [RNumber 10; RNumber 20] ]}.

(** [const state = proxy({ n: 1, k: 3, items: [10, 20], get double, ... })];
    the root wrapper is [VProxy 0], its store is store [0]. *)
Definition cart : state := after (proxy 0) (boot cart_heap).

(** The cart after [double] has been read once outside any scope. *)
Definition cart_double : state := after (readValue 5 0 "double") cart.

(** The cart after a first read of [bad], which threw. *)
Definition cart_bad : state := after (read 5 0 "bad") cart.

(** A component body that reads [state.double], then [state.n]. *)
Definition double_then_n : expr :=
  Get (VProxy 0) "double" (λ d, Resolve d (λ d',
    Get (VProxy 0) "n" (λ n, Resolve n (λ _, Return d')))).

(** A component body that reads only [state.double]. *)
Definition only_double : expr :=
  Get (VProxy 0) "double" (λ d, Return d).

(** A component body that reads only [state.sign]. *)
Definition only_sign : expr :=
  Get (VProxy 0) "sign" (λ v, Return v).

(** A component body that reads only [state.items.length]. *)
Definition only_length : expr :=
  Get (VProxy 0) "items" (λ items, Get items "length" (λ l, Return l)).

(** Component [7] rendered [only_sign] after [sign] was first read, and
    subscribed with listener [70]. *)
Definition cart_sign_subscribed : state :=
  after (subscribeComponent 0 7 70)
    (after (tracked 5 7 only_sign) (after (readValue 5 0 "sign") cart)).

(** Component [7] rendered [only_length] and subscribed with listener
    [70]; the wrapper of [items] is [VProxy 1]. *)
Definition cart_length_subscribed : state :=
  after (subscribeComponent 0 7 70) (after (tracked 5 7 only_length) cart).

(** A second store, [proxy({ items: [{ qty: 1, price: 5 }, { qty: 2,
    price: 7 }] })]: its root wrapper is [VProxy 0] again. *)
Definition rows_heap : gmap addr obj :=
  {[ 0 := plain [("items", Data (RObject 1) true true)];
     1 := array [RObject 2; RObject 3];
     2 := plain [("qty", Data (RNumber 1) true true);
                 ("price", Data (RNumber 5) true true)];
     3 := plain [("qty", Data (RNumber 2) true true);
                 ("price", Data (RNumber 7) true true)] ]}.

(** A component body that reads only [state.items[0].qty]. *)
Definition only_first_qty : expr :=
  Get (VProxy 0) "items" (λ items,
    Get items "0" (λ row, Get row "qty" (λ q, Return q))).

(** Component [7] rendered [only_first_qty] and subscribed with listener
    [70]; then [state.items[1]] was read once, so that its wrapper exists:
    the wrappers of the rows are [VProxy 2] and [VProxy 3]. *)
Definition rows_subscribed : state :=
  after (read 5 1 "1")
    (after (subscribeComponent 0 7 70)
       (after (tracked 5 7 only_first_qty) (after (proxy 0) (boot rows_heap)))).

(** The claim "the write pass never invokes an evaluation function", for
    one assignment. *)
Definition write_pass_is_lazy (n : nat) (σ : state) (p : nat) (prop : string)
    (v : raw) : Prop :=
  ∀ k, EvRun k ∉ new_events σ (after (assign n p prop v) σ).

(** The claim "after a failed evaluation the next read retries it", for one
    computed property. *)
Definition retries_after_failure (n : nat) (σ : state) (p : nat)
    (prop : string) (depKey : DepKey) : Prop :=
  ∀ e σ1, read n p prop σ = (Throws e, σ1) →
    EvRun depKey ∈ new_events σ1 (after (read n p prop) σ1).

(** The claim "a write through the wrapper starts exactly one invalidation
    pass, for the path written". *)
Definition one_pass (σ σ' : state) (s : nat) (path : Path) : Prop :=
  ∃ evs, new_events σ σ' = EvNotify s path :: evs
         ∧ ∀ s' path', EvNotify s' path' ∉ evs.

(* ------------------------------------------------------------------ *)
(** *** Vocabulary of the further properties *)
(* ------------------------------------------------------------------ *)

(** The state [σ'] is where an evaluation function, called as [entry.run()]
    for a registered computed, ran out of fuel. *)
Definition evaluation_timed_out (ev : expr → M value) (σ' : state) : Prop :=
  ∃ k entry σ1,
    computedRegistry σ1 !! k = Some entry ∧ ev (run entry) σ1 = (Timeout, σ').

(** What [Reflect.get] hands out for a descriptor without calling user
    code: the value of a data property, [undefined] for a missing property
    or an accessor without getter.  A getter gives [None]. *)
Definition plain_value (d : option slot) : option raw :=
  match d with
  | Some (Data v _ _) => Some v
  | Some (Accessor (Some _) _) => None
  | Some (Accessor None _) | None => Some RUndefined
  end.

(** The walk of [getValueAtPath] from a raw value, as long as it meets no
    getter. *)
Fixpoint lookup_path (h : gmap addr obj) (cur : raw) (path : Path)
    : option raw :=
  match path with
  | [] => Some cur
  | k :: path' =>
      match cur with
      | RObject a =>
          v ← plain_value (getDescriptorDeep h a k); lookup_path h v path'
      | _ => lookup_path h RUndefined path'
      end
  end.

(** A path segment that contains ["."]. *)
Fixpoint has_dot (s : string) : bool :=
  match s with
  | EmptyString => false
  | String c s' => bool_decide (c = "."%char) || has_dot s'
  end.

(** The pieces of a key between its dots. *)
Fixpoint segments (s : string) : list string :=
  match s with
  | EmptyString => [EmptyString]
  | String c s' =>
      if bool_decide (c = "."%char) then EmptyString :: segments s'
      else match segments s' with
           | x :: xs => String c x :: xs
           | [] => [String c EmptyString]
           end
  end.

(** The listener calls among some events. *)
Definition isPing (e : event) : bool :=
  match e with EvPing _ _ _ => true | _ => false end.

Definition pings_of (evs : list event) : list event :=
  filter (λ e, isPing e = true) evs.

(** The component a listener call is for. *)
Definition ping_id (e : event) : option nat :=
  match e with EvPing _ id _ => Some id | _ => None end.

(** Two stores, each with a getter [total] at its root. *)
Definition twin_heap : gmap addr obj :=
  {[ 0 := plain [("total", Accessor (Some (λ _, Return (VRaw (RNumber 1)))) true)];
     1 := plain [("total", Accessor (Some (λ _, Return (VRaw (RNumber 2)))) true)] ]}.

(** [const a = proxy({ get total() { return 1 } }),
           b = proxy({ get total() { return 2 } })]: the wrappers are
    [VProxy 0] and [VProxy 1], the stores [0] and [1]. *)
Definition twins : state := after (proxy 1) (after (proxy 0) (boot twin_heap)).

(** [const state = proxy({ box: ref({ raw: 1 }), n: 1 })]. *)
Definition boxed_heap : gmap addr obj :=
  {[ 0 := plain [("box", Data (RObject 1) true true);
                 ("n", Data (RNumber 1) true true)];
     1 := ref (RObject 2);
     2 := plain [("raw", Data (RNumber 1) true true)] ]}.

Definition boxed : state := after (proxy 0) (boot boxed_heap).

(** [get guard() { if (this.n > 1) throw "boom"; return 0 }] *)
Definition guard_body : getter := λ this,
  Get this "n" (num (λ n, if (1 <? n)%Z then Throw (VRaw (RString "boom"))
                          else Return (VRaw (RNumber 0)))).

Definition guarded_heap : gmap addr obj :=
  {[ 0 := plain [("n", Data (RNumber 1) true true);
                 ("guard", Accessor (Some guard_body) true)] ]}.

(** [const state = proxy({ n: 1, get guard() { ... } })], after [guard] was
    read once and component [7], which reads [n], subscribed with listener
    [70]. *)
Definition guarded : state :=
  after (subscribeComponent 0 7 70)
    (after (tracked 5 7 (Get (VProxy 0) "n" Return))
       (after (readValue 5 0 "guard") (after (proxy 0) (boot guarded_heap)))).

(** The cart after [double], then [sum], were read once outside any
    scope: [sum] depends on the computed key of [double] and on [k]. *)
Definition cart_sum : state := after (readValue 5 0 "sum") cart_double.

(** ... and after [Reflect.set] stored [n = 5], before the pass. *)
Definition cart_sum_written : state :=
  match Reflect_set (heap cart_sum) 0 "n" (RNumber 5) with
  | Done _ h => set_heap h cart_sum
  | _ => cart_sum
  end.

(** The computed [B] has not been re-run since [σ0]: it is registered and
    its entry in the graph still holds [deps]. *)
Definition untouched (B : DepKey) (deps : gset DepKey) (σ : state) : Prop :=
  registered σ B ∧ ∃ j, dependencyGraph σ !! j = Some (CompKey B, deps).

(** Since [σ0] the trace only grew, and [B] was re-run or is untouched. *)
Definition cascade_inv (B : DepKey) (deps : gset DepKey) (σ0 σ : state) : Prop :=
  (∃ evs, trace σ = trace σ0 ++ evs)
  ∧ (EvRun B ∈ new_events σ0 σ ∨ untouched B deps σ).

(** The object [k] steps up the prototype chain of [a]. *)
Fixpoint nth_proto (h : gmap addr obj) (k : nat) (a : addr) : option addr :=
  match k with
  | O => Some a
  | S k' => a' ← getPrototypeOf h a; nth_proto h k' a'
  end.

(** [d] is the descriptor of [prop] on the nearest object of the prototype
    chain of [a] that has the property as its own. *)
Definition nearest (h : gmap addr obj) (prop : string) (a : addr) (d : slot)
    : Prop :=
  ∃ k a', nth_proto h k a = Some a'
          ∧ hasOwnDescriptor h a' prop = Some d
          ∧ ∀ i, i < k → ∃ ai, nth_proto h i a = Some ai
                               ∧ hasOwnDescriptor h ai prop = None.

(** Every computed of [σ] is still registered in [σ'], with the evaluation
    function it was registered with. *)
Definition keeps_runs (σ σ' : state) : Prop :=
  ∀ k e, computedRegistry σ !! k = Some e →
    ∃ e', computedRegistry σ' !! k = Some e' ∧ run e' = run e.

(** An own property that the [[Get]] of a wrapper pins: a data property
    that is neither writable nor configurable (every property of a frozen
    object), or a non-configurable accessor without getter.  The trap must
    report what is stored, so a wrapper or a live primitive is refused. *)
Definition pinned (d : option slot) : bool :=
  match d with
  | Some (Data _ false false) | Some (Accessor None false) => true
  | _ => false
  end.

(** [const state = proxy(Object.freeze({ cfg: { a: 1 }, n: 1 }))]. *)
Definition sealed_heap : gmap addr obj :=
  {[ 0 := {| is_array := false; ref_mark := false; extensible := false;
             proto := None;
             props := list_to_map [("cfg", Data (RObject 1) false false);
                                   ("n", Data (RNumber 1) false false)] |};
     1 := plain [("a", Data (RNumber 1) true true)] ]}.

Definition sealed : state := after (proxy 0) (boot sealed_heap).

(** The state in which [runComputed] calls [entry.run()]: the dependency
    set of the computed has been replaced by an empty one, and the
    computed is the active scope. *)
Definition run_start (depKey : DepKey) (σ : state) : state :=
  set_trace (trace σ ++ [EvRun depKey])
    (set_currentTracker (Some (TComputed depKey))
       (set_dependencyGraph (Map_set (CompKey depKey) ∅ (dependencyGraph σ)) σ)).

(** The state in which [ensureComputed] calls [runComputed] for a key it
    has just registered. *)
Definition registered_with (depKey : DepKey) (runner : expr) (σ : state) : state :=
  set_computedRegistry
    (<[depKey := {| run := runner; last := VRaw RUndefined; lastRun := 0 |}]>
       (computedRegistry σ)) σ.

(** Re-running the computed [k] in state [σ] returns, and the memoized
    value after the run is not [Object.is]-equal to the one before. *)
Definition value_changes (ev : expr → M value) (k : DepKey) (σ : state) : Prop :=
  ∃ before v σ' after,
    computedRegistry σ !! k = Some before
    ∧ runComputed ev k σ = (Normal v, σ')
    ∧ computedRegistry σ' !! k = Some after
    ∧ Object_is (last before) (last after) = false.

(** The re-runs of one scan of the graph: [scan_reruns ev changed k σa n i w σ]
    says that the scan for the key [changed], from position [i] in state
    [σ], reaches in state [σa] an entry of the registered computed [k] of
    which a dependency matches [changed]; this is where the loop calls
    [runComputed(k)]. *)
Inductive scan_reruns (ev : expr → M value) (changed : DepKey) (k : DepKey)
    (σa : state) : nat → nat → worklist → state → Prop :=
| scan_reruns_here n i w deps :
    dependencyGraph σa !! i = Some (CompKey k, deps) →
    Set_some (λ d, matches d changed) deps = true →
    registered σa k →
    scan_reruns ev changed k σa (S n) i w σa
| scan_reruns_later n i w σ c deps w' σ1 :
    dependencyGraph σ !! i = Some (c, deps) →
    visitTracker ev changed c deps w σ = (Normal w', σ1) →
    scan_reruns ev changed k σa n (S i) w' σ1 →
    scan_reruns ev changed k σa (S n) i w σ.

(** The re-runs of the whole recomputation: those of the scan for the
    first key of the queue, then those of the rounds that follow. *)
Inductive drain_reruns (ev : expr → M value) (k : DepKey) (σa : state)
    : nat → worklist → state → Prop :=
| drain_reruns_now n w σ changed rest :
    queue w = changed :: rest →
    scan_reruns ev changed k σa (S n) 0
      {| queue := rest; seen := seen w; changedComputed := changedComputed w |} σ →
    drain_reruns ev k σa (S n) w σ
| drain_reruns_later n w σ changed rest w' σ1 :
    queue w = changed :: rest →
    scanTrackers ev (S n) 0 changed
      {| queue := rest; seen := seen w; changedComputed := changedComputed w |} σ
    = (Normal w', σ1) →
    drain_reruns ev k σa n w' σ1 →
    drain_reruns ev k σa (S n) w σ.

(** [recomputeAffectedComputeds(startKeys)], started in [σ], re-runs the
    computed [k] in state [σa]. *)
Definition reruns (ev : expr → M value) (n : nat) (startKeys : list DepKey)
    (σ : state) (k : DepKey) (σa : state) : Prop :=
  drain_reruns ev k σa n
    {| queue := startKeys; seen := list_to_set startKeys; changedComputed := ∅ |} σ.

(** What an assignment stores: the value, or for the [length] of an array
    the number it converts to. *)
Definition stored_value (o : obj) (prop : string) (v : raw) : raw :=
  if is_array o && bool_decide (prop = "length") then
    match toArrayLength v with
    | LengthIs n => RNumber n
    | _ => v
    end
  else v.

(* ------------------------------------------------------------------ *)
(** *** [snapshot], and the tracked snapshot of the React adapter *)
(* ------------------------------------------------------------------ *)

(** What [snapshot] builds: a value handed out as it is, a new array (a
    hole is [None]), or a new plain object with its keys in the order they
    were written. *)
#[warnings="-register-all"] Inductive Snap :=
| SValue (v : value)
| SArray (items : list (option Snap))
| SObject (fields : list (string * Snap)).

(** The ordinary object behind a value: the object itself, or the target
    of a wrapper (the wrapper has no [ownKeys], [has] or
    [getOwnPropertyDescriptor] trap). *)
Definition address_of (σ : state) (v : value) : option addr :=
  match v with
  | VRaw (RObject a) => Some a
  | VProxy p => target <$> proxies σ !! p
  | _ => None
  end.

(** [Array.isArray(value)]. *)
Definition isArray (σ : state) (v : value) : bool :=
  match address_of σ v ≫= (λ a, heap σ !! a) with
  | Some o => is_array o
  | None => false
  end.

(** [HasProperty(O, k)] of [Array.prototype.map]. *)
Definition hasProperty (σ : state) (v : value) (k : string) : bool :=
  match address_of σ v with
  | Some a => bool_decide (is_Some (getDescriptorDeep (heap σ) a k))
  | None => false
  end.

(** [ToLength] of what the [length] read gave. *)
Definition toLength (v : value) : nat :=
  match v with
  | VRaw (RNumber n) => Z.to_nat n
  | _ => 0
  end.

(** [withComponentTracking] around any computation. *)
Definition withTracking {A} (id : nat) (body : M A) : M A :=
  modify (λ σ, set_dependencyGraph
                 (Map_set (CompSym id) ∅ (dependencyGraph σ)) σ);;
  modify (set_currentTracker (Some (TComponent id)));;
  finally body (set_currentTracker None).

Section Snapshot.

Variable ev : expr → M value.

(** [Object.keys] of an ordinary object: its own enumerable string keys in
    property order.  The heap keeps no property order, so the enumeration
    is a parameter. *)
Variable ownKeys : obj → list string.

(** [snapshot(value)].  [value.map(...)] is the [map] of
    [Array.prototype]: it reads [length], then every index that
    [HasProperty] finds, in ascending order; the reads of [map] and
    [constructor] find functions on [Array.prototype] and leave the module
    state alone.  [fuel] bounds the depth of the data. *)
Fixpoint snapshot (fuel : nat) (v : value) : M Snap :=
  match fuel with
  | O => timeout
  | S fuel' =>
      match v with
      | VLive _ lp => x ← live_access ev lp; mret (SValue x)
      | _ =>
          arr ← gets (λ σ, isArray σ v);
          if arr : bool then
            l ← js_get ev v "length";
            l' ← resolve ev l;
            items ← mapM (λ i : nat,
                            has ← gets (λ σ, hasProperty σ v (pretty i));
                            if has : bool then
                              x ← js_get ev v (pretty i);
                              s ← snapshot fuel' x;
                              mret (Some s)
                            else mret None)
                         (seq 0 (toLength l'));
            mret (SArray items)
          else if isObject v then
            o ← gets (λ σ, address_of σ v ≫= (λ a, heap σ !! a));
            match o with
            | None => throw TypeError
            | Some o =>
                fields ← mapM (λ k : string,
                                 x ← js_get ev v k;
                                 s ← snapshot fuel' x;
                                 mret (k, s))
                              (ownKeys o);
                mret (SObject fields)
            end
          else mret (SValue v)
      end
  end.

(** [computeSelected] of [useSnapshot]:
    [withComponentTracking(id, () => snapshot(selector ? selector(state) : state))]. *)
Definition computeSelected (fuel : nat) (id : nat)
    (selector : option (value → expr)) (state : value) : M Snap :=
  withTracking id
    (selected ← match selector with
                | Some f => ev (f state)
                | None => mret state
                end;
     snapshot fuel selected).

End Snapshot.

(** The keys of the scenario objects, in the order the examples list
    them. *)
Definition keys_in_order (o : obj) : list string :=
  (map_to_list (props o)).*1.

(* ================================================================== *)
(** * Properties *)
(* ================================================================== *)

(** ** The monad *)

Lemma gets_bind {A B} (f : state → A) (k : A → M B) σ :
  (gets f ≫= k) σ = k (f σ) σ.
Proof. reflexivity. Qed.

Lemma modify_bind {B} (f : state → state) (k : unit → M B) σ :
  (modify f ≫= k) σ = k tt (f σ).
Proof. reflexivity. Qed.

Lemma mret_bind {A B} (a : A) (k : A → M B) σ :
  (mret a ≫= k) σ = k a σ.
Proof. reflexivity. Qed.

Lemma throw_bind {A B} e (k : A → M B) σ :
  (throw e ≫= k) σ = (Throws e, σ).
Proof. reflexivity. Qed.

Lemma bind_assoc {A B C} (m : M A) (k : A → M B) (k' : B → M C) σ :
  ((m ≫= k) ≫= k') σ = (m ≫= (λ a, k a ≫= k')) σ.
Proof.
  unfold mbind, M_bind. destruct (m σ) as [[a|e|] σ1]; reflexivity.
Qed.

Lemma bind_Normal {A B} (m : M A) (k : A → M B) σ b σ' :
  (m ≫= k) σ = (Normal b, σ') →
  ∃ a σ1, m σ = (Normal a, σ1) ∧ k a σ1 = (Normal b, σ').
Proof.
  unfold mbind, M_bind. destruct (m σ) as [[a|e|] σ1]; intros H;
    [eauto | discriminate | discriminate].
Qed.


(** ** [Map] *)

Lemma Map_set_entry_ne {V} (k c : CompId) (v x : V) (g : list (CompId * V)) j :
  k ≠ c → Map_set k v g !! j = Some (c, x) ↔ g !! j = Some (c, x).
Proof.
  intros Hne. revert j. induction g as [|[k' v'] g IH]; intros j; simpl.
  - destruct j; simpl; split; intros H; try discriminate.
    injection H as -> _. done.
  - destruct (decide (k' = k)) as [->|Hk].
    + destruct j; simpl; [|done].
      split; intros H; injection H as -> _; done.
    + destruct j; simpl; [done | apply IH].
Qed.

Lemma Map_get_set_eq {V} (k : CompId) (v : V) (g : list (CompId * V)) :
  Map_get k (Map_set k v g) = Some v.
Proof.
  induction g as [|[k' v'] g IH]; simpl.
  - by rewrite decide_True.
  - destruct (decide (k' = k)) as [->|Hk]; simpl.
    + by rewrite decide_True.
    + by rewrite decide_False.
Qed.

Lemma Map_get_set_ne {V} (k c : CompId) (v : V) (g : list (CompId * V)) :
  k ≠ c → Map_get c (Map_set k v g) = Map_get c g.
Proof.
  intros Hne. induction g as [|[k' v'] g IH]; simpl.
  - by rewrite decide_False.
  - destruct (decide (k' = k)) as [->|Hk]; simpl.
    + by rewrite !decide_False.
    + destruct (decide (k' = c)); done.
Qed.


(** ** The trace *)

Lemma new_events_app σ σ' evs :
  trace σ' = trace σ ++ evs → new_events σ σ' = evs.
Proof. intros H. unfold new_events. rewrite H. apply drop_app_length. Qed.

(** ** [steps] is a preorder *)

Lemma steps_refl X σ : steps X σ σ.
Proof.
  constructor; try done.
  - exists []. by rewrite app_nil_r.
Qed.

Lemma steps_trans X σ1 σ2 σ3 : steps X σ1 σ2 → steps X σ2 σ3 → steps X σ1 σ3.
Proof.
  intros [h1 s1 [ks1 t1] e1 r1 c1 p1 f1] [h2 s2 [ks2 t2] e2 r2 c2 p2 f2].
  constructor.
  - congruence.
  - congruence.
  - exists (ks1 ++ ks2). rewrite t2, t1, map_app, app_assoc. done.
  - eauto.
  - eauto.
  - eauto.
  - intros Hf. destruct (p1 Hf) as [Hf2 Hp1]. destruct (p2 Hf2) as [Hf3 Hp2].
    eauto.
  - intros c Hc Ho Hq. destruct (f1 c Hc Ho Hq) as [Hq2 Hs1].
    assert (owned σ2 c) as Ho2.
    { destruct c; simpl in *; eauto. }
    destruct (f2 c Hc Ho2 Hq2) as [Hq3 Hs2]. split; [done|].
    intros j x. etrans; [apply Hs2 | apply Hs1].
Qed.

(** A step that refreshes nothing is in particular a step that may
    refresh [k]. *)
Lemma steps_weaken k σ σ' : steps None σ σ' → steps (Some k) σ σ'.
Proof.
  intros [h s t e r c p f]. constructor; eauto.
Qed.

(** Registering [k] and then running it never refreshes an entry that was
    there before. *)
Lemma steps_register k σ σ1 σ2 :
  computedRegistry σ !! k = None →
  steps None σ σ1 → steps (Some k) σ1 σ2 → steps None σ σ2.
Proof.
  intros Hk [h1 s1 [ks1 t1] e1 r1 c1 p1 f1] [h2 s2 [ks2 t2] e2 r2 c2 p2 f2].
  constructor.
  - congruence.
  - congruence.
  - exists (ks1 ++ ks2). rewrite t2, t1, map_app, app_assoc. done.
  - intros k' e _ He. apply e2; [|by apply e1].
    intros [= <-]. congruence.
  - eauto.
  - eauto.
  - intros Hf. destruct (p1 Hf) as [Hf2 Hp1]. destruct (p2 Hf2) as [Hf3 Hp2].
    eauto.
  - intros c _ Ho Hq. destruct (f1 c) as [Hq2 Hs1]; [done..|].
    assert (owned σ1 c) as Ho2.
    { destruct c; simpl in *; eauto. }
    destruct (f2 c) as [Hq3 Hs2]; [|done..|].
    { simpl. intros [= <-]. destruct Ho as [? Ho]. simpl in *. congruence. }
    split; [done|]. intros j x. etrans; [apply Hs2 | apply Hs1].
Qed.

Lemma steps_bind {A B} X (m : M A) (k : A → M B) σ :
  steps X σ (m σ).2 →
  (∀ a σ1, m σ = (Normal a, σ1) → steps X σ1 (k a σ1).2) →
  steps X σ ((m ≫= k) σ).2.
Proof.
  unfold mbind, M_bind. destruct (m σ) as [[a|e|] σ1]; simpl; intros H1 H2;
    [eapply steps_trans; eauto | done | done].
Qed.

Lemma steps_finally {A} X (body : M A) cleanup σ :
  steps X σ (body σ).2 →
  (∀ σ1, steps X σ1 (cleanup σ1)) →
  steps X σ (finally body cleanup σ).2.
Proof.
  unfold finally. destruct (body σ) as [[a|e|] σ1]; simpl; intros H1 H2;
    [eapply steps_trans; eauto | eapply steps_trans; eauto | done].
Qed.

(** ** What each primitive update does *)


Lemma steps_set_tracker X σ t :
  (∀ c, CompKey <$> X ≠ Some c → owned σ c → tracker_id <$> t ≠ Some c) →
  steps X σ (set_currentTracker t σ).
Proof.
  intros H. constructor; simpl; try done.
  - exists []. by rewrite app_nil_r.
  - intros c Hc Ho _. split; [|done].
    unfold quiet. simpl. intros t' ->. specialize (H c Hc Ho). simpl in H. congruence.
Qed.

Lemma steps_log_run X σ k : steps X σ (set_trace (trace σ ++ [EvRun k]) σ).
Proof.
  constructor; simpl; try done.
  by exists [k].
Qed.

Lemma steps_fresh X σ : steps X σ (set_nextId (S (nextId σ)) σ).
Proof.
  constructor; simpl; try done.
  - exists []. by rewrite app_nil_r.
  - intros Hf. split; [|done]. intros p m Hp. specialize (Hf p m Hp).
    simpl in *. lia.
Qed.

Lemma steps_insert_entry σ k e :
  computedRegistry σ !! k = None →
  steps None σ (set_computedRegistry (<[k := e]> (computedRegistry σ)) σ).
Proof.
  intros Hk. constructor; simpl; try done.
  - exists []. by rewrite app_nil_r.
  - intros k' e' _ He. rewrite lookup_insert_ne; [done|]. congruence.
  - intros k' [e' He]. unfold registered. simpl.
    rewrite lookup_insert_ne; [by eexists|]. congruence.
Qed.

Lemma steps_alter_entry σ k f :
  steps (Some k) σ (set_computedRegistry (alter f k (computedRegistry σ)) σ).
Proof.
  constructor; simpl; try done.
  - exists []. by rewrite app_nil_r.
  - intros k' e' Hne He. rewrite lookup_alter_ne; [done|]. congruence.
  - intros k' [e' He]. unfold registered. simpl.
    destruct (decide (k = k')) as [->|Hne].
    + rewrite lookup_alter_eq, He. by eexists.
    + rewrite lookup_alter_ne; [by eexists | done].
Qed.

Lemma bind_mret_snd {A B} (m : M A) (b : B) σ :
  ((m ≫= λ _, mret b) σ).2 = (m σ).2.
Proof. unfold mbind, M_bind. by destruct (m σ) as [[a|e|] σ1]. Qed.

Lemma steps_set_graph_at X σ id s :
  (∀ c, CompKey <$> X ≠ Some c → owned σ c → quiet σ c → id ≠ c) →
  steps X σ (set_dependencyGraph (Map_set id s (dependencyGraph σ)) σ).
Proof.
  intros H. constructor; simpl; try done.
  - exists []. by rewrite app_nil_r.
  - intros c Hc Ho Hq. split; [done|]. intros j x. simpl.
    apply Map_set_entry_ne. by apply H.
Qed.

Ltac steps_step :=
  match goal with
  | |- steps _ ?σ ?σ => apply steps_refl
  | |- steps _ _ (mret _ _).2 => apply steps_refl
  | |- steps _ _ (throw _ _).2 => apply steps_refl
  | |- steps _ _ (timeout _).2 => apply steps_refl
  | |- steps _ _ (gets _ _).2 => apply steps_refl
  | |- steps _ _ ((gets _ ≫= _) _).2 => rewrite gets_bind
  | |- steps _ _ ((mret _ ≫= _) _).2 => rewrite mret_bind
  | |- steps _ _ ((throw _ ≫= _) _).2 => rewrite throw_bind
  | |- steps _ _ ((_ ≫= _) _).2 => apply steps_bind; [ | intros ? ? ?]
  | |- steps _ _ ((if ?b then _ else _) _).2 => destruct b eqn:?
  | |- steps _ _ ((match ?x with _ => _ end) _).2 => destruct x eqn:?
  end.

(** ** The own property and the prototype chain *)

Lemma getDescriptorDeep_own h a prop d :
  hasOwnDescriptor h a prop = Some d → getDescriptorDeep h a prop = Some d.
Proof. intros H. unfold getDescriptorDeep. simpl. by rewrite H. Qed.

Lemma own_of_deep h a prop d :
  getDescriptorDeep h a prop = Some d →
  hasOwnDescriptor h a prop = None ∨ hasOwnDescriptor h a prop = Some d.
Proof.
  unfold getDescriptorDeep. simpl.
  destruct (hasOwnDescriptor h a prop); [intros [= ->]; by right | by left].
Qed.

Lemma get_invariant_live d f lp : get_invariant d (VLive f lp) = negb (pinned d).
Proof. by destruct d as [[v [] []|[g|] []]|]. Qed.

Lemma get_invariant_wrapper d q : get_invariant d (VProxy q) = negb (pinned d).
Proof. by destruct d as [[v [] []|[g|] []]|]. Qed.

(** [[Get]] of a wrapper is its trap followed by the check. *)
Lemma proxy_get_eq ev p prop receiver σ :
  proxy_get ev p prop receiver σ
  = match get_trap ev p prop receiver σ with
    | (Normal v, σ') =>
        (if get_invariant
              (proxies σ !! p ≫= λ m, hasOwnDescriptor (heap σ') (target m) prop) v
         then Normal v else Throws TypeError, σ')
    | other => other
    end.
Proof.
  unfold proxy_get. rewrite gets_bind. unfold mbind at 1, M_bind at 1.
  destruct (get_trap ev p prop receiver σ) as [[v|e|] σ']; try done.
  rewrite gets_bind. by destruct (get_invariant _ _).
Qed.

Section EngineFacts.

Variable ev : expr → M value.
Hypothesis ev_steps : ∀ e σ, steps None σ (ev e σ).2.

Lemma depsAdd_steps X σ t k :
  currentTracker σ = Some t → steps X σ (depsAdd (tracker_id t) k σ).2.
Proof.
  intros Ht.
  assert (∀ σ', currentTracker σ' = Some t →
    ∀ c, CompKey <$> X ≠ Some c → owned σ' c → quiet σ' c → tracker_id t ≠ c)
    as Hq.
  { intros σ' Ht' c _ _ Hq. by apply Hq. }
  unfold depsAdd, ensureDepSet. rewrite bind_assoc, gets_bind.
  destruct (Map_get _ _).
  - rewrite mret_bind. apply steps_set_graph_at. by apply Hq.
  - rewrite bind_assoc, modify_bind, mret_bind.
    eapply steps_trans; [apply steps_set_graph_at; by apply Hq|].
    apply steps_set_graph_at. by apply Hq.
Qed.

Lemma trackDep_steps X σ k : steps X σ (trackDep k σ).2.
Proof.
  unfold trackDep. rewrite gets_bind.
  destruct (currentTracker σ) eqn:Ht; [by apply depsAdd_steps | apply steps_refl].
Qed.

Lemma createLivePrimitive_steps X σ lp : steps X σ (createLivePrimitive lp σ).2.
Proof. apply steps_fresh. Qed.

Lemma makeProxy_steps X σ a s b r : steps X σ (makeProxy a s b r σ).2.
Proof.
  unfold makeProxy. rewrite gets_bind.
  destruct (proxyCache σ !! a) eqn:Hc; [apply steps_refl|].
  constructor; simpl; try done.
  - exists []. by rewrite app_nil_r.
  - intros a' p Ha. rewrite lookup_insert_ne; [done | congruence].
  - intros Hf. split.
    + intros p m Hp. simpl in *.
      destruct (decide (nextId σ = p)) as [<-|Hne]; [lia|].
      rewrite lookup_insert_ne in Hp by done.
      specialize (Hf p m Hp). simpl in Hf. lia.
    + intros p m Hp. rewrite lookup_insert_ne; [done|].
      intros <-. specialize (Hf _ m Hp). simpl in Hf. lia.
Qed.

Lemma Reflect_get_steps σ a prop receiver :
  steps None σ (Reflect_get ev a prop receiver σ).2.
Proof.
  unfold Reflect_get. rewrite gets_bind.
  repeat (steps_step; try apply ev_steps).
Qed.

(** The [try { ... } finally { ... }] of [runComputed]. *)
Lemma run_body_steps k entry σ :
  steps (Some k) σ
    (finally
       (log (EvRun k);;
        val ← ev (run entry);
        modify (λ σ, set_computedRegistry
                       (alter (λ e, {| run := run e; last := val;
                                       lastRun := now σ |})
                              k (computedRegistry σ)) σ);;
        mret val)
       (set_currentTracker None) σ).2.
Proof.
  apply steps_finally.
  - unfold log. rewrite modify_bind.
    eapply steps_trans; [apply steps_log_run|].
    apply steps_bind; [apply steps_weaken, ev_steps|]. intros val σ1 _.
    rewrite modify_bind. apply steps_alter_entry.
  - intros σ1. apply steps_set_tracker. done.
Qed.

Lemma runComputed_steps k σ : steps (Some k) σ (runComputed ev k σ).2.
Proof.
  unfold runComputed. rewrite gets_bind.
  destruct (computedRegistry σ !! k) as [entry|]; [|apply steps_refl].
  rewrite !modify_bind.
  eapply steps_trans.
  { apply steps_set_graph_at. intros c Hc _ _ Heq. subst c. by apply Hc. }
  eapply steps_trans.
  { apply (steps_set_tracker _ _ (Some (TComputed k))).
    intros c Hc _ Heq. apply Hc. exact Heq. }
  apply run_body_steps.
Qed.

(** [runComputed] sets the scope before it evaluates, so whatever scope
    was active, it leaves the entries of every other owned tracker as
    they are. *)
Lemma runComputed_frame k σ c :
  CompKey k ≠ c → owned σ c → same_entries c σ (runComputed ev k σ).2.
Proof.
  intros Hne Ho. unfold runComputed. rewrite gets_bind.
  destruct (computedRegistry σ !! k) as [entry|]; [|done].
  rewrite !modify_bind.
  set (σb := set_currentTracker _ _).
  destruct (steps_frame _ _ _ (run_body_steps k entry σb) c) as [_ Hs].
  - simpl. congruence.
  - destruct c; done.
  - unfold quiet, σb. simpl. intros t [= <-]. done.
  - intros j x. etrans; [apply Hs|]. unfold σb. simpl.
    by apply Map_set_entry_ne.
Qed.

Lemma ensureComputed_steps absPath runner σ :
  steps None σ (ensureComputed ev absPath runner σ).2.
Proof.
  unfold ensureComputed. rewrite gets_bind, bind_mret_snd.
  case_bool_decide as Hreg; [apply steps_refl|].
  rewrite modify_bind.
  eapply steps_register; [| |apply runComputed_steps].
  - destruct (computedRegistry σ !! _) eqn:E; [|done].
    exfalso. apply Hreg. by eexists.
  - apply steps_insert_entry.
    destruct (computedRegistry σ !! _) eqn:E; [|done].
    exfalso. apply Hreg. by eexists.
Qed.

Lemma get_trap_steps p prop receiver σ :
  steps None σ (get_trap ev p prop receiver σ).2.
Proof.
  unfold get_trap.
  repeat (steps_step;
          try apply ensureComputed_steps; try apply Reflect_get_steps;
          try (by apply depsAdd_steps); try apply trackDep_steps;
          try apply createLivePrimitive_steps; try apply makeProxy_steps).
Qed.

Lemma proxy_get_steps p prop receiver σ :
  steps None σ (proxy_get ev p prop receiver σ).2.
Proof.
  rewrite proxy_get_eq. pose proof (get_trap_steps p prop receiver σ) as H.
  by destruct (get_trap ev p prop receiver σ) as [[v|e|] σ'].
Qed.

(** The check never refuses what the trap reports for a getter. *)
Lemma proxy_get_getter p prop receiver σ m g c :
  proxies σ !! p = Some m →
  getDescriptorDeep (heap σ) (target m) prop = Some (Accessor (Some g) c) →
  proxy_get ev p prop receiver σ = get_trap ev p prop receiver σ.
Proof.
  intros Hm Hd. rewrite proxy_get_eq.
  pose proof (get_trap_steps p prop receiver σ) as Hs.
  destruct (get_trap ev p prop receiver σ) as [[v|e|] σ']; try done.
  simpl in Hs. rewrite Hm. simpl. rewrite (steps_heap _ _ _ Hs).
  by destruct (own_of_deep _ _ _ _ Hd) as [-> | ->].
Qed.

Lemma js_get_steps o key σ : steps None σ (js_get ev o key σ).2.
Proof.
  unfold js_get.
  repeat (steps_step; try apply proxy_get_steps; try apply Reflect_get_steps).
Qed.

Lemma getValueAtPath_steps cur path σ :
  steps None σ (getValueAtPath ev cur path σ).2.
Proof.
  revert cur σ. induction path as [|k path IH]; intros cur σ; simpl.
  - apply steps_refl.
  - apply steps_bind; [|intros; apply IH].
    destruct (isObject cur); [apply js_get_steps | apply steps_refl].
Qed.

Lemma live_access_steps lp σ : steps None σ (live_access ev lp σ).2.
Proof.
  unfold live_access, live_read.
  repeat (steps_step; try apply getValueAtPath_steps; try apply trackDep_steps).
Qed.

Lemma resolve_steps v σ : steps None σ (resolve ev v σ).2.
Proof.
  unfold resolve. destruct v; try apply steps_refl. apply live_access_steps.
Qed.

Lemma interp_steps e σ : steps None σ (interp ev e σ).2.
Proof.
  revert σ. induction e as [v|x|o key k IH|v k IH]; intros σ; simpl.
  - apply steps_refl.
  - apply steps_refl.
  - apply steps_bind; [apply js_get_steps | intros; apply IH].
  - apply steps_bind; [apply resolve_steps | intros; apply IH].
Qed.

End EngineFacts.

Lemma exec_steps n e σ : steps None σ (exec n e σ).2.
Proof.
  revert e σ. induction n as [|n IH]; intros e σ; simpl.
  - apply steps_refl.
  - by apply interp_steps.
Qed.

(** ** Recording a dependency *)

Lemma depsAdd_eq id k σ :
  depsAdd id k σ
  = (Normal tt, set_dependencyGraph (graph_add id k (dependencyGraph σ)) σ).
Proof.
  unfold depsAdd, ensureDepSet, graph_add. rewrite bind_assoc, gets_bind.
  destruct (Map_get id (dependencyGraph σ)); reflexivity.
Qed.

Lemma Map_get_graph_add_eq id k g :
  Map_get id (graph_add id k g) = Some (default ∅ (Map_get id g) ∪ {[k]}).
Proof.
  unfold graph_add. destruct (Map_get id g) eqn:E; simpl;
    by rewrite Map_get_set_eq.
Qed.

Lemma Map_get_graph_add_ne id c k g :
  id ≠ c → Map_get c (graph_add id k g) = Map_get c g.
Proof.
  intros Hne. unfold graph_add. destruct (Map_get id g) eqn:E;
    by rewrite ?Map_get_set_ne.
Qed.

(** ** Reading a computed that is already registered *)

Lemma ensureComputed_registered ev absPath runner σ :
  registered σ (computedKeyForPath absPath) →
  ensureComputed ev absPath runner σ = (Normal (computedKeyForPath absPath), σ).
Proof.
  intros Hreg. unfold ensureComputed. rewrite gets_bind.
  by rewrite bool_decide_true.
Qed.

(** The [get] trap on a registered computed never calls user code: while a
    scope is active it records the computed key and returns [entry.last];
    otherwise it makes a live primitive. *)
Lemma get_trap_registered ev p prop receiver σ m g c entry :
  proxies σ !! p = Some m →
  prop ≠ "__raw" → prop ≠ "__isProxy" →
  getDescriptorDeep (heap σ) (target m) prop = Some (Accessor (Some g) c) →
  computedRegistry σ !! computedKeyForPath (keyOf (base m ++ [prop])) = Some entry →
  get_trap ev p prop receiver σ =
    match currentTracker σ with
    | Some t =>
        (Normal (last entry),
         set_dependencyGraph
           (graph_add (tracker_id t) (computedKeyForPath (keyOf (base m ++ [prop])))
              (dependencyGraph σ)) σ)
    | None =>
        (Normal (VLive (nextId σ)
                   (ComputedPath (computedKeyForPath (keyOf (base m ++ [prop]))))),
         set_nextId (S (nextId σ)) σ)
    end.
Proof.
  intros Hm Hraw Hisp Hdesc Hentry. unfold get_trap.
  rewrite gets_bind, Hm, !bool_decide_false by done.
  rewrite gets_bind, Hdesc.
  unfold mbind at 1, M_bind at 1.
  rewrite ensureComputed_registered by (by eexists).
  rewrite gets_bind. destruct (currentTracker σ) as [t|] eqn:Ht; [|reflexivity].
  unfold mbind at 1, M_bind at 1. rewrite depsAdd_eq.
  rewrite gets_bind. simpl. by rewrite Hentry.
Qed.

(** A read of a getter through the wrapper is what the trap reports. *)
Lemma read_getter n p prop σ m g c :
  proxies σ !! p = Some m →
  getDescriptorDeep (heap σ) (target m) prop = Some (Accessor (Some g) c) →
  read n p prop σ = get_trap (exec n) p prop (VProxy p) σ.
Proof. intros Hm Hd. by apply (proxy_get_getter (exec n) (exec_steps n) _ _ _ _ m g c). Qed.

(** [runComputed] on a registered key, by the outcome of [entry.run()]. *)
Lemma runComputed_eq ev k entry σ :
  computedRegistry σ !! k = Some entry →
  runComputed ev k σ
  = match ev (run entry) (run_start k σ) with
    | (Normal val, σc) =>
        (Normal val,
         set_currentTracker None
           (set_computedRegistry
              (alter (λ e, {| run := run e; last := val; lastRun := now σc |})
                     k (computedRegistry σc)) σc))
    | (Throws e, σc) => (Throws e, set_currentTracker None σc)
    | (Timeout, σc) => (Timeout, σc)
    end.
Proof.
  intros Hentry. unfold runComputed.
  rewrite gets_bind, Hentry, !modify_bind. unfold finally, log.
  rewrite modify_bind. unfold mbind at 1, M_bind at 1.
  change (set_trace _ _) with (run_start k σ).
  by destruct (ev (run entry) (run_start k σ)) as [[val|e|] σc].
Qed.

(** ** C4: a scope reads a computed *)

(** C4, as amended.  When the active scope (a component or a computed)
    reads a computed property that is already registered, the [get] trap
    returns [entry.last] without evaluating anything, and the scope's
    dependency set gains the computed's DepKey and nothing else: no raw
    path of the computed is copied, and no other dependency set changes. *)
Theorem scope_read_records_computed_key_only n σ p prop m g c entry t :
  proxies σ !! p = Some m →
  prop ≠ "__raw" → prop ≠ "__isProxy" →
  getDescriptorDeep (heap σ) (target m) prop = Some (Accessor (Some g) c) →
  computedRegistry σ !! computedKeyForPath (keyOf (base m ++ [prop])) = Some entry →
  currentTracker σ = Some t →
  ∃ σ', read n p prop σ = (Normal (last entry), σ')
        ∧ deps_of σ' (tracker_id t)
          = deps_of σ (tracker_id t)
            ∪ {[computedKeyForPath (keyOf (base m ++ [prop]))]}
        ∧ (∀ c', c' ≠ tracker_id t → deps_of σ' c' = deps_of σ c')
        ∧ new_events σ σ' = [].
Proof.
  intros Hm Hraw Hisp Hdesc Hentry Ht. rewrite (read_getter _ _ _ _ _ _ _ Hm Hdesc).
  rewrite (get_trap_registered _ _ _ _ _ _ _ _ _ Hm Hraw Hisp Hdesc Hentry), Ht.
  eexists. split; [reflexivity|]. repeat split.
  - unfold deps_of. simpl. by rewrite Map_get_graph_add_eq.
  - intros c' Hc'. unfold deps_of. simpl.
    by rewrite Map_get_graph_add_ne.
  - apply new_events_app. simpl. by rewrite app_nil_r.
Qed.

Lemma scope_read_records_computed_key_only_witness :
  ∃ σ', read 5 0 "double" (set_currentTracker (Some (TComponent 7)) cart_double)
        = (Normal (VRaw (RNumber 2)), σ')
        ∧ deps_of σ' (CompSym 7)
          = deps_of (set_currentTracker (Some (TComponent 7)) cart_double) (CompSym 7)
            ∪ {["__computed__:double"]}
        ∧ (∀ c', c' ≠ CompSym 7 →
             deps_of σ' c'
             = deps_of (set_currentTracker (Some (TComponent 7)) cart_double) c')
        ∧ new_events (set_currentTracker (Some (TComponent 7)) cart_double) σ' = [].
Proof.
  apply (scope_read_records_computed_key_only 5
           (set_currentTracker (Some (TComponent 7)) cart_double) 0 "double"
           {| target := 0; store := 0; base := []; rootRef := 0 |}
           double_body true
           {| run := double_body (VProxy 0); last := VRaw (RNumber 2); lastRun := 0 |}
           (TComponent 7)).
  - vm_compute. reflexivity.
  - discriminate.
  - discriminate.
  - vm_compute. reflexivity.
  - vm_compute. reflexivity.
  - reflexivity.
Defined.

(** C4, as stated, fails: component [7] reads the registered computed
    [double], which depends on the raw path [n]; its dependency set
    receives the computed key but not [n]. *)
Lemma component_does_not_receive_raw_deps :
  "__computed__:double"
    ∈ deps_of (after (tracked 5 7 only_double) cart_double) (CompSym 7)
  ∧ "n" ∈ deps_of (after (tracked 5 7 only_double) cart_double)
            (CompKey "__computed__:double")
  ∧ "n" ∉ deps_of (after (tracked 5 7 only_double) cart_double) (CompSym 7).
Proof.
  repeat split; refine (bool_decide_unpack _ _); vm_compute; exact I.
Qed.

(** ** C9: one wrapper per object *)

Lemma makeProxy_cached a s b r q σ :
  proxyCache σ !! a = Some q → makeProxy a s b r σ = (Normal (VProxy q), σ).
Proof. intros H. unfold makeProxy. by rewrite gets_bind, H. Qed.

Lemma makeProxy_caches a s b r σ :
  ∃ q, (makeProxy a s b r σ).1 = Normal (VProxy q)
       ∧ proxyCache (after (makeProxy a s b r) σ) !! a = Some q
       ∧ (ids_fresh σ → ∀ p m, proxies σ !! p = Some m →
            proxies (after (makeProxy a s b r) σ) !! p = Some m)
       ∧ heap (after (makeProxy a s b r) σ) = heap σ.
Proof.
  unfold after, makeProxy. rewrite gets_bind.
  destruct (proxyCache σ !! a) as [q|] eqn:Hc.
  - exists q. done.
  - exists (nextId σ). simpl. repeat split.
    + by rewrite lookup_insert_eq.
    + intros Hf p m Hp. rewrite lookup_insert_ne; [done|].
      intros <-. specialize (Hf _ m Hp). simpl in Hf. lia.
Qed.

Lemma proxy_eq initial σ :
  proxy initial σ
  = makeProxy initial (length (stores σ)) [] initial (after (createStore initial) σ).
Proof. reflexivity. Qed.

(** C9, as amended.  Wrapping is idempotent by identity.  Calling [proxy]
    a second time on the same raw object returns the wrapper the first call
    returned and makes no new wrapper.  Reading the same nested object or
    array location twice returns the same cached wrapper both times, the
    second read leaving the state as it is, unless the location is an own
    property of its parent that is neither writable nor configurable: the
    wrapper is made and cached all the same, but the host refuses it as the
    result of the read, and each read throws a [TypeError]. *)
Theorem wrapping_is_idempotent_by_identity :
  (∀ initial σ,
     ∃ w, (proxy initial σ).1 = Normal (VProxy w)
          ∧ (proxy initial (after (proxy initial) σ)).1 = Normal (VProxy w)
          ∧ proxies (after (proxy initial) (after (proxy initial) σ))
            = proxies (after (proxy initial) σ))
  ∧ (∀ n n' σ p prop m a w c,
       proxies σ !! p = Some m →
       prop ≠ "__raw" → prop ≠ "__isProxy" →
       getDescriptorDeep (heap σ) (target m) prop = Some (Data (RObject a) w c) →
       isRef σ (VRaw (RObject a)) = false →
       ids_fresh σ →
       ∃ q σ1,
         proxyCache σ1 !! a = Some q
         ∧ read n p prop σ
           = (if pinned (hasOwnDescriptor (heap σ) (target m) prop)
              then Throws TypeError else Normal (VProxy q), σ1)
         ∧ read n' p prop σ1
           = (if pinned (hasOwnDescriptor (heap σ) (target m) prop)
              then Throws TypeError else Normal (VProxy q), σ1)).
Proof.
  split.
  - intros initial σ.
    destruct (makeProxy_caches initial (length (stores σ)) [] initial
                (after (createStore initial) σ)) as (w & Hw & Hcache & _).
    exists w. unfold after in *. rewrite !proxy_eq. unfold after.
    split; [done|].
    set (σ1 := (makeProxy _ _ _ _ (createStore initial σ).2).2) in *.
    assert (proxyCache (createStore initial σ1).2 !! initial = Some w)
      as Hb by done.
    rewrite (makeProxy_cached _ _ _ _ _ _ Hb). done.
  - intros n n' σ p prop m a w c Hm Hraw Hisp Hdesc Href Hfresh.
    assert (∀ k σ', proxies σ' !! p = Some m → heap σ' = heap σ →
              get_trap (exec k) p prop (VProxy p) σ'
              = makeProxy a (store m) (base m ++ [prop]) (rootRef m) σ') as Htrap.
    { intros k σ' Hm' Hh. unfold get_trap.
      rewrite gets_bind, Hm', !bool_decide_false by done.
      rewrite gets_bind, Hh, Hdesc.
      unfold Reflect_get. rewrite bind_assoc, gets_bind, Hh, Hdesc, mret_bind.
      rewrite gets_bind.
      assert (isRef σ' (VRaw (RObject a)) = false) as ->.
      { simpl in *. by rewrite Hh. }
      reflexivity. }
    assert (∀ k σ' q σ1,
              proxies σ' !! p = Some m → heap σ' = heap σ →
              makeProxy a (store m) (base m ++ [prop]) (rootRef m) σ'
              = (Normal (VProxy q), σ1) →
              heap σ1 = heap σ →
              read k p prop σ'
              = (if pinned (hasOwnDescriptor (heap σ) (target m) prop)
                 then Throws TypeError else Normal (VProxy q), σ1)) as Hread.
    { intros k σ' q σ1 Hm' Hh Hmk Hh1. unfold read.
      rewrite proxy_get_eq, Htrap, Hmk, Hm' by done. simpl.
      rewrite Hh1, get_invariant_wrapper. by destruct (pinned _). }
    destruct (makeProxy_caches a (store m) (base m ++ [prop]) (rootRef m) σ)
      as (q & Hq & Hcache & Hkeep & Hheap).
    exists q, (after (makeProxy a (store m) (base m ++ [prop]) (rootRef m)) σ).
    split; [done|]. split.
    + apply Hread; [done | done | | done]. unfold after.
      destruct (makeProxy _ _ _ _ σ); simpl in *. by subst.
    + apply Hread; [by apply Hkeep | done | by apply makeProxy_cached | done].
Qed.

Lemma wrapping_is_idempotent_by_identity_witness :
  ∃ q σ1,
    proxyCache σ1 !! 1 = Some q
    ∧ read 5 0 "items" cart
      = (if pinned (hasOwnDescriptor (heap cart) 0 "items")
         then Throws TypeError else Normal (VProxy q), σ1)
    ∧ read 5 0 "items" σ1
      = (if pinned (hasOwnDescriptor (heap cart) 0 "items")
         then Throws TypeError else Normal (VProxy q), σ1).
Proof.
  apply (proj2 wrapping_is_idempotent_by_identity 5 5 cart 0 "items"
           {| target := 0; store := 0; base := []; rootRef := 0 |} 1 true true).
  - vm_compute. reflexivity.
  - discriminate.
  - discriminate.
  - vm_compute. reflexivity.
  - vm_compute. reflexivity.
  - refine (bool_decide_unpack _ _). vm_compute. exact I.
Defined.

(** C9, as stated, fails: the property [cfg] of a frozen root holds an
    object; reading it through the wrapper throws, the first time and
    every time after, although the wrapper of the object is in the
    cache. *)
Lemma frozen_nested_object_read_throws :
  hasOwnDescriptor (heap sealed) 0 "cfg" = Some (Data (RObject 1) false false)
  ∧ (read 5 0 "cfg" sealed).1 = Throws TypeError
  ∧ proxyCache (after (read 5 0 "cfg") sealed) !! 1 = Some 1
  ∧ (read 5 0 "cfg" (after (read 5 0 "cfg") sealed)).1 = Throws TypeError.
Proof. split_and!; vm_compute; reflexivity. Qed.

(** ** C8: reading a computed twice *)

(** [ensureComputed] returns at once for a registered key; for a new key
    it registers the runner and returns after one run of it. *)
Lemma ensureComputed_cases n absPath runner σ k σa :
  ensureComputed (exec n) absPath runner σ = (Normal k, σa) →
  k = computedKeyForPath absPath
  ∧ ((registered σ k ∧ σa = σ)
     ∨ (computedRegistry σ !! k = None
        ∧ ∃ v σc,
            exec n runner (run_start k (registered_with k runner σ)) = (Normal v, σc)
            ∧ computedRegistry σa !! k
              = Some {| run := runner; last := v; lastRun := now σc |}
            ∧ currentTracker σa = None
            ∧ EvRun k ∈ new_events σ σa)).
Proof.
  unfold ensureComputed. rewrite gets_bind. intros H.
  apply bind_Normal in H as (u & σ1 & H1 & H). injection H as <- <-.
  split; [done|]. case_bool_decide as Hreg.
  { left. by injection H1 as _ <-. }
  right. rewrite modify_bind in H1.
  assert (computedRegistry σ !! computedKeyForPath absPath = None) as Hnone.
  { destruct (computedRegistry σ !! _) eqn:E; [|done]. exfalso. apply Hreg. by eexists. }
  split; [done|].
  set (key := computedKeyForPath absPath) in *.
  change (set_computedRegistry _ σ) with (registered_with key runner σ) in H1.
  set (entry0 := {| run := runner; last := VRaw RUndefined; lastRun := 0 |}).
  assert (computedRegistry (registered_with key runner σ) !! key = Some entry0)
    as Hentry0.
  { unfold registered_with. simpl. by rewrite lookup_insert_eq. }
  rewrite (runComputed_eq _ _ _ _ Hentry0) in H1. simpl in H1.
  pose proof (exec_steps n runner (run_start key (registered_with key runner σ)))
    as Hs.
  destruct (exec n runner (run_start key (registered_with key runner σ)))
    as [[val|e|] σc] eqn:Hev; [|done..].
  injection H1 as <- <-. simpl in Hs.
  exists val, σc. split; [done|]. split; [|split; [done|]].
  - simpl. rewrite lookup_alter_eq.
    by rewrite (steps_entry _ _ _ Hs key entry0) by done.
  - destruct (steps_trace _ _ _ Hs) as [ks Hks]. simpl in Hks.
    rewrite (new_events_app σ _ (EvRun key :: map EvRun ks)).
    + apply elem_of_cons. by left.
    + simpl. rewrite Hks, <- app_assoc. done.
Qed.

Lemma ensureComputed_inv n absPath runner σ k σ' :
  ensureComputed (exec n) absPath runner σ = (Normal k, σ') →
  k = computedKeyForPath absPath ∧ registered σ' k ∧ steps None σ σ'.
Proof.
  intros H.
  assert (steps None σ σ') as Hsteps.
  { pose proof (ensureComputed_steps (exec n) (exec_steps n) absPath runner σ) as Hs.
    by rewrite H in Hs. }
  apply ensureComputed_cases in H as [-> [[Hreg ->]|(_ & v & σc & _ & He & _)]].
  - done.
  - split; [done|]. split; [by eexists | done].
Qed.

(** What a read of a computed property returns, and in which state. *)
Lemma read_computed_inv n σ p prop m g c r1 σ1 :
  proxies σ !! p = Some m →
  prop ≠ "__raw" → prop ≠ "__isProxy" →
  getDescriptorDeep (heap σ) (target m) prop = Some (Accessor (Some g) c) →
  read n p prop σ = (Normal r1, σ1) →
  ∃ σa entry,
    ensureComputed (exec n) (keyOf (base m ++ [prop])) (g (VProxy p)) σ
    = (Normal (computedKeyForPath (keyOf (base m ++ [prop]))), σa)
    ∧ steps None σ σa
    ∧ computedRegistry σa !! computedKeyForPath (keyOf (base m ++ [prop])) = Some entry
    ∧ ((∃ t, currentTracker σa = Some t ∧ r1 = last entry
             ∧ σ1 = set_dependencyGraph
                      (graph_add (tracker_id t)
                         (computedKeyForPath (keyOf (base m ++ [prop])))
                         (dependencyGraph σa)) σa)
       ∨ (currentTracker σa = None
          ∧ r1 = VLive (nextId σa)
                   (ComputedPath (computedKeyForPath (keyOf (base m ++ [prop]))))
          ∧ σ1 = set_nextId (S (nextId σa)) σa)).
Proof.
  intros Hm Hraw Hisp Hdesc H. rewrite (read_getter _ _ _ _ _ _ _ Hm Hdesc) in H.
  unfold get_trap in H.
  rewrite gets_bind, Hm, !bool_decide_false in H by done.
  rewrite gets_bind, Hdesc in H.
  apply bind_Normal in H as (k & σa & Hens & H).
  pose proof Hens as Hens'.
  apply ensureComputed_inv in Hens as (-> & [entry Hentry] & Hsteps).
  exists σa, entry. split; [done|]. split; [done|]. split; [done|].
  rewrite gets_bind in H. destruct (currentTracker σa) as [t|] eqn:Ht.
  - left. exists t. split; [done|].
    unfold mbind at 1, M_bind at 1 in H. rewrite depsAdd_eq in H.
    rewrite gets_bind in H. simpl in H. rewrite Hentry in H.
    by injection H as <- <-.
  - right. split; [done|]. by injection H as <- <-.
Qed.




(** ** C6: an evaluation function that throws *)

(** C6, as amended.  If a computed's evaluation function throws, the
    exception propagates to the caller of [runComputed], and from there to
    the read that registered the computed.  The entry stays in the
    registry with the memoized value and the timestamp it had, but the
    failed run does change the module state: the dependency set of the
    computed was emptied before the run and now holds what the run
    recorded before it threw.  Nothing marks the entry for a retry: a
    later read of the property does not call the evaluation function
    again, it hands out the previous memoized value. *)
Theorem failed_evaluation_keeps_entry_and_is_not_retried n e :
  (∀ σ depKey entry σc,
     computedRegistry σ !! depKey = Some entry →
     exec n (run entry) (run_start depKey σ) = (Throws e, σc) →
     ∃ σ',
       runComputed (exec n) depKey σ = (Throws e, σ')
       ∧ computedRegistry σ' !! depKey = Some entry
       ∧ deps_of (run_start depKey σ) (CompKey depKey) = ∅
       ∧ dependencyGraph σ' = dependencyGraph σc
       ∧ ∀ n' p prop m g c,
           proxies σ' !! p = Some m →
           prop ≠ "__raw" → prop ≠ "__isProxy" →
           getDescriptorDeep (heap σ') (target m) prop
           = Some (Accessor (Some g) c) →
           computedKeyForPath (keyOf (base m ++ [prop])) = depKey →
           ∃ r σ'', read n' p prop σ' = (Normal r, σ'')
                    ∧ new_events σ' σ'' = []
                    ∧ (resolve (exec n') r σ'').1 = Normal (last entry))
  ∧ (∀ σ p prop m g c σc,
       proxies σ !! p = Some m →
       prop ≠ "__raw" → prop ≠ "__isProxy" →
       getDescriptorDeep (heap σ) (target m) prop = Some (Accessor (Some g) c) →
       computedRegistry σ !! computedKeyForPath (keyOf (base m ++ [prop])) = None →
       exec n (g (VProxy p))
         (run_start (computedKeyForPath (keyOf (base m ++ [prop])))
            (registered_with (computedKeyForPath (keyOf (base m ++ [prop])))
               (g (VProxy p)) σ))
       = (Throws e, σc) →
       ∃ σ',
         read n p prop σ = (Throws e, σ')
         ∧ computedRegistry σ' !! computedKeyForPath (keyOf (base m ++ [prop]))
           = Some {| run := g (VProxy p); last := VRaw RUndefined; lastRun := 0 |}).
Proof.
  split.
  - intros σ depKey entry σc Hentry Hev.
    exists (set_currentTracker None σc).
    rewrite (runComputed_eq _ _ _ _ Hentry), Hev.
    pose proof (exec_steps n (run entry) (run_start depKey σ)) as Hs.
    rewrite Hev in Hs. simpl in Hs.
    assert (computedRegistry σc !! depKey = Some entry) as Hentry'.
    { by apply (steps_entry _ _ _ Hs). }
    split; [done|]. split; [done|]. split.
    { unfold deps_of, run_start. simpl. by rewrite Map_get_set_eq. }
    split; [done|].
    intros n' p prop m g c Hm Hraw Hisp Hdesc <-.
    pose proof (get_trap_registered (exec n') p prop (VProxy p) _ m g c entry
                  Hm Hraw Hisp Hdesc Hentry') as H2.
    rewrite <- (read_getter _ _ _ _ _ _ _ Hm Hdesc) in H2.
    simpl in H2. eexists _, _. split; [exact H2|]. split.
    { apply new_events_app. simpl. by rewrite app_nil_r. }
    simpl. by rewrite Hentry'.
  - intros σ p prop m g c σc Hm Hraw Hisp Hdesc Hnone Hev.
    set (key := computedKeyForPath (keyOf (base m ++ [prop]))) in *.
    set (entry0 := {| run := g (VProxy p); last := VRaw RUndefined; lastRun := 0 |}).
    exists (set_currentTracker None σc).
    pose proof (exec_steps n (g (VProxy p))
                  (run_start key (registered_with key (g (VProxy p)) σ))) as Hs.
    rewrite Hev in Hs. simpl in Hs.
    assert (computedRegistry (registered_with key (g (VProxy p)) σ) !! key
            = Some entry0) as Hentry0.
    { unfold registered_with. simpl. by rewrite lookup_insert_eq. }
    split.
    + rewrite (read_getter _ _ _ _ _ _ _ Hm Hdesc). unfold get_trap.
      rewrite gets_bind, Hm, !bool_decide_false by done.
      rewrite gets_bind, Hdesc. unfold ensureComputed.
      rewrite !bind_assoc, gets_bind. fold key.
      rewrite bool_decide_false by (rewrite Hnone; by intros [? ?]).
      rewrite !bind_assoc, modify_bind.
      change (set_computedRegistry _ σ) with (registered_with key (g (VProxy p)) σ).
      unfold mbind at 1, M_bind at 1.
      rewrite (runComputed_eq _ _ _ _ Hentry0).
      change (run entry0) with (g (VProxy p)). by rewrite Hev.
    + simpl. by apply (steps_entry _ _ _ Hs).
Qed.

Lemma failed_evaluation_keeps_entry_and_is_not_retried_witness :
  (∃ σ',
     runComputed (exec 5) "__computed__:bad" cart_bad
     = (Throws (VRaw (RString "boom")), σ')
     ∧ computedRegistry σ' !! "__computed__:bad"
       = Some {| run := Throw (VRaw (RString "boom")); last := VRaw RUndefined;
                 lastRun := 0 |}
     ∧ deps_of (run_start "__computed__:bad" cart_bad) (CompKey "__computed__:bad")
       = ∅
     ∧ dependencyGraph σ'
       = dependencyGraph
           (after (exec 5 (Throw (VRaw (RString "boom"))))
              (run_start "__computed__:bad" cart_bad))
     ∧ ∀ n' p prop m g c,
         proxies σ' !! p = Some m →
         prop ≠ "__raw" → prop ≠ "__isProxy" →
         getDescriptorDeep (heap σ') (target m) prop = Some (Accessor (Some g) c) →
         computedKeyForPath (keyOf (base m ++ [prop])) = "__computed__:bad" →
         ∃ r σ'', read n' p prop σ' = (Normal r, σ'')
                  ∧ new_events σ' σ'' = []
                  ∧ (resolve (exec n') r σ'').1 = Normal (VRaw RUndefined))
  ∧ ∃ σ',
      read 5 0 "bad" cart = (Throws (VRaw (RString "boom")), σ')
      ∧ computedRegistry σ' !! computedKeyForPath (keyOf ([] ++ ["bad"]))
        = Some {| run := bad_body (VProxy 0); last := VRaw RUndefined;
                  lastRun := 0 |}.
Proof.
  split.
  - apply (proj1 (failed_evaluation_keeps_entry_and_is_not_retried 5
                    (VRaw (RString "boom")))
             cart_bad "__computed__:bad"
             {| run := Throw (VRaw (RString "boom")); last := VRaw RUndefined;
                lastRun := 0 |}
             (after (exec 5 (Throw (VRaw (RString "boom"))))
                (run_start "__computed__:bad" cart_bad))).
    + vm_compute. reflexivity.
    + vm_compute. reflexivity.
  - apply (proj2 (failed_evaluation_keeps_entry_and_is_not_retried 5
                    (VRaw (RString "boom")))
             cart 0 "bad"
             {| target := 0; store := 0; base := []; rootRef := 0 |}
             bad_body true
             (after (exec 5 (bad_body (VProxy 0)))
                (run_start (computedKeyForPath (keyOf ([] ++ ["bad"])))
                   (registered_with (computedKeyForPath (keyOf ([] ++ ["bad"])))
                      (bad_body (VProxy 0)) cart)))).
    + vm_compute. reflexivity.
    + discriminate.
    + discriminate.
    + vm_compute. reflexivity.
    + vm_compute. reflexivity.
    + vm_compute. reflexivity.
Defined.

(** C6, as stated, fails: the first read of [bad] throws, and the next read
    does not run the evaluation function again. *)
Lemma failed_evaluation_is_not_retried_on_next_read :
  ¬ retries_after_failure 5 cart 0 "bad" "__computed__:bad".
Proof.
  intros H.
  specialize (H (VRaw (RString "boom")) (after (read 5 0 "bad") cart)).
  assert (read 5 0 "bad" cart
          = (Throws (VRaw (RString "boom")), after (read 5 0 "bad") cart)) as H1.
  { vm_compute. reflexivity. }
  specialize (H H1). revert H. refine (bool_decide_unpack _ _). vm_compute. exact I.
Qed.

(** ** The write pass *)

Lemma pass_steps_refl σ : pass_steps σ σ.
Proof.
  constructor; try done.
  exists []. by rewrite app_nil_r.
Qed.

Lemma pass_steps_trans σ1 σ2 σ3 :
  pass_steps σ1 σ2 → pass_steps σ2 σ3 → pass_steps σ1 σ3.
Proof.
  intros [h1 s1 [ks1 t1] r1 c1] [h2 s2 [ks2 t2] r2 c2].
  constructor.
  - congruence.
  - congruence.
  - exists (ks1 ++ ks2). rewrite t2, t1, map_app, app_assoc. done.
  - eauto.
  - intros id j x. etrans; [apply c2 | apply c1].
Qed.

Lemma pass_steps_bind {A B} (m : M A) (k : A → M B) σ :
  pass_steps σ (m σ).2 →
  (∀ a σ1, m σ = (Normal a, σ1) → pass_steps σ1 (k a σ1).2) →
  pass_steps σ ((m ≫= k) σ).2.
Proof.
  unfold mbind, M_bind. destruct (m σ) as [[a|e|] σ1]; simpl; intros H1 H2;
    [eapply pass_steps_trans; eauto | done | done].
Qed.

Lemma set_trace_same σ : set_trace (trace σ ++ []) σ = σ.
Proof. destruct σ. unfold set_trace. simpl. by rewrite app_nil_r. Qed.

Lemma pingTracker_eq s changedRaw cc entry σ :
  pingTracker s changedRaw cc entry σ
  = (match stops_loop (stores σ) s changedRaw cc entry with
     | Some e => Throws e
     | None => Normal tt
     end,
     set_trace (trace σ ++ ping_of (stores σ) s changedRaw cc entry) σ).
Proof.
  unfold pingTracker, ping_of, stops_loop, listener_of. destruct entry.1.
  - by rewrite set_trace_same.
  - destruct (shouldPing _ _ _); [|by rewrite set_trace_same].
    rewrite gets_bind.
    destruct (stores σ !! s ≫= _) as [cb|]; [|by rewrite set_trace_same].
    unfold log. rewrite modify_bind. unfold call_listener. simpl.
    by destruct (raises cb).
Qed.

(** The subscriber loop: it calls listeners in the order of the graph and
    stops at the first one that throws. *)
Lemma ping_loop_eq s changedRaw cc graph σ :
  ∃ r, mapM (pingTracker s changedRaw cc) graph σ
       = (r, set_trace
               (trace σ ++ (ping_loop (stores σ) s changedRaw cc graph).1) σ)
       ∧ match (ping_loop (stores σ) s changedRaw cc graph).2 with
         | Some e => r = Throws e
         | None => ∃ us, r = Normal us
         end.
Proof.
  revert σ. induction graph as [|entry graph IH]; intros σ; simpl.
  - eexists. split; [by rewrite set_trace_same | by eexists].
  - unfold mbind at 1, M_bind at 1. rewrite pingTracker_eq.
    destruct (stops_loop (stores σ) s changedRaw cc entry) as [e|]; simpl.
    { by eexists. }
    destruct (IH (set_trace (trace σ ++ ping_of (stores σ) s changedRaw cc entry) σ))
      as (r & Hr & Hcase).
    simpl in Hr, Hcase. unfold mbind at 1, M_bind at 1. rewrite Hr.
    rewrite <- app_assoc.
    destruct (ping_loop (stores σ) s changedRaw cc graph).2 as [e|].
    + subst r. by eexists.
    + destruct Hcase as [us ->]. eexists. split; [reflexivity | by eexists].
Qed.

Lemma ping_loop_prefix sts s changedRaw cc g :
  (ping_loop sts s changedRaw cc g).1
  `prefix_of` flat_map (ping_of sts s changedRaw cc) g.
Proof.
  induction g as [|entry g IH]; simpl; [done|].
  destruct (stops_loop _ _ _ _ entry); simpl.
  - by apply prefix_app_r.
  - by apply prefix_app.
Qed.

Lemma ping_of_pings sts s changedRaw cc entry :
  Forall (λ e, ∃ s' id cb, e = EvPing s' id cb) (ping_of sts s changedRaw cc entry).
Proof.
  unfold ping_of. destruct entry.1; [done|].
  destruct (shouldPing _ _ _); [|done].
  destruct (listener_of sts s s0); [|done].
  constructor; [by eauto | done].
Qed.

Lemma ping_loop_pings sts s changedRaw cc g :
  Forall (λ e, ∃ s' id cb, e = EvPing s' id cb) (ping_loop sts s changedRaw cc g).1.
Proof.
  destruct (ping_loop_prefix sts s changedRaw cc g) as [rest Hrest].
  assert (Forall (λ e, ∃ s' id cb, e = EvPing s' id cb)
            (flat_map (ping_of sts s changedRaw cc) g)) as H.
  { apply Forall_flat_map, Forall_forall. intros entry _. apply ping_of_pings. }
  rewrite Hrest in H. by apply Forall_app in H as [? _].
Qed.

(** A listener is called when its entry asks for it and no entry before it
    called a listener that threw. *)
Lemma elem_of_ping_loop sts s changedRaw cc g ev :
  ev ∈ (ping_loop sts s changedRaw cc g).1
  ↔ ∃ j entry, g !! j = Some entry
               ∧ ev ∈ ping_of sts s changedRaw cc entry
               ∧ ∀ i x, i < j → g !! i = Some x →
                   stops_loop sts s changedRaw cc x = None.
Proof.
  induction g as [|entry g IH]; simpl.
  { split; [by intros ?%elem_of_nil | by intros (j & ? & ? & _)]. }
  destruct (stops_loop sts s changedRaw cc entry) as [e|] eqn:Hstop; simpl.
  - split.
    + intros Hin. exists 0, entry. split; [done|]. split; [done|]. intros; lia.
    + intros (j & x & Hj & Hin & Hbefore). destruct j as [|j].
      * by injection Hj as ->.
      * specialize (Hbefore 0 entry). rewrite Hstop in Hbefore.
        by discriminate Hbefore; [lia|].
  - rewrite elem_of_app, IH. split.
    + intros [Hin|(j & x & Hj & Hin & Hbefore)].
      * exists 0, entry. split; [done|]. split; [done|]. intros; lia.
      * exists (S j), x. split; [done|]. split; [done|].
        intros [|i] y Hi Hy; [by injection Hy as <-|].
        apply (Hbefore i y); [lia | done].
    + intros (j & x & Hj & Hin & Hbefore). destruct j as [|j].
      * left. by injection Hj as ->.
      * right. exists j, x. split; [done|]. split; [done|].
        intros i y Hi Hy. apply (Hbefore (S i) y); [lia | done].
Qed.

Section WritePass.

Variable ev : expr → M value.
Hypothesis ev_steps : ∀ e σ, steps None σ (ev e σ).2.

Lemma runComputed_pass k σ : pass_steps σ (runComputed ev k σ).2.
Proof.
  pose proof (runComputed_steps ev ev_steps k σ) as [h s t e r c p f].
  constructor; try done.
  intros id. by apply runComputed_frame.
Qed.

Lemma visitTracker_pass changed tracker deps w σ :
  pass_steps σ (visitTracker ev changed tracker deps w σ).2.
Proof.
  unfold visitTracker. destruct tracker as [k|id]; [|apply pass_steps_refl].
  destruct (negb _); [apply pass_steps_refl|].
  rewrite gets_bind. destruct (computedRegistry σ !! k); [|apply pass_steps_refl].
  apply pass_steps_bind; [apply runComputed_pass|]. intros _ σ1 _.
  rewrite gets_bind. destruct (_ && _); apply pass_steps_refl.
Qed.

Lemma scanTrackers_pass n i changed w σ :
  pass_steps σ (scanTrackers ev n i changed w σ).2.
Proof.
  revert i w σ. induction n as [|n IH]; intros i w σ; simpl.
  - apply pass_steps_refl.
  - rewrite gets_bind. destruct (dependencyGraph σ !! i) as [[tracker deps]|];
      [|apply pass_steps_refl].
    apply pass_steps_bind; [apply visitTracker_pass | intros; apply IH].
Qed.

Lemma drainQueue_S n w :
  drainQueue ev (S n) w
  = match queue w with
    | [] => mret (changedComputed w)
    | changed :: rest =>
        w' ← scanTrackers ev (S n) 0 changed
               {| queue := rest; seen := seen w;
                  changedComputed := changedComputed w |};
        drainQueue ev n w'
    end.
Proof. reflexivity. Qed.

Lemma scanTrackers_S n i changed w :
  scanTrackers ev (S n) i changed w
  = (entry ← gets (λ σ, dependencyGraph σ !! i);
     match entry with
     | None => mret w
     | Some (tracker, deps) =>
         w' ← visitTracker ev changed tracker deps w;
         scanTrackers ev n (S i) changed w'
     end).
Proof. reflexivity. Qed.

Lemma drainQueue_pass n w σ : pass_steps σ (drainQueue ev n w σ).2.
Proof.
  revert w σ. induction n as [|n IH]; intros w σ.
  - apply pass_steps_refl.
  - rewrite drainQueue_S. destruct (queue w); [apply pass_steps_refl|].
    apply pass_steps_bind; [apply scanTrackers_pass | intros; apply IH].
Qed.

Lemma recomputeAffectedComputeds_pass n startKeys σ :
  pass_steps σ (recomputeAffectedComputeds ev n startKeys σ).2.
Proof. apply drainQueue_pass. Qed.

(** The pass, step by step: log, recompute, then the subscriber loop. *)
Lemma notifyPathChange_inv n s path σ r σ' :
  notifyPathChange ev n s path σ = (r, σ') →
  ∃ r1 σ1,
    recomputeAffectedComputeds ev n [keyOf path]
      (set_trace (trace σ ++ [EvNotify s path]) σ) = (r1, σ1)
    ∧ match r1 with
      | Normal cc =>
          r = match (ping_loop (stores σ1) s (keyOf path) cc
                       (dependencyGraph σ1)).2 with
              | Some e => Throws e
              | None => Normal tt
              end
          ∧ σ' = set_trace
                   (trace σ1
                    ++ (ping_loop (stores σ1) s (keyOf path) cc
                          (dependencyGraph σ1)).1) σ1
      | Throws e => r = Throws e ∧ σ' = σ1
      | Timeout => r = Timeout ∧ σ' = σ1
      end.
Proof.
  unfold notifyPathChange, log. rewrite modify_bind.
  set (σ0 := set_trace _ σ).
  unfold mbind at 1, M_bind at 1.
  destruct (recomputeAffectedComputeds ev n [keyOf path] σ0) as [[cc|e|] σ1];
    intros H; eexists _, _; (split; [reflexivity|]).
  - rewrite gets_bind in H.
    destruct (ping_loop_eq s (keyOf path) cc (dependencyGraph σ1) σ1)
      as (r' & Hr' & Hcase).
    unfold mbind at 1, M_bind at 1 in H. rewrite Hr' in H.
    destruct (ping_loop _ _ _ _ _).2 as [e|].
    + subst r'. by injection H as <- <-.
    + destruct Hcase as [us ->]. by injection H as <- <-.
  - by injection H as <- <-.
  - by injection H as <- <-.
Qed.

(** A pass logs its start, re-runs computeds, then calls listeners. *)
Lemma notifyPathChange_trace n s path σ :
  ∃ ks pings,
    trace (after (notifyPathChange ev n s path) σ)
    = trace σ ++ EvNotify s path :: map EvRun ks ++ pings
    ∧ Forall (λ e, ∃ s' id cb, e = EvPing s' id cb) pings
    ∧ heap (after (notifyPathChange ev n s path) σ) = heap σ.
Proof.
  unfold after.
  destruct (notifyPathChange ev n s path σ) as [r σ'] eqn:H.
  apply notifyPathChange_inv in H as (r1 & σ1 & Hrec & H).
  pose proof (recomputeAffectedComputeds_pass n [keyOf path]
                (set_trace (trace σ ++ [EvNotify s path]) σ))
    as [Hh _ [ks Ht] _ _].
  rewrite Hrec in Hh, Ht. simpl in *.
  destruct r1 as [cc|e|]; destruct H as [_ ->]; simpl.
  - eexists ks, _. split; [|split; [|done]].
    + rewrite Ht. rewrite <- !app_assoc. simpl. reflexivity.
    + apply ping_loop_pings.
  - exists ks, []. split; [|done].
    rewrite Ht. rewrite <- !app_assoc, app_nil_r. done.
  - exists ks, []. split; [|done].
    rewrite Ht. rewrite <- !app_assoc, app_nil_r. done.
Qed.

End WritePass.

(** ** C10 and C7: what a write through the wrapper triggers *)

Lemma one_pass_of_trace σ σ' s path ks pings :
  trace σ' = trace σ ++ EvNotify s path :: map EvRun ks ++ pings →
  Forall (λ e, ∃ s' id cb, e = EvPing s' id cb) pings →
  one_pass σ σ' s path.
Proof.
  intros Ht Hp. exists (map EvRun ks ++ pings). split.
  - by apply new_events_app.
  - intros s' path' [Hin|Hin]%elem_of_app.
    + apply list_elem_of_fmap in Hin as (k & Hk & _). discriminate.
    + rewrite Forall_forall in Hp. destruct (Hp _ Hin) as (? & ? & ? & ?).
      discriminate.
Qed.

Lemma set_trap_pass n σ p prop newVal m ok h' :
  proxies σ !! p = Some m →
  Reflect_set (heap σ) (target m) prop newVal = Done ok h' →
  one_pass σ (after (assign n p prop newVal) σ) (store m) (base m ++ [prop])
  ∧ (∀ b, (assign n p prop newVal σ).1 = Normal b → b = ok).
Proof.
  intros Hm Hset. unfold after, assign, set_trap.
  rewrite gets_bind, Hm, gets_bind, Hset, modify_bind.
  destruct (notifyPathChange_trace (exec n) (exec_steps n) n (store m)
              (base m ++ [prop]) (set_heap h' σ)) as (ks & pings & Ht & Hp & _).
  unfold after in Ht. unfold mbind, M_bind.
  destruct (notifyPathChange _ _ _ _ _) as [[[]|e|] σ']; simpl in *;
    (split; [by eapply one_pass_of_trace | congruence]).
Qed.

Lemma deleteProperty_trap_pass n σ p prop m ok h' :
  proxies σ !! p = Some m →
  Reflect_deleteProperty (heap σ) (target m) prop = Done ok h' →
  one_pass σ (after (deleteProp n p prop) σ) (store m) (base m ++ [prop])
  ∧ (∀ b, (deleteProp n p prop σ).1 = Normal b → b = ok).
Proof.
  intros Hm Hdel. unfold after, deleteProp, deleteProperty_trap.
  rewrite gets_bind, Hm, gets_bind, Hdel, modify_bind.
  destruct (notifyPathChange_trace (exec n) (exec_steps n) n (store m)
              (base m ++ [prop]) (set_heap h' σ)) as (ks & pings & Ht & Hp & _).
  unfold after in Ht. unfold mbind, M_bind.
  destruct (notifyPathChange _ _ _ _ _) as [[[]|e|] σ']; simpl in *;
    (split; [by eapply one_pass_of_trace | congruence]).
Qed.

(** C10, as amended.  Every assignment through a wrapper for which
    [Reflect.set] returns (true or false), and every deletion, starts
    exactly one write-invalidation pass, for the absolute path written,
    whatever the new value is (so also a value equal to the old one) and
    whatever flag the mutation reports; the trap returns that flag.  When
    [Reflect.set] throws, the exception propagates and no pass starts. *)
Theorem write_starts_exactly_one_pass n σ p prop m :
  proxies σ !! p = Some m →
  (∀ newVal ok h',
     Reflect_set (heap σ) (target m) prop newVal = Done ok h' →
     one_pass σ (after (assign n p prop newVal) σ) (store m) (base m ++ [prop])
     ∧ (∀ b, (assign n p prop newVal σ).1 = Normal b → b = ok))
  ∧ (∀ newVal e,
       Reflect_set (heap σ) (target m) prop newVal = Raised e →
       assign n p prop newVal σ = (Throws e, σ))
  ∧ (∀ ok h',
       Reflect_deleteProperty (heap σ) (target m) prop = Done ok h' →
       one_pass σ (after (deleteProp n p prop) σ) (store m) (base m ++ [prop])
       ∧ (∀ b, (deleteProp n p prop σ).1 = Normal b → b = ok)).
Proof.
  intros Hm. split; [|split].
  - intros newVal ok h' Hset. by eapply set_trap_pass.
  - intros newVal e Hset. unfold assign, set_trap.
    by rewrite gets_bind, Hm, gets_bind, Hset.
  - intros ok h' Hdel. by eapply deleteProperty_trap_pass.
Qed.

(** Writing to [n] the value it already holds, and assigning to the
    getter-only [double] (which fails), each start one pass. *)
Lemma write_starts_exactly_one_pass_witness :
  one_pass cart_double (after (assign 5 0 "n" (RNumber 1)) cart_double) 0 ["n"]
  ∧ one_pass cart_double (after (assign 5 0 "double" (RNumber 1)) cart_double)
      0 ["double"]
  ∧ (assign 5 0 "double" (RNumber 1) cart_double).1 = Normal false.
Proof.
  pose proof (write_starts_exactly_one_pass 5 cart_double 0 "n"
                {| target := 0; store := 0; base := []; rootRef := 0 |}) as H1.
  pose proof (write_starts_exactly_one_pass 5 cart_double 0 "double"
                {| target := 0; store := 0; base := []; rootRef := 0 |}) as H2.
  split; [|split].
  - eapply (proj1 (H1 ltac:(vm_compute; reflexivity))).
    vm_compute. reflexivity.
  - eapply (proj1 (H2 ltac:(vm_compute; reflexivity))
              (RNumber 1) false (heap cart_double)).
    vm_compute. reflexivity.
  - vm_compute. reflexivity.
Defined.

(** C10, as stated, fails: assigning [-1] to the [length] of an array makes
    [Reflect.set] throw a [RangeError]; the trap never reaches
    [notifyPathChange], so no pass starts. *)
Lemma throwing_assignment_starts_no_pass :
  (assign 5 1 "length" (RNumber (-1)) cart_length_subscribed).1 = Throws RangeError
  ∧ ¬ one_pass cart_length_subscribed
        (after (assign 5 1 "length" (RNumber (-1))) cart_length_subscribed)
        0 ["items"; "length"].
Proof.
  split; [vm_compute; reflexivity|].
  intros (evs & H & _). vm_compute in H. discriminate.
Qed.




(** ** The test of the subscriber loop *)

Lemma Set_some_spec test (deps : gset string) :
  Set_some test deps = true ↔ ∃ d, d ∈ deps ∧ test d = true.
Proof.
  unfold Set_some. rewrite existsb_exists. split.
  - intros (d & Hin & Ht). exists d. split; [|done].
    by apply elem_of_elements, list_elem_of_In.
  - intros (d & Hin & Ht). exists d. split; [|done].
    by apply list_elem_of_In, elem_of_elements.
Qed.

(** The local [shouldPing], read as a proposition. *)
Lemma shouldPing_spec changedRaw (cc deps : gset string) :
  shouldPing changedRaw cc deps = true
  ↔ (∃ d, d ∈ deps ∧ matches d changedRaw = true) ∨ (∃ d, d ∈ deps ∧ d ∈ cc).
Proof.
  unfold shouldPing. rewrite orb_true_iff, andb_true_iff, !Set_some_spec.
  split.
  - intros [H|[_ (d & Hd & Hc)]]; [by left|].
    right. exists d. split; [done|]. by apply bool_decide_eq_true in Hc.
  - intros [H|(d & Hd & Hc)]; [by left|]. right. split.
    + apply negb_true_iff, bool_decide_eq_false. intros Hsz.
      apply size_empty_inv in Hsz. set_solver.
    + exists d. split; [done|]. by apply bool_decide_eq_true.
Qed.

Lemma elem_of_ping_of sts s changedRaw cc entry s' id cb :
  EvPing s' id cb ∈ ping_of sts s changedRaw cc entry
  ↔ s' = s ∧ entry.1 = CompSym id
    ∧ shouldPing changedRaw cc entry.2 = true
    ∧ ∃ l, listener_of sts s id = Some l ∧ label l = cb.
Proof.
  unfold ping_of. destruct entry as [[k|id'] deps]; simpl.
  - split; [by intros ?%elem_of_nil | by intros (_ & ? & _)].
  - destruct (shouldPing changedRaw cc deps).
    + destruct (listener_of sts s id') as [l'|] eqn:E.
      * rewrite list_elem_of_singleton. split.
        -- intros [= -> -> ->]. rewrite E. split_and!; [done..|]. by exists l'.
        -- intros (-> & [= ->] & _ & l & H & <-). rewrite E in H.
           by injection H as ->.
      * split; [by intros ?%elem_of_nil|].
        intros (_ & [= ->] & _ & l & H & _). by rewrite E in H.
    + split; [by intros ?%elem_of_nil | by intros (_ & _ & ? & _)].
Qed.

Lemma same_entries_elem_of c deps σ σ' :
  same_entries c σ σ' →
  (c, deps) ∈ dependencyGraph σ' ↔ (c, deps) ∈ dependencyGraph σ.
Proof.
  intros H. rewrite !list_elem_of_lookup. split; intros [j Hj]; exists j; by apply H.
Qed.

(** ** C1: the write pass recomputes eagerly *)

Section EagerPass.

Variable ev : expr → M value.
Hypothesis ev_steps : ∀ e σ, steps None σ (ev e σ).2.

(** [runComputed] on a registered key calls [entry.run()]. *)
Lemma runComputed_logs k entry σ :
  computedRegistry σ !! k = Some entry →
  ∃ ks, trace (runComputed ev k σ).2 = trace σ ++ EvRun k :: map EvRun ks.
Proof.
  intros Hentry. unfold runComputed.
  rewrite gets_bind, Hentry, !modify_bind. unfold finally, log.
  rewrite modify_bind.
  set (σb := set_trace _ _).
  pose proof (ev_steps (run entry) σb) as [_ _ [ks Ht] _ _ _ _ _].
  exists ks. unfold mbind at 1, M_bind at 1.
  destruct (ev (run entry) σb) as [[val|e|] σc]; simpl in *;
    rewrite Ht; unfold σb; simpl; by rewrite <- app_assoc.
Qed.

Lemma visitTracker_inv changed tracker deps w σ w' σa :
  visitTracker ev changed tracker deps w σ = (Normal w', σa) →
  σa = σ
  ∨ ∃ t v, tracker = CompKey t
           ∧ Set_some (λ d, matches d changed) deps = true
           ∧ registered σ t
           ∧ runComputed ev t σ = (Normal v, σa).
Proof.
  unfold visitTracker. destruct tracker as [t|id].
  2:{ intros [= _ <-]. by left. }
  destruct (Set_some _ deps) eqn:Hm; simpl.
  2:{ intros [= _ <-]. by left. }
  rewrite gets_bind. destruct (computedRegistry σ !! t) as [entry|] eqn:He.
  2:{ intros [= _ <-]. by left. }
  intros H. apply bind_Normal in H as (v & σ1 & Hrun & H).
  rewrite gets_bind in H. right. exists t, v.
  assert (σa = σ1) as ->.
  { destruct (_ && _); by injection H as _ <-. }
  repeat split; [by eexists | done].
Qed.

(** The scan reaches every entry at or after its position, and an entry of
    a registered computed that matches the changed key is re-run. *)
Lemma scanTrackers_runs n i changed w σ r σ' C deps j :
  scanTrackers ev n i changed w σ = (Normal r, σ') →
  dependencyGraph σ !! j = Some (CompKey C, deps) →
  i ≤ j →
  Set_some (λ d, matches d changed) deps = true →
  registered σ C →
  ∃ evs, trace σ' = trace σ ++ evs ∧ EvRun C ∈ evs.
Proof.
  revert i w σ. induction n as [|n IH]; intros i w σ H Hj Hij Hmatch Hreg.
  { discriminate. }
  rewrite scanTrackers_S, gets_bind in H.
  destruct (dependencyGraph σ !! i) as [[tracker deps_i]|] eqn:Hi.
  2:{ apply lookup_ge_None in Hi. apply lookup_lt_Some in Hj. lia. }
  apply bind_Normal in H as (w' & σa & Hvisit & Hscan).
  pose proof (scanTrackers_pass ev ev_steps n (S i) changed w' σa)
    as [_ _ [ks' Ht'] _ _].
  rewrite Hscan in Ht'. simpl in Ht'.
  assert (∀ v, runComputed ev C σ = (Normal v, σa) →
            ∃ evs, trace σ' = trace σ ++ evs ∧ EvRun C ∈ evs) as Hran.
  { intros v Hrun. destruct Hreg as [entry Hentry].
    destruct (runComputed_logs C entry σ Hentry) as [ks Ht].
    rewrite Hrun in Ht. simpl in Ht.
    exists (EvRun C :: map EvRun ks ++ map EvRun ks'). split.
    - rewrite Ht', Ht, <- app_assoc. done.
    - apply elem_of_cons. by left. }
  destruct (decide (i = j)) as [->|Hne].
  - rewrite Hj in Hi. injection Hi as <- <-.
    unfold visitTracker in Hvisit. rewrite Hmatch in Hvisit. simpl in Hvisit.
    rewrite gets_bind in Hvisit. destruct Hreg as [entry Hentry].
    rewrite Hentry in Hvisit.
    apply bind_Normal in Hvisit as (v & σ1 & Hrun & Hrest).
    rewrite gets_bind in Hrest.
    assert (σa = σ1) as ->.
    { destruct (_ && _); by injection Hrest as _ <-. }
    by eapply Hran.
  - apply visitTracker_inv in Hvisit as [->|(t & v & -> & _ & Hregt & Hrun)].
    + eapply IH; eauto. lia.
    + destruct (decide (t = C)) as [->|HtC]; [by eapply Hran|].
      pose proof (runComputed_pass ev ev_steps t σ) as [_ _ [ks Ht] Hregs _].
      pose proof (runComputed_frame ev ev_steps t σ (CompKey C)) as Hframe.
      rewrite Hrun in Ht, Hregs, Hframe. simpl in *.
      destruct (IH (S i) w' σa Hscan) as (evs & Hevs & Hin).
      * apply Hframe; [congruence | done | done].
      * lia.
      * done.
      * by apply Hregs.
      * exists (map EvRun ks ++ evs). split.
        -- rewrite Hevs, Ht, <- app_assoc. done.
        -- apply elem_of_app. by right.
Qed.

Lemma recomputeAffectedComputeds_runs n changed σ cc σ' C deps :
  recomputeAffectedComputeds ev n [changed] σ = (Normal cc, σ') →
  (CompKey C, deps) ∈ dependencyGraph σ →
  Set_some (λ d, matches d changed) deps = true →
  registered σ C →
  ∃ evs, trace σ' = trace σ ++ evs ∧ EvRun C ∈ evs.
Proof.
  unfold recomputeAffectedComputeds. intros H Hin Hmatch Hreg.
  destruct n as [|n]; [discriminate|].
  rewrite drainQueue_S in H. cbn [queue seen changedComputed] in H.
  apply bind_Normal in H as (w' & σa & Hscan & Hdrain).
  apply list_elem_of_lookup in Hin as [j Hj].
  destruct (scanTrackers_runs _ _ _ _ _ _ _ _ _ _ Hscan Hj) as (evs & Ht & Hev);
    [lia | done | done |].
  pose proof (drainQueue_pass ev ev_steps n w' σa) as [_ _ [ks Ht'] _ _].
  rewrite Hdrain in Ht'. simpl in Ht'.
  exists (evs ++ map EvRun ks). split.
  - rewrite Ht', Ht, <- app_assoc. done.
  - apply elem_of_app. by left.
Qed.

End EagerPass.

(** C1, as amended.  The write pass does not mark computeds dirty: when it
    completes, it has re-run the evaluation function of every registered
    computed whose recorded dependency set matches the changed path.  A
    later read does not evaluate: reading a registered computed appends no
    event, whatever was written before. *)
Theorem write_pass_reruns_matching_computeds n σ s path σ' C deps :
  notifyPathChange (exec n) n s path σ = (Normal tt, σ') →
  (CompKey C, deps) ∈ dependencyGraph σ →
  (∃ d, d ∈ deps ∧ matches d (keyOf path) = true) →
  registered σ C →
  EvRun C ∈ new_events σ σ'
  ∧ ∀ n' p prop m g c,
      proxies σ' !! p = Some m →
      prop ≠ "__raw" → prop ≠ "__isProxy" →
      getDescriptorDeep (heap σ') (target m) prop = Some (Accessor (Some g) c) →
      registered σ' (computedKeyForPath (keyOf (base m ++ [prop]))) →
      new_events σ' (after (read n' p prop) σ') = [].
Proof.
  intros H Hin Hmatch Hreg. split.
  - apply notifyPathChange_inv in H as (r1 & σ1 & Hrec & H).
    destruct r1 as [cc|e|]; [|by destruct H|by destruct H].
    destruct H as [_ ->].
    destruct (recomputeAffectedComputeds_runs (exec n) (exec_steps n) _ _ _ _ _
                C deps Hrec) as (evs & Ht & Hev); [done | | done |].
    { by apply Set_some_spec. }
    simpl in Ht.
    rewrite (new_events_app σ _
               (EvNotify s path :: evs
                ++ (ping_loop (stores σ1) s (keyOf path) cc
                      (dependencyGraph σ1)).1)).
    + apply elem_of_cons. right. apply elem_of_app. by left.
    + simpl. rewrite Ht, <- !app_assoc. done.
  - intros n' p prop m g c Hm Hraw Hisp Hdesc [entry Hentry].
    unfold after. rewrite (read_getter _ _ _ _ _ _ _ Hm Hdesc).
    rewrite (get_trap_registered _ _ _ _ _ _ _ _ _ Hm Hraw Hisp Hdesc Hentry).
    apply new_events_app.
    destruct (currentTracker σ'); simpl; by rewrite app_nil_r.
Qed.

Lemma write_pass_reruns_matching_computeds_witness :
  EvRun "__computed__:double"
    ∈ new_events cart_double
        (after (notifyPathChange (exec 5) 5 0 ["n"]) cart_double)
  ∧ ∀ n' p prop m g c,
      proxies (after (notifyPathChange (exec 5) 5 0 ["n"]) cart_double) !! p
      = Some m →
      prop ≠ "__raw" → prop ≠ "__isProxy" →
      getDescriptorDeep
        (heap (after (notifyPathChange (exec 5) 5 0 ["n"]) cart_double))
        (target m) prop
      = Some (Accessor (Some g) c) →
      registered (after (notifyPathChange (exec 5) 5 0 ["n"]) cart_double)
        (computedKeyForPath (keyOf (base m ++ [prop]))) →
      new_events (after (notifyPathChange (exec 5) 5 0 ["n"]) cart_double)
        (after (read n' p prop)
           (after (notifyPathChange (exec 5) 5 0 ["n"]) cart_double))
      = [].
Proof.
  apply (write_pass_reruns_matching_computeds 5 cart_double 0 ["n"]
           (after (notifyPathChange (exec 5) 5 0 ["n"]) cart_double)
           "__computed__:double" {["n"]}).
  - vm_compute. reflexivity.
  - refine (bool_decide_unpack _ _). vm_compute. exact I.
  - exists "n". split; [|vm_compute; reflexivity].
    refine (bool_decide_unpack _ _). vm_compute. exact I.
  - eexists. vm_compute. reflexivity.
Defined.

(** C1, as stated, fails: [state.n = 4] runs the evaluation function of
    [double] during the write pass, before anything reads [double]. *)
Lemma write_pass_runs_evaluation_function :
  ¬ write_pass_is_lazy 5 cart_double 0 "n" (RNumber 4).
Proof.
  intros H. apply (H "__computed__:double").
  refine (bool_decide_unpack _ _). vm_compute. exact I.
Qed.

(** ** C5: who is pinged *)

Section ChangedSet.

Variable ev : expr → M value.
Hypothesis ev_steps : ∀ e σ, steps None σ (ev e σ).2.

(** One visit of the scan: the worklist gains the tracker exactly when the
    tracker is the entry of a registered computed that matches, its re-run
    changes the memoized value, and it was not seen before. *)
Lemma visitTracker_changed changed tracker deps w σ w1 σ1 S0 :
  visitTracker ev changed tracker deps w σ = (Normal w1, σ1) →
  seen w = S0 ∪ changedComputed w →
  seen w1 = S0 ∪ changedComputed w1
  ∧ changedComputed w ⊆ changedComputed w1
  ∧ (∀ k, k ∈ changedComputed w1 →
       k ∈ changedComputed w
       ∨ ((k ∉ S0) ∧ tracker = CompKey k
          ∧ Set_some (λ d, matches d changed) deps = true
          ∧ registered σ k ∧ value_changes ev k σ))
  ∧ (∀ k, tracker = CompKey k →
       Set_some (λ d, matches d changed) deps = true →
       value_changes ev k σ →
       k ∈ S0 ∨ k ∈ changedComputed w1).
Proof.
  unfold visitTracker. intros H Hinv.
  destruct tracker as [t|id].
  2:{ injection H as <- <-. split_and!; [done|done|by left|done]. }
  destruct (Set_some _ deps) eqn:Hmatch; simpl in H.
  2:{ injection H as <- <-. split_and!; [done|done|by left|done]. }
  rewrite gets_bind in H.
  destruct (computedRegistry σ !! t) as [before|] eqn:Hbefore.
  2:{ injection H as <- <-. split_and!; [done|done|by left|].
      intros k [= ->] _ (b & _ & _ & _ & Hb & _). congruence. }
  apply bind_Normal in H as (v & σ' & Hrun & H). rewrite gets_bind in H.
  pose proof (runComputed_steps ev ev_steps t σ) as Hs. rewrite Hrun in Hs.
  destruct (steps_registered _ _ _ Hs t) as [after Hafter]; [by eexists|].
  simpl in Hafter. rewrite Hafter in H.
  destruct (Object_is (last before) (last after)) eqn:Hsame; simpl in H.
  - injection H as <- <-. split_and!; [done|done|by left|].
    intros k [= ->] _ (b & v' & σ'' & a & Hb & Hr & Ha & Hne).
    rewrite Hbefore in Hb. injection Hb as <-.
    rewrite Hrun in Hr. injection Hr as <- <-.
    rewrite Hafter in Ha. injection Ha as <-. congruence.
  - case_bool_decide as Hseen; simpl in H; injection H as <- <-.
    + split_and!; [done|done|by left|].
      intros k [= ->] _ _. rewrite Hinv in Hseen. by apply elem_of_union in Hseen.
    + simpl. split_and!.
      * rewrite Hinv. by rewrite (assoc_L (∪)).
      * apply union_subseteq_l.
      * intros k [Hk| ->%elem_of_singleton]%elem_of_union; [by left|].
        right. split.
        { rewrite Hinv in Hseen. intros ?. apply Hseen, elem_of_union. by left. }
        split; [done|]. split; [done|]. split; [by eexists|].
        by exists before, v, σ', after.
      * intros k [= ->] _ _. right. apply elem_of_union. right.
        by apply elem_of_singleton.
Qed.

Lemma scanTrackers_changed n i changed w σ w' σ' S0 :
  scanTrackers ev n i changed w σ = (Normal w', σ') →
  seen w = S0 ∪ changedComputed w →
  seen w' = S0 ∪ changedComputed w'
  ∧ changedComputed w ⊆ changedComputed w'
  ∧ (∀ k, k ∈ changedComputed w' →
       k ∈ changedComputed w
       ∨ ((k ∉ S0) ∧ ∃ σa, scan_reruns ev changed k σa n i w σ
                         ∧ value_changes ev k σa))
  ∧ (∀ k σa, scan_reruns ev changed k σa n i w σ → value_changes ev k σa →
       k ∈ S0 ∨ k ∈ changedComputed w').
Proof.
  revert i w σ. induction n as [|n IH]; intros i w σ H Hinv; [done|].
  rewrite scanTrackers_S, gets_bind in H.
  destruct (dependencyGraph σ !! i) as [[tracker deps]|] eqn:Hentry.
  2:{ injection H as <- <-. split_and!; [done|done|by left|].
      intros k σa Hr _. inversion Hr; subst; congruence. }
  apply bind_Normal in H as (w1 & σ1 & Hvisit & Hscan).
  destruct (visitTracker_changed _ _ _ _ _ _ _ S0 Hvisit Hinv)
    as (Hinv1 & Hsub1 & Hfrom1 & Hto1).
  destruct (IH _ _ _ Hscan Hinv1) as (Hinv' & Hsub' & Hfrom' & Hto').
  split_and!; [done | by etrans | |].
  - intros k Hk. destruct (Hfrom' k Hk) as [Hk1|(Hk0 & σa & Hr & Hv)].
    + destruct (Hfrom1 k Hk1) as [?|(Hk0 & -> & Hmatch & Hreg & Hv)]; [by left|].
      right. split; [done|]. exists σ. split; [|done].
      by eapply scan_reruns_here.
    + right. split; [done|]. exists σa. split; [|done].
      by eapply scan_reruns_later.
  - intros k σa Hr Hv. inversion Hr as [? ? ? deps' Hi Hm Hreg|
                                        ? ? ? ? c deps' w2 σ2 Hi Hvisit' Hrest];
      subst.
    + rewrite Hentry in Hi. injection Hi as -> ->.
      destruct (Hto1 k eq_refl Hm Hv) as [?|?]; [by left | right; by apply Hsub'].
    + rewrite Hentry in Hi. injection Hi as <- <-.
      rewrite Hvisit in Hvisit'. injection Hvisit' as <- <-.
      by eapply Hto'.
Qed.

Lemma drainQueue_changed n w σ cc σ' S0 :
  drainQueue ev n w σ = (Normal cc, σ') →
  seen w = S0 ∪ changedComputed w →
  changedComputed w ⊆ cc
  ∧ (∀ k, k ∈ cc →
       k ∈ changedComputed w
       ∨ ((k ∉ S0) ∧ ∃ σa, drain_reruns ev k σa n w σ ∧ value_changes ev k σa))
  ∧ (∀ k σa, drain_reruns ev k σa n w σ → value_changes ev k σa →
       k ∈ S0 ∨ k ∈ cc).
Proof.
  revert w σ. induction n as [|n IH]; intros w σ H Hinv; [done|].
  rewrite drainQueue_S in H. destruct (queue w) as [|changed rest] eqn:Hq.
  { injection H as <- <-. split_and!; [done|by left|].
    intros k σa Hr _. inversion Hr; subst; congruence. }
  apply bind_Normal in H as (w1 & σ1 & Hscan & Hdrain).
  set (w0 := {| queue := rest; seen := seen w;
                changedComputed := changedComputed w |}) in *.
  destruct (scanTrackers_changed _ _ _ _ _ _ _ S0 Hscan Hinv)
    as (Hinv1 & Hsub1 & Hfrom1 & Hto1).
  destruct (IH _ _ Hdrain Hinv1) as (Hsub' & Hfrom' & Hto').
  simpl in Hsub1, Hfrom1.
  split_and!; [by etrans | |].
  - intros k Hk. destruct (Hfrom' k Hk) as [Hk1|(Hk0 & σa & Hr & Hv)].
    + destruct (Hfrom1 k Hk1) as [?|(Hk0 & σa & Hr & Hv)]; [by left|].
      right. split; [done|]. exists σa. split; [|done].
      by eapply drain_reruns_now.
    + right. split; [done|]. exists σa. split; [|done].
      by eapply drain_reruns_later.
  - intros k σa Hr Hv. inversion Hr as [? ? ? changed' rest' Hq' Hnow|
                                        ? ? ? changed' rest' w2 σ2 Hq' Hscan' Hrest];
      subst; rewrite Hq in Hq'; injection Hq' as <- <-.
    + destruct (Hto1 k σa Hnow Hv) as [?|?]; [by left | right; by apply Hsub'].
    + fold w0 in Hscan'. rewrite Hscan in Hscan'. injection Hscan' as <- <-.
      by eapply Hto'.
Qed.

(** The set that [recomputeAffectedComputeds] returns consists of the
    computeds, other than the start key, that the pass re-ran with a
    result that differs from the value memoized before that run. *)
Lemma recomputeAffectedComputeds_changed n start σ cc σ' :
  recomputeAffectedComputeds ev n [start] σ = (Normal cc, σ') →
  ∀ k, k ∈ cc
       ↔ k ≠ start ∧ ∃ σa, reruns ev n [start] σ k σa ∧ value_changes ev k σa.
Proof.
  unfold recomputeAffectedComputeds, reruns. intros H k.
  destruct (drainQueue_changed _ _ _ _ _ {[start]} H) as (_ & Hfrom & Hto).
  { simpl. set_solver. }
  split.
  - intros Hk. destruct (Hfrom k Hk) as [?|(Hk0 & σa & Hr & Hv)]; [set_solver|].
    split; [set_solver | by exists σa].
  - intros (Hne & σa & Hr & Hv). destruct (Hto k σa Hr Hv); [set_solver | done].
Qed.

End ChangedSet.




(** The prefix test honours "." boundaries: the sibling and the
    look-alike do not match, the path itself, an ancestor and a descendant
    do. *)
Lemma matches_examples :
  matches "items.3.qty" "items.7.price" = false
  ∧ matches "items.3.qty" "items.3.qty" = true
  ∧ matches "items.3" "items.30" = false
  ∧ matches "items" "items.3.qty" = true
  ∧ matches "items.3.qty" "items" = true.
Proof. repeat split. Qed.

(** ** C2 and C3: leaving a scope *)

(** Leaving [runComputed] or [withComponentTracking] installs "no scope",
    whatever scope was active on entry. *)
Lemma runComputed_exit_clears_scope n k σ r σ' :
  registered σ k →
  runComputed (exec n) k σ = (r, σ') →
  r ≠ Timeout →
  currentTracker σ' = None.
Proof.
  intros [entry Hentry] H Hr. unfold runComputed in H.
  rewrite gets_bind, Hentry, !modify_bind in H. unfold finally in H.
  destruct (_ ≫= _) as [[v|e|] σ1]; injection H as <- <-; done.
Qed.

Lemma withComponentTracking_exit_clears_scope n id fn σ r σ' :
  tracked n id fn σ = (r, σ') →
  r ≠ Timeout →
  currentTracker σ' = None.
Proof.
  intros H Hr. unfold tracked, withComponentTracking in H.
  rewrite !modify_bind in H. unfold finally in H.
  destruct (exec n fn _) as [[v|e|] σ1]; injection H as <- <-; done.
Qed.

(** C2, at the failing input.  Component [7] is the active scope and reads
    [double], which was never read: its first evaluation is a nested
    scope.  When that read returns, the active scope is none, not
    component [7]; the following read of [n] is recorded nowhere, and the
    component's published dependency set is empty. *)
Theorem nested_scope_exit_drops_enclosing_scope :
  currentTracker (set_currentTracker (Some (TComponent 7)) cart)
  = Some (TComponent 7)
  ∧ currentTracker
      (after (read 5 0 "double") (set_currentTracker (Some (TComponent 7)) cart))
    = None
  ∧ (tracked 5 7 double_then_n cart).1 = Normal (VRaw (RNumber 2))
  ∧ deps_of (after (tracked 5 7 double_then_n) cart) (CompSym 7) = ∅
  ∧ deps_of (after (tracked 5 7 double_then_n) cart)
      (CompKey "__computed__:double")
    = {["n"]}.
Proof.
  repeat split; vm_compute; reflexivity.
Qed.

(** C3, at the failing input.  The first evaluation of [sum] reads the
    computed [double] (never read before) and then the raw path [k]; the
    dependency set published for [sum] is empty.  So a later write to [k]
    re-runs nothing, and [sum] keeps its stale value. *)
Theorem dependency_set_misses_reads_after_nested_scope :
  (readValue 5 0 "sum" cart).1 = Normal (VRaw (RNumber 5))
  ∧ new_events cart (after (readValue 5 0 "sum") cart)
    = [EvRun "__computed__:sum"; EvRun "__computed__:double"]
  ∧ deps_of (after (readValue 5 0 "sum") cart) (CompKey "__computed__:sum") = ∅
  ∧ new_events (after (readValue 5 0 "sum") cart)
      (after (assign 5 0 "k" (RNumber 10)) (after (readValue 5 0 "sum") cart))
    = [EvNotify 0 ["k"]]
  ∧ (readValue 5 0 "sum"
       (after (assign 5 0 "k" (RNumber 10)) (after (readValue 5 0 "sum") cart))).1
    = Normal (VRaw (RNumber 5)).
Proof.
  repeat split; vm_compute; reflexivity.
Qed.

(** ** Fuel is only a bound *)

Lemma refines_refl {A} (m : M A) : refines m m.
Proof. by intros σ r σ' H _. Qed.

Lemma refines_bind {A B} (m m' : M A) (k k' : A → M B) :
  refines m m' → (∀ a, refines (k a) (k' a)) → refines (m ≫= k) (m' ≫= k').
Proof.
  intros Hm Hk σ r σ' H Hr. unfold mbind, M_bind in *.
  destruct (m σ) as [[a|e|] σ1] eqn:E.
  - rewrite (Hm _ _ _ E) by done. by apply Hk.
  - rewrite (Hm _ _ _ E) by done. done.
  - injection H as <- _. done.
Qed.

Lemma refines_finally {A} (m m' : M A) cleanup :
  refines m m' → refines (finally m cleanup) (finally m' cleanup).
Proof.
  intros Hm σ r σ' H Hr. unfold finally in *.
  destruct (m σ) as [[a|e|] σ1] eqn:E.
  - rewrite (Hm _ _ _ E) by done. done.
  - rewrite (Hm _ _ _ E) by done. done.
  - injection H as <- _. done.
Qed.

Ltac refines_step :=
  match goal with
  | |- refines ?m ?m => apply refines_refl
  | |- refines (_ ≫= _) (_ ≫= _) => apply refines_bind; [|intros ?]
  | |- refines (finally _ _) (finally _ _) => apply refines_finally
  | |- refines (match ?x with _ => _ end) _ => destruct x
  | |- refines (if ?b then _ else _) _ => destruct b
  end.

Section Fuel.

Variables ev ev' : expr → M value.
Hypothesis ev_refines : ∀ e, refines (ev e) (ev' e).

Lemma runComputed_refines k : refines (runComputed ev k) (runComputed ev' k).
Proof. unfold runComputed. repeat (refines_step; try apply ev_refines). Qed.

Lemma ensureComputed_refines absPath runner :
  refines (ensureComputed ev absPath runner) (ensureComputed ev' absPath runner).
Proof.
  unfold ensureComputed. repeat (refines_step; try apply runComputed_refines).
Qed.

Lemma Reflect_get_refines a prop receiver :
  refines (Reflect_get ev a prop receiver) (Reflect_get ev' a prop receiver).
Proof. unfold Reflect_get. repeat (refines_step; try apply ev_refines). Qed.

Lemma get_trap_refines p prop receiver :
  refines (get_trap ev p prop receiver) (get_trap ev' p prop receiver).
Proof.
  unfold get_trap.
  repeat (refines_step;
          try apply ensureComputed_refines; try apply Reflect_get_refines).
Qed.

Lemma proxy_get_refines p prop receiver :
  refines (proxy_get ev p prop receiver) (proxy_get ev' p prop receiver).
Proof.
  unfold proxy_get. repeat (refines_step; try apply get_trap_refines).
Qed.

Lemma js_get_refines o key : refines (js_get ev o key) (js_get ev' o key).
Proof.
  unfold js_get.
  repeat (refines_step; try apply proxy_get_refines; try apply Reflect_get_refines).
Qed.

Lemma getValueAtPath_refines cur path :
  refines (getValueAtPath ev cur path) (getValueAtPath ev' cur path).
Proof.
  revert cur. induction path as [|k path IH]; intros cur; simpl.
  - apply refines_refl.
  - apply refines_bind; [|intros; apply IH].
    destruct (isObject cur); [apply js_get_refines | apply refines_refl].
Qed.

Lemma resolve_refines v : refines (resolve ev v) (resolve ev' v).
Proof.
  unfold resolve, live_access, live_read.
  repeat (refines_step; try apply getValueAtPath_refines).
Qed.

Lemma interp_refines e : refines (interp ev e) (interp ev' e).
Proof.
  induction e as [v|x|o key k IH|v k IH]; simpl.
  - apply refines_refl.
  - apply refines_refl.
  - apply refines_bind; [apply js_get_refines | done].
  - apply refines_bind; [apply resolve_refines | done].
Qed.

Lemma visitTracker_refines changed tracker deps w :
  refines (visitTracker ev changed tracker deps w)
          (visitTracker ev' changed tracker deps w).
Proof.
  unfold visitTracker. repeat (refines_step; try apply runComputed_refines).
Qed.

Lemma scanTrackers_refines n n' i changed w :
  n ≤ n' →
  refines (scanTrackers ev n i changed w) (scanTrackers ev' n' i changed w).
Proof.
  revert n' i w. induction n as [|n IH]; intros n' i w Hle.
  { intros σ r σ' [= <- _] Hr. done. }
  destruct n' as [|n']; [lia|]. rewrite !scanTrackers_S.
  apply refines_bind; [apply refines_refl|]. intros [[tracker deps]|].
  - apply refines_bind; [apply visitTracker_refines|]. intros w'.
    apply IH. lia.
  - apply refines_refl.
Qed.

Lemma drainQueue_refines n n' w :
  n ≤ n' → refines (drainQueue ev n w) (drainQueue ev' n' w).
Proof.
  revert n' w. induction n as [|n IH]; intros n' w Hle.
  { intros σ r σ' [= <- _] Hr. done. }
  destruct n' as [|n']; [lia|]. rewrite !drainQueue_S.
  destruct (queue w); [apply refines_refl|].
  apply refines_bind; [by apply scanTrackers_refines|]. intros w'.
  apply IH. lia.
Qed.

Lemma notifyPathChange_refines n n' s path :
  n ≤ n' →
  refines (notifyPathChange ev n s path) (notifyPathChange ev' n' s path).
Proof.
  intros Hle. unfold notifyPathChange, recomputeAffectedComputeds.
  repeat (refines_step; try by apply drainQueue_refines).
Qed.

End Fuel.

Lemma exec_refines n n' e : n ≤ n' → refines (exec n e) (exec n' e).
Proof.
  revert n' e. induction n as [|n IH]; intros n' e Hle.
  { intros σ r σ' [= <- _] Hr. done. }
  destruct n' as [|n']; [lia|]. simpl.
  apply interp_refines. intros e'. apply IH. lia.
Qed.

(** Fuel only bounds the depth of user code and the length of the loops: an
    operation that returns or throws with some fuel does exactly the same
    with more. *)
Theorem more_fuel_same_result n n' :
  n ≤ n' →
  (∀ p prop, refines (read n p prop) (read n' p prop))
  ∧ (∀ p prop newVal, refines (assign n p prop newVal) (assign n' p prop newVal))
  ∧ (∀ p prop, refines (deleteProp n p prop) (deleteProp n' p prop))
  ∧ (∀ id fn, refines (tracked n id fn) (tracked n' id fn))
  ∧ (∀ s path, refines (notifyPathChange (exec n) n s path)
                       (notifyPathChange (exec n') n' s path)).
Proof.
  intros Hle.
  assert (∀ e, refines (exec n e) (exec n' e)) as Hev.
  { intros e. by apply exec_refines. }
  repeat split.
  - intros p prop. by apply proxy_get_refines.
  - intros p prop newVal. unfold assign, set_trap.
    repeat (refines_step; try by apply notifyPathChange_refines).
  - intros p prop. unfold deleteProp, deleteProperty_trap.
    repeat (refines_step; try by apply notifyPathChange_refines).
  - intros id fn. unfold tracked, withComponentTracking.
    repeat (refines_step; try apply Hev).
  - intros s path. by apply notifyPathChange_refines.
Qed.

(** The two reads of C8 on the cart: the first read of [double] evaluates it
    once, both reads hand out a live primitive that resolves to [2]. *)
Lemma double_read_twice :
  read 5 0 "double" cart
  = (Normal (VLive 1 (ComputedPath "__computed__:double")), cart_double)
  ∧ new_events cart cart_double = [EvRun "__computed__:double"]
  ∧ (read 5 0 "double" cart_double).1
    = Normal (VLive 2 (ComputedPath "__computed__:double"))
  ∧ new_events cart_double (after (read 5 0 "double") cart_double) = []
  ∧ (readValue 5 0 "double" cart).1 = Normal (VRaw (RNumber 2))
  ∧ (readValue 5 0 "double" cart_double).1 = Normal (VRaw (RNumber 2)).
Proof. split_and!; vm_compute; reflexivity. Qed.

(** The example of C5 on the second store: the component read only
    [items.0.qty]; a write to [items.1.price] calls nobody, a write to
    [items.0.qty] calls its listener. *)
Lemma subscriber_precision_example :
  deps_of rows_subscribed (CompSym 7) = {["items.0.qty"]}
  ∧ new_events rows_subscribed
      (after (assign 5 3 "price" (RNumber 8)) rows_subscribed)
    = [EvNotify 0 ["items"; "1"; "price"]]
  ∧ new_events rows_subscribed
      (after (assign 5 2 "qty" (RNumber 4)) rows_subscribed)
    = [EvNotify 0 ["items"; "0"; "qty"]; EvPing 0 7 70].
Proof. split_and!; vm_compute; reflexivity. Qed.

(** ** The loops of the write pass end *)

Lemma tame_refl σ : tame σ σ.
Proof. intros Hwf. done. Qed.

Lemma tame_trans σ1 σ2 σ3 : tame σ1 σ2 → tame σ2 σ3 → tame σ1 σ3.
Proof.
  intros H12 H23 Hwf. destruct (H12 Hwf) as (Hwf2 & Hp12 & Hs12 & Hpot12).
  destruct (H23 Hwf2) as (Hwf3 & Hp23 & Hs23 & Hpot23).
  split; [done|]. split; [by etrans|]. split; [by etrans | lia].
Qed.

Lemma tame_bind {A B} (m : M A) (k : A → M B) σ :
  tame σ (m σ).2 →
  (∀ a σ1, m σ = (Normal a, σ1) → tame σ1 (k a σ1).2) →
  tame σ ((m ≫= k) σ).2.
Proof.
  unfold mbind, M_bind. destruct (m σ) as [[a|e|] σ1]; simpl; intros H1 H2;
    [eapply tame_trans; eauto | done | done].
Qed.

Lemma tame_finally {A} (body : M A) cleanup σ :
  tame σ (body σ).2 →
  (∀ σ1, tame σ1 (cleanup σ1)) →
  tame σ (finally body cleanup σ).2.
Proof.
  unfold finally. destruct (body σ) as [[a|e|] σ1]; simpl; intros H1 H2;
    [eapply tame_trans; eauto | eapply tame_trans; eauto | done].
Qed.

(** *** Keys of the graph *)

Lemma Map_set_keys_in_place {V} (k : CompId) (v : V) (g : list (CompId * V)) :
  is_Some (Map_get k g) → (Map_set k v g).*1 = g.*1.
Proof.
  induction g as [|[k' v'] g IH]; simpl.
  - by intros [? ?].
  - destruct (decide (k' = k)) as [->|Hne]; simpl; [done|].
    intros H. f_equal. by apply IH.
Qed.

Lemma Map_set_keys_prefix {V} (k : CompId) (v : V) (g : list (CompId * V)) :
  g.*1 `prefix_of` (Map_set k v g).*1
  ∧ length (Map_set k v g) ≤ S (length g).
Proof.
  induction g as [|[k' v'] g [IH1 IH2]]; simpl.
  - split; [apply prefix_nil | lia].
  - destruct (decide (k' = k)) as [->|Hne]; simpl.
    + split; [done | lia].
    + split; [by apply prefix_cons | lia].
Qed.

Lemma Map_get_set_is_Some {V} (k c : CompId) (v : V) (g : list (CompId * V)) :
  is_Some (Map_get c g) → is_Some (Map_get c (Map_set k v g)).
Proof.
  intros H. destruct (decide (k = c)) as [->|Hne].
  - rewrite Map_get_set_eq. by eexists.
  - by rewrite Map_get_set_ne.
Qed.

(** *** Pending getters *)

Lemma descriptorWalk_Some n h a prop d :
  descriptorWalk n h (Some a) prop = Some d →
  is_Some (h !! a) ∧ ∃ a' o, h !! a' = Some o ∧ props o !! prop = Some d.
Proof.
  revert a. induction n as [|n IH]; intros a; simpl; [done|].
  unfold hasOwnDescriptor, getPrototypeOf.
  destruct (h !! a) as [o|] eqn:Ha; simpl.
  2:{ destruct n; simpl; done. }
  destruct (props o !! prop) as [d'|] eqn:Hp.
  - intros [= ->]. split; [by eexists|]. eauto.
  - destruct (proto o) as [a'|]; [|destruct n; simpl; done].
    intros H. split; [by eexists|]. by destruct (IH _ H) as [_ ?].
Qed.

Lemma elem_of_names h a o prop :
  h !! a = Some o → is_Some (props o !! prop) → prop ∈ names h.
Proof.
  intros Ha Hp. unfold names. apply elem_of_union_list.
  exists (dom (props o)). split; [|by apply elem_of_dom].
  apply list_elem_of_fmap. exists (a, o). split; [done|].
  by apply elem_of_map_to_list.
Qed.

Lemma elem_of_pending σ a prop :
  (a, prop) ∈ pending σ
  ↔ isGetter (heap σ) a prop = true ∧ registeredVia σ a prop = false.
Proof.
  unfold pending. rewrite elem_of_filter. simpl. split; [by intros [? _]|].
  intros [Hg Hr]. split; [done|].
  apply elem_of_list_to_set, list_elem_of_bind.
  unfold isGetter, getDescriptorDeep in Hg.
  destruct (descriptorWalk _ _ _ _) as [d|] eqn:Hd; [|done].
  apply descriptorWalk_Some in Hd as ([o Ho] & a' & o' & Ho' & Hp).
  exists a. split.
  - apply list_elem_of_fmap. exists prop. split; [done|].
    apply elem_of_elements. eapply elem_of_names; [done | by eexists].
  - apply elem_of_elements, elem_of_dom. by eexists.
Qed.

Lemma pending_mono σ σ' :
  heap σ' = heap σ →
  (∀ a prop, registeredVia σ a prop = true → registeredVia σ' a prop = true) →
  pending σ' ⊆ pending σ.
Proof.
  intros Hh Hmono [a prop]. rewrite !elem_of_pending, Hh.
  intros [Hg Hr]. split; [done|].
  destruct (registeredVia σ a prop) eqn:E; [|done].
  apply Hmono in E. congruence.
Qed.

Lemma pending_shrinks σ σ' a prop :
  heap σ' = heap σ →
  (∀ a prop, registeredVia σ a prop = true → registeredVia σ' a prop = true) →
  (a, prop) ∈ pending σ →
  registeredVia σ' a prop = true →
  S (size (pending σ')) ≤ size (pending σ).
Proof.
  intros Hh Hmono Hin Hreg.
  assert (pending σ' ⊂ pending σ) as Hsub.
  { split; [by apply pending_mono|]. intros Hsup.
    specialize (Hsup _ Hin). apply elem_of_pending in Hsup as [_ ?]. congruence. }
  apply subset_size in Hsub. lia.
Qed.

Lemma Map_get_is_Some_keys {V} (k : CompId) (g : list (CompId * V)) :
  is_Some (Map_get k g) ↔ k ∈ g.*1.
Proof.
  induction g as [|[k' v'] g IH]; simpl.
  - split; [by intros [? ?] | by intros ?%elem_of_nil].
  - rewrite elem_of_cons. destruct (decide (k' = k)) as [->|Hne].
    + split; [by left | by eexists].
    + rewrite IH. split; [by right | by intros [?|?]].
Qed.

Lemma Map_set_keys_append {V} (k : CompId) (v : V) (g : list (CompId * V)) :
  Map_get k g = None → (Map_set k v g).*1 = g.*1 ++ [k].
Proof.
  induction g as [|[k' v'] g IH]; simpl; [done|].
  destruct (decide (k' = k)) as [->|Hne]; [done|].
  intros H. simpl. f_equal. by apply IH.
Qed.

Lemma Map_set_keys_NoDup {V} (k : CompId) (v : V) (g : list (CompId * V)) :
  NoDup g.*1 → NoDup (Map_set k v g).*1.
Proof.
  intros Hnd. destruct (Map_get k g) as [x|] eqn:Hk.
  - rewrite Map_set_keys_in_place; [done | by eexists].
  - rewrite Map_set_keys_append by done.
    apply NoDup_app. split; [done|]. split; [|apply NoDup_singleton].
    intros c Hc ->%list_elem_of_singleton.
    apply Map_get_is_Some_keys in Hc as [? ?]. congruence.
Qed.

Lemma tracker_entered_keys σ σ' :
  (dependencyGraph σ').*1 = (dependencyGraph σ).*1 →
  currentTracker σ' = currentTracker σ ∨ currentTracker σ' = None →
  tracker_entered σ → tracker_entered σ'.
Proof.
  unfold tracker_entered. intros Hk [->| ->]; [|done].
  destruct (currentTracker σ); [|done].
  by rewrite !Map_get_is_Some_keys, Hk.
Qed.

Lemma registeredVia_mono σ σ' :
  proxies σ' = proxies σ →
  proxyCache σ' = proxyCache σ →
  (∀ k, registered σ k → registered σ' k) →
  ∀ a prop, registeredVia σ a prop = true → registeredVia σ' a prop = true.
Proof.
  intros Hp Hc Hr a prop. unfold registeredVia. rewrite Hp, Hc.
  destruct (proxyCache σ !! a) as [q|]; [|done].
  destruct (proxies σ !! q) as [mq|]; [|done].
  rewrite !bool_decide_eq_true. apply Hr.
Qed.

Lemma registered_insert σ k e k' :
  registered σ k' →
  registered (set_computedRegistry (<[k := e]> (computedRegistry σ)) σ) k'.
Proof.
  intros [x Hx]. unfold registered. simpl.
  destruct (decide (k = k')) as [->|Hne].
  - rewrite lookup_insert_eq. by eexists.
  - rewrite lookup_insert_ne by done. by eexists.
Qed.

(** An update that leaves the wrappers and the keys of the graph alone, and
    takes nothing out of the registry. *)
Lemma tame_frame σ σ' :
  heap σ' = heap σ →
  proxies σ' = proxies σ →
  proxyCache σ' = proxyCache σ →
  storeOfProxy σ' = storeOfProxy σ →
  nextId σ ≤ nextId σ' →
  (dependencyGraph σ').*1 = (dependencyGraph σ).*1 →
  currentTracker σ' = currentTracker σ ∨ currentTracker σ' = None →
  (∀ k, registered σ k → registered σ' k) →
  tame σ σ'.
Proof.
  intros Hh Hp Hc Hs Hn Hk Ht Hr (Hids & Hcache & Hidx & Hnd & Htr).
  split; [|split; [|split]].
  - unfold wf, ids_fresh, cache_consistent, store_indexed, graph_unique.
    rewrite Hp, Hc, Hs, Hk. split; [|split; [done|]].
    + intros p m Hpm. specialize (Hids p m Hpm). simpl in Hids. lia.
    + split; [done|]. split; [done|]. by eapply tracker_entered_keys.
  - by rewrite Hk.
  - by rewrite Hp.
  - unfold potential.
    assert (length (dependencyGraph σ') = length (dependencyGraph σ)) as ->.
    { by rewrite <- !(length_fmap fst), Hk. }
    assert (size (pending σ') ≤ size (pending σ)); [|lia].
    apply subseteq_size, pending_mono; [done|].
    by apply registeredVia_mono.
Qed.

(** *** What each primitive update does to the bound *)

Lemma tame_set_graph_in_place σ id s :
  is_Some (Map_get id (dependencyGraph σ)) →
  tame σ (set_dependencyGraph (Map_set id s (dependencyGraph σ)) σ).
Proof.
  intros Hid. apply tame_frame; simpl; try done; [|by left].
  by apply Map_set_keys_in_place.
Qed.

Lemma tame_set_tracker_None σ : tame σ (set_currentTracker None σ).
Proof. apply tame_frame; simpl; try done. by right. Qed.

Lemma tame_set_tracker_Some σ t :
  is_Some (Map_get (tracker_id t) (dependencyGraph σ)) →
  tame σ (set_currentTracker (Some t) σ).
Proof.
  intros Ht Hwf.
  destruct (tame_set_tracker_None σ Hwf)
    as ((Hids & Hcache & Hidx & Hnd & _) & Hpre & Hsub & Hpot).
  done.
Qed.

Lemma tame_log σ e : tame σ (set_trace (trace σ ++ [e]) σ).
Proof. apply tame_frame; simpl; try done. by left. Qed.

Lemma tame_fresh σ : tame σ (set_nextId (S (nextId σ)) σ).
Proof. apply tame_frame; simpl; try done; [lia | by left]. Qed.

Lemma tame_alter_entry σ k f :
  tame σ (set_computedRegistry (alter f k (computedRegistry σ)) σ).
Proof.
  apply tame_frame; simpl; try done; [by left|].
  intros k' [e He]. unfold registered. simpl.
  destruct (decide (k = k')) as [->|Hne].
  - rewrite lookup_alter_eq, He. by eexists.
  - rewrite lookup_alter_ne by done. by eexists.
Qed.

Lemma depsAdd_tame σ t k :
  currentTracker σ = Some t → tame σ (depsAdd (tracker_id t) k σ).2.
Proof.
  intros Ht Hwf. rewrite depsAdd_eq. simpl.
  pose proof Hwf as (_ & _ & _ & _ & Htr). unfold tracker_entered in Htr.
  rewrite Ht in Htr. destruct Htr as [s Hs].
  unfold graph_add. rewrite Hs.
  apply tame_set_graph_in_place; [by eexists | done].
Qed.

Lemma trackDep_tame σ k : tame σ (trackDep k σ).2.
Proof.
  unfold trackDep. rewrite gets_bind.
  destruct (currentTracker σ) eqn:Ht; [by apply depsAdd_tame | apply tame_refl].
Qed.

Lemma makeProxy_tame σ a s b r : tame σ (makeProxy a s b r σ).2.
Proof.
  unfold makeProxy. rewrite gets_bind.
  destruct (proxyCache σ !! a) eqn:Hc; [apply tame_refl|].
  intros (Hids & Hcache & Hidx & Hnd & Htr). simpl.
  assert (proxies σ !! nextId σ = None) as Hnew.
  { destruct (proxies σ !! nextId σ) as [m|] eqn:E; [|done].
    specialize (Hids _ _ E). simpl in Hids. lia. }
  split; [|split; [done|split]].
  - split; [|split; [|split; [|done]]].
    + intros p m. simpl. intros Hp.
      destruct (decide (nextId σ = p)) as [<-|Hne]; [lia|].
      rewrite lookup_insert_ne in Hp by done.
      specialize (Hids _ _ Hp). simpl in Hids. lia.
    + intros p m. simpl. intros Hp.
      destruct (decide (nextId σ = p)) as [<-|Hne].
      * rewrite lookup_insert_eq in Hp. injection Hp as <-. simpl.
        by rewrite lookup_insert_eq.
      * rewrite lookup_insert_ne in Hp by done.
        specialize (Hcache _ _ Hp). simpl in Hcache.
        rewrite lookup_insert_ne; [done|]. congruence.
    + intros p m. simpl. intros Hp.
      destruct (decide (nextId σ = p)) as [<-|Hne].
      * rewrite lookup_insert_eq in Hp. injection Hp as <-. simpl.
        by rewrite lookup_insert_eq.
      * rewrite lookup_insert_ne in Hp by done.
        rewrite lookup_insert_ne by done. by apply Hidx.
  - simpl. by apply insert_subseteq.
  - unfold potential. simpl.
    match goal with
    | |- _ + size (pending ?σ') ≤ _ =>
        assert (size (pending σ') ≤ size (pending σ)); [|lia]
    end.
    apply subseteq_size, pending_mono; [done|].
    intros a' prop. unfold registeredVia, registered. simpl.
    destruct (decide (a = a')) as [<-|Hne]; [by rewrite Hc|].
    rewrite lookup_insert_ne by done.
    destruct (proxyCache σ !! a') as [p|]; [|done].
    destruct (proxies σ !! p) as [m|] eqn:Hp; [|done].
    rewrite lookup_insert_ne; [by rewrite Hp|].
    intros <-. congruence.
Qed.

Ltac tame_step :=
  match goal with
  | |- tame ?σ ?σ => apply tame_refl
  | |- tame _ (mret _ _).2 => apply tame_refl
  | |- tame _ (throw _ _).2 => apply tame_refl
  | |- tame _ (timeout _).2 => apply tame_refl
  | |- tame _ (gets _ _).2 => apply tame_refl
  | |- tame _ ((gets _ ≫= _) _).2 => rewrite gets_bind
  | |- tame _ ((mret _ ≫= _) _).2 => rewrite mret_bind
  | |- tame _ ((throw _ ≫= _) _).2 => rewrite throw_bind
  | |- tame _ ((_ ≫= _) _).2 => apply tame_bind; [ | intros ? ? ?]
  | |- tame _ ((if ?b then _ else _) _).2 => destruct b eqn:?
  | |- tame _ ((match ?x with _ => _ end) _).2 => destruct x eqn:?
  end.

Section Bounded.

Variable ev : expr → M value.
Hypothesis ev_tame : ∀ e σ, tame σ (ev e σ).2.

Lemma run_body_tame k entry σ :
  tame σ
    (finally
       (log (EvRun k);;
        val ← ev (run entry);
        modify (λ σ, set_computedRegistry
                       (alter (λ e, {| run := run e; last := val;
                                       lastRun := now σ |})
                              k (computedRegistry σ)) σ);;
        mret val)
       (set_currentTracker None) σ).2.
Proof.
  apply tame_finally.
  - unfold log. rewrite modify_bind.
    eapply tame_trans; [apply tame_log|].
    apply tame_bind; [apply ev_tame|]. intros val σ1 _.
    rewrite modify_bind. apply tame_alter_entry.
  - intros σ1. apply tame_set_tracker_None.
Qed.

(** Re-running a computed that has an entry in the graph. *)
Lemma runComputed_tame k σ :
  is_Some (Map_get (CompKey k) (dependencyGraph σ)) →
  tame σ (runComputed ev k σ).2.
Proof.
  intros Hk. unfold runComputed. rewrite gets_bind.
  destruct (computedRegistry σ !! k) as [entry|]; [|apply tame_refl].
  rewrite !modify_bind.
  eapply tame_trans; [by apply tame_set_graph_in_place|].
  eapply tame_trans; [|apply run_body_tame].
  apply (tame_set_tracker_Some _ (TComputed k)). simpl.
  rewrite Map_get_set_eq. by eexists.
Qed.

(** Registering the getter [prop] of the wrapper [p] and running it: the
    graph may gain an entry, and the getter is no longer pending. *)
Lemma ensureComputed_tame p m prop g c runner σ :
  proxies σ !! p = Some m →
  getDescriptorDeep (heap σ) (target m) prop = Some (Accessor (Some g) c) →
  tame σ (ensureComputed ev (keyOf (base m ++ [prop])) runner σ).2.
Proof.
  intros Hm Hdesc. unfold ensureComputed. rewrite gets_bind, bind_mret_snd.
  case_bool_decide as Hreg; [apply tame_refl|].
  rewrite modify_bind. unfold runComputed. rewrite gets_bind. simpl.
  rewrite lookup_insert_eq, !modify_bind.
  eapply tame_trans; [|apply run_body_tame].
  intros (Hids & Hcache & Hidx & Hnd & Htr).
  set (k := computedKeyForPath (keyOf (base m ++ [prop]))) in *.
  destruct (Map_set_keys_prefix (CompKey k) (∅ : gset string) (dependencyGraph σ))
    as [Hprefix Hlen].
  split; [|split; [done|split; [done|]]].
  - split; [done|]. split; [done|]. split; [done|]. split.
    + unfold graph_unique. simpl. by apply Map_set_keys_NoDup.
    + unfold tracker_entered. simpl. rewrite Map_get_set_eq. by eexists.
  - unfold potential. simpl.
    match goal with
    | |- _ + size (pending ?σ') ≤ _ =>
        assert (S (size (pending σ')) ≤ size (pending σ)); [|lia]
    end.
    apply (pending_shrinks _ _ (target m) prop); [done | | |].
    + apply registeredVia_mono; [done | done |].
      intros k' Hk'. by apply (registered_insert σ).
    + apply elem_of_pending. split.
      * unfold isGetter. by rewrite Hdesc.
      * unfold registeredVia. rewrite (Hcache _ _ Hm), Hm.
        by apply bool_decide_eq_false.
    + unfold registeredVia, registered. simpl.
      rewrite (Hcache _ _ Hm), Hm. apply bool_decide_eq_true.
      fold k. rewrite lookup_insert_eq. by eexists.
Qed.

Lemma Reflect_get_tame σ a prop receiver :
  tame σ (Reflect_get ev a prop receiver σ).2.
Proof.
  unfold Reflect_get. rewrite gets_bind.
  repeat (tame_step; try apply ev_tame).
Qed.

Lemma get_trap_tame p prop receiver σ :
  tame σ (get_trap ev p prop receiver σ).2.
Proof.
  unfold get_trap. rewrite gets_bind.
  destruct (proxies σ !! p) as [m|] eqn:Hm; [|apply tame_refl].
  do 2 (case_bool_decide; [apply tame_refl|]).
  rewrite gets_bind.
  destruct (getDescriptorDeep (heap σ) (target m) prop)
    as [[v w c|[g|] c]|] eqn:Hdesc.
  2:{ apply tame_bind; [by eapply ensureComputed_tame|]. intros k σ1 _.
      repeat (tame_step; try (by apply depsAdd_tame)).
      apply tame_fresh. }
  all: repeat (tame_step;
               try apply Reflect_get_tame; try (by apply depsAdd_tame);
               try apply trackDep_tame; try apply tame_fresh;
               try apply makeProxy_tame).
Qed.

Lemma proxy_get_tame p prop receiver σ :
  tame σ (proxy_get ev p prop receiver σ).2.
Proof.
  rewrite proxy_get_eq. pose proof (get_trap_tame p prop receiver σ) as H.
  by destruct (get_trap ev p prop receiver σ) as [[v|e|] σ'].
Qed.

Lemma js_get_tame o key σ : tame σ (js_get ev o key σ).2.
Proof.
  unfold js_get.
  repeat (tame_step; try apply proxy_get_tame; try apply Reflect_get_tame).
Qed.

Lemma getValueAtPath_tame cur path σ :
  tame σ (getValueAtPath ev cur path σ).2.
Proof.
  revert cur σ. induction path as [|k path IH]; intros cur σ; simpl.
  - apply tame_refl.
  - apply tame_bind; [|intros; apply IH].
    destruct (isObject cur); [apply js_get_tame | apply tame_refl].
Qed.

Lemma resolve_tame v σ : tame σ (resolve ev v σ).2.
Proof.
  unfold resolve, live_access, live_read.
  repeat (tame_step; try apply getValueAtPath_tame; try apply trackDep_tame).
Qed.

Lemma interp_tame e σ : tame σ (interp ev e σ).2.
Proof.
  revert σ. induction e as [v|x|o key k IH|v k IH]; intros σ; simpl.
  - apply tame_refl.
  - apply tame_refl.
  - apply tame_bind; [apply js_get_tame | intros; apply IH].
  - apply tame_bind; [apply resolve_tame | intros; apply IH].
Qed.

End Bounded.

Lemma exec_tame n e σ : tame σ (exec n e σ).2.
Proof.
  revert e σ. induction n as [|n IH]; intros e σ; simpl.
  - apply tame_refl.
  - by apply interp_tame.
Qed.

(** *** The scan and the worklist *)

Lemma lookup_Map_get {V} (g : list (CompId * V)) i k v :
  g !! i = Some (k, v) → is_Some (Map_get k g).
Proof.
  revert i. induction g as [|[k' v'] g IH]; intros i; [done|]. simpl.
  destruct (decide (k' = k)); [by eexists|].
  destruct i as [|i]; simpl; [intros [= -> _]; done | apply IH].
Qed.

Lemma length_le_potential σ : length (dependencyGraph σ) ≤ potential σ.
Proof. unfold potential. lia. Qed.

Lemma filter_length_app_le {A} (P : A → Prop) `{∀ x, Decision (P x)} (l k : list A) :
  length (filter P (l ++ k)) ≤ length (filter P l) + length k.
Proof.
  rewrite filter_app, length_app. pose proof (length_filter P k). lia.
Qed.

Lemma unseen_grows σ σ' w :
  (dependencyGraph σ).*1 `prefix_of` (dependencyGraph σ').*1 →
  unseen σ' w + length (dependencyGraph σ)
  ≤ unseen σ w + length (dependencyGraph σ').
Proof.
  intros [extra Hextra]. unfold unseen. rewrite Hextra.
  pose proof (filter_length_app_le (λ c, isUnseen (seen w) c = true)
                (dependencyGraph σ).*1 extra) as Hle.
  assert (length (dependencyGraph σ') = length (dependencyGraph σ) + length extra)
    as ->.
  { rewrite <- !(length_fmap fst), Hextra, length_app. done. }
  lia.
Qed.

Lemma unseen_le σ w : unseen σ w ≤ length (dependencyGraph σ).
Proof.
  unfold unseen. rewrite <- (length_fmap fst (dependencyGraph σ)).
  apply length_filter.
Qed.

(** Marking [t] seen takes at least its own entry out of the count. *)
Lemma unseen_push σ w t :
  CompKey t ∈ (dependencyGraph σ).*1 →
  t ∉ seen w →
  S (unseen σ {| queue := queue w ++ [t]; seen := seen w ∪ {[t]};
                 changedComputed := changedComputed w ∪ {[t]} |})
  ≤ unseen σ w.
Proof.
  intros Hin Ht. unfold unseen. simpl.
  induction (dependencyGraph σ).*1 as [|c l IH]; [by apply elem_of_nil in Hin|].
  rewrite !filter_cons.
  assert (length (filter (λ c, isUnseen (seen w ∪ {[t]}) c = true) l)
          ≤ length (filter (λ c, isUnseen (seen w) c = true) l)) as Hle.
  { clear. induction l as [|c l IH]; [done|]. rewrite !filter_cons.
    destruct (decide (isUnseen (seen w ∪ {[t]}) c = true)) as [H1|H1].
    - rewrite decide_True; [simpl; lia|].
      destruct c; simpl in *; [|done].
      apply negb_true_iff, bool_decide_eq_false in H1.
      apply negb_true_iff, bool_decide_eq_false. set_solver.
    - destruct (decide (isUnseen (seen w) c = true)); simpl; lia. }
  apply elem_of_cons in Hin as [<-|Hin].
  - rewrite decide_False, decide_True; [simpl; lia | |].
    + simpl. by apply negb_true_iff, bool_decide_eq_false.
    + simpl. rewrite negb_true_iff, bool_decide_eq_false. set_solver.
  - specialize (IH Hin).
    destruct (decide (isUnseen (seen w ∪ {[t]}) c = true)) as [H1|H1].
    + rewrite decide_True; [simpl; lia|].
      destruct c; simpl in *; [|done].
      apply negb_true_iff, bool_decide_eq_false in H1.
      apply negb_true_iff, bool_decide_eq_false. set_solver.
    + destruct (decide (isUnseen (seen w) c = true)); simpl; lia.
Qed.

Section Loops.

Variable ev : expr → M value.
Hypothesis ev_tame : ∀ e σ, tame σ (ev e σ).2.

(** Running out of fuel in [runComputed] is running out of it in the
    evaluation function. *)
Lemma runComputed_Timeout k σ σ' :
  runComputed ev k σ = (Timeout, σ') → evaluation_timed_out ev σ'.
Proof.
  unfold runComputed. rewrite gets_bind.
  destruct (computedRegistry σ !! k) as [entry|] eqn:Hentry; [|done].
  rewrite !modify_bind. unfold finally, log. rewrite modify_bind.
  set (σb := set_trace _ _). unfold mbind at 1, M_bind at 1.
  destruct (ev (run entry) σb) as [[val|e|] σc] eqn:Hev; simpl; [done..|].
  intros [= <-]. by exists k, entry, σb.
Qed.

(** One visit: the worklist is left alone, or the tracker was re-run and
    possibly pushed. *)
Lemma visitTracker_cases changed tracker deps w σ r σa :
  visitTracker ev changed tracker deps w σ = (r, σa) →
  (r = Normal w ∧ σa = σ)
  ∨ ∃ t r1, tracker = CompKey t
            ∧ runComputed ev t σ = (r1, σa)
            ∧ match r1 with
              | Normal _ =>
                  r = Normal w
                  ∨ ((t ∉ seen w)
                     ∧ r = Normal {| queue := queue w ++ [t];
                                     seen := seen w ∪ {[t]};
                                     changedComputed := changedComputed w ∪ {[t]} |})
              | Throws e => r = Throws e
              | Timeout => r = Timeout
              end.
Proof.
  unfold visitTracker. destruct tracker as [t|id].
  2:{ intros [= <- <-]. by left. }
  destruct (negb _).
  { intros [= <- <-]. by left. }
  rewrite gets_bind. destruct (computedRegistry σ !! t) as [entry|].
  2:{ intros [= <- <-]. by left. }
  unfold mbind at 1, M_bind at 1.
  destruct (runComputed ev t σ) as [[v|e|] σ1] eqn:Hrun; intros H; right;
    exists t; eexists; (split; [done|]).
  - rewrite gets_bind in H.
    destruct (negb (Object_is _ _)) eqn:Hchanged; simpl in H.
    + case_bool_decide as Hseen; simpl in H; injection H as <- <-.
      * split; [done|]. by left.
      * split; [done|]. right. done.
    + injection H as <- <-. split; [done|]. by left.
  - injection H as <- <-. done.
  - injection H as <- <-. done.
Qed.

Lemma visitTracker_tame changed tracker deps w σ :
  is_Some (Map_get tracker (dependencyGraph σ)) →
  tame σ (visitTracker ev changed tracker deps w σ).2.
Proof.
  intros Hin.
  destruct (visitTracker ev changed tracker deps w σ) as [r σa] eqn:H.
  apply visitTracker_cases in H as [[_ ->]|(t & r1 & -> & Hrun & _)].
  - apply tame_refl.
  - pose proof (runComputed_tame ev ev_tame t σ Hin) as Ht.
    by rewrite Hrun in Ht.
Qed.

Lemma scanTrackers_tame n i changed w σ :
  tame σ (scanTrackers ev n i changed w σ).2.
Proof.
  revert i w σ. induction n as [|n IH]; intros i w σ.
  - apply tame_refl.
  - rewrite scanTrackers_S, gets_bind.
    destruct (dependencyGraph σ !! i) as [[tracker deps]|] eqn:Hi;
      [|apply tame_refl].
    apply tame_bind; [|intros; apply IH].
    apply visitTracker_tame. by eapply lookup_Map_get.
Qed.

(** The scan ends: it visits the entries present and the entries appended
    meanwhile, and [potential] bounds both. *)
Lemma scanTrackers_ends n i changed w σ σ' :
  wf σ →
  i ≤ length (dependencyGraph σ) →
  potential σ + 1 ≤ n + i →
  scanTrackers ev n i changed w σ = (Timeout, σ') →
  evaluation_timed_out ev σ'.
Proof.
  revert i w σ. induction n as [|n IH]; intros i w σ Hwf Hi Hn.
  { pose proof (length_le_potential σ). lia. }
  rewrite scanTrackers_S, gets_bind.
  destruct (dependencyGraph σ !! i) as [[tracker deps]|] eqn:Hentry; [|done].
  pose proof (visitTracker_tame changed tracker deps w σ
                (lookup_Map_get _ _ _ _ Hentry) Hwf) as (Hwf' & Hprefix & _ & Hpot).
  unfold mbind, M_bind.
  destruct (visitTracker ev changed tracker deps w σ) as [[w'|e|] σa] eqn:Hvisit;
    simpl in Hwf', Hprefix, Hpot |- *; [| done |].
  - apply IH; [done | | lia].
    apply lookup_lt_Some in Hentry. apply prefix_length in Hprefix.
    rewrite !length_fmap in Hprefix. lia.
  - intros [= <-].
    apply visitTracker_cases in Hvisit as [[? _]|(t & r1 & _ & Hrun & Hr)];
      [done|].
    apply (runComputed_Timeout t σ).
    destruct r1 as [v|e|]; [destruct Hr as [?|[_ ?]]; done | done | done].
Qed.

(** The scan does not add to the backlog: what it pushes was unseen, what it
    registers was pending. *)
Lemma scanTrackers_backlog n i changed w σ w' σ' :
  wf σ →
  scanTrackers ev n i changed w σ = (Normal w', σ') →
  backlog σ' w' ≤ backlog σ w.
Proof.
  revert i w σ. induction n as [|n IH]; intros i w σ Hwf H; [done|].
  rewrite scanTrackers_S, gets_bind in H.
  destruct (dependencyGraph σ !! i) as [[tracker deps]|] eqn:Hentry.
  2:{ by injection H as <- <-. }
  apply bind_Normal in H as (w1 & σa & Hvisit & Hscan).
  pose proof (visitTracker_tame changed tracker deps w σ
                (lookup_Map_get _ _ _ _ Hentry) Hwf) as (Hwf' & Hprefix & _ & Hpot).
  rewrite Hvisit in Hwf', Hprefix, Hpot. simpl in *.
  etrans; [by eapply IH|].
  pose proof (unseen_grows σ σa w Hprefix) as Hgrow.
  unfold backlog, potential in *.
  apply visitTracker_cases in Hvisit as [[[= <-] ->]|(t & r1 & -> & Hrun & Hr)];
    [done|].
  destruct r1 as [v|e|]; [|done..].
  destruct Hr as [[= ->]|[Hseen [= ->]]]; [lia|].
  assert (CompKey t ∈ (dependencyGraph σa).*1) as Hin.
  { destruct Hprefix as [extra ->]. apply elem_of_app. left.
    apply list_elem_of_fmap. exists (CompKey t, deps). split; [done|].
    by eapply list_elem_of_lookup_2. }
  pose proof (unseen_push σa w t Hin Hseen) as Hpush.
  simpl. rewrite length_app. simpl. lia.
Qed.

(** [while (queue.length)] ends: each round takes a key off the queue, and
    a key is pushed at most once. *)
Lemma drainQueue_ends n w σ σ' :
  wf σ →
  potential σ + backlog σ w + 1 ≤ n →
  drainQueue ev n w σ = (Timeout, σ') →
  evaluation_timed_out ev σ'.
Proof.
  revert w σ. induction n as [|n IH]; intros w σ Hwf Hn; [lia|].
  rewrite drainQueue_S. destruct (queue w) as [|changed rest] eqn:Hq; [done|].
  set (w0 := {| queue := rest; seen := seen w;
                changedComputed := changedComputed w |}).
  assert (S (backlog σ w0) = backlog σ w) as Hw0.
  { unfold backlog, unseen, w0. simpl. rewrite Hq. simpl. lia. }
  pose proof (scanTrackers_tame (S n) 0 changed w0 σ Hwf) as (Hwf' & _ & _ & Hpot).
  unfold mbind, M_bind.
  destruct (scanTrackers ev (S n) 0 changed w0 σ) as [[w1|e|] σa] eqn:Hscan;
    simpl in Hwf', Hpot |- *; [| done |].
  - apply IH; [done|].
    pose proof (scanTrackers_backlog _ _ _ _ _ _ _ Hwf Hscan). lia.
  - intros [= <-].
    apply (scanTrackers_ends (S n) 0 changed w0 σ); [done | lia | lia | done].
Qed.

Lemma recomputeAffectedComputeds_ends n changed σ σ' :
  wf σ →
  2 * potential σ + 2 ≤ n →
  recomputeAffectedComputeds ev n [changed] σ = (Timeout, σ') →
  evaluation_timed_out ev σ'.
Proof.
  intros Hwf Hn. unfold recomputeAffectedComputeds. apply drainQueue_ends; [done|].
  match goal with |- context [backlog σ ?w0] => pose proof (unseen_le σ w0) end.
  unfold backlog, potential in *. cbn [queue length]. lia.
Qed.

Lemma notifyPathChange_ends n s path σ σ' :
  wf σ →
  2 * potential σ + 2 ≤ n →
  notifyPathChange ev n s path σ = (Timeout, σ') →
  evaluation_timed_out ev σ'.
Proof.
  intros Hwf Hn Hpass.
  apply notifyPathChange_inv in Hpass as (r1 & σ1 & Hrec & Hr).
  destruct r1 as [cc|e|];
    [destruct Hr as [Hr _]; by destruct (ping_loop _ _ _ _ _).2
    | by destruct Hr |].
  destruct Hr as [_ ->].
  by apply (recomputeAffectedComputeds_ends n (keyOf path)
              (set_trace (trace σ ++ [EvNotify s path]) σ)).
Qed.

Lemma drainQueue_tame n w σ : tame σ (drainQueue ev n w σ).2.
Proof.
  revert w σ. induction n as [|n IH]; intros w σ; [apply tame_refl|].
  rewrite drainQueue_S. destruct (queue w) as [|changed rest]; [apply tame_refl|].
  apply tame_bind; [apply scanTrackers_tame | intros; apply IH].
Qed.

Lemma notifyPathChange_tame n s path σ :
  tame σ (notifyPathChange ev n s path σ).2.
Proof.
  destruct (notifyPathChange ev n s path σ) as [r σ'] eqn:Hpass.
  apply notifyPathChange_inv in Hpass as (r1 & σ1 & Hrec & Hr).
  eapply tame_trans; [apply (tame_log _ (EvNotify s path))|].
  pose proof (drainQueue_tame n
                {| queue := [keyOf path]; seen := list_to_set [keyOf path];
                   changedComputed := ∅ |}
                (set_trace (trace σ ++ [EvNotify s path]) σ)) as Ht.
  unfold recomputeAffectedComputeds in Hrec. rewrite Hrec in Ht. simpl in Ht.
  eapply tame_trans; [exact Ht|]. simpl.
  destruct r1 as [cc|e|]; destruct Hr as [_ ->]; try apply tame_refl.
  apply tame_frame; simpl; try done. by left.
Qed.

End Loops.

(** *** The invariant of the module state *)

Lemma wf_boot h : wf (boot h).
Proof.
  split; [|split; [|split; [|split]]]; try done.
  unfold graph_unique. simpl. apply NoDup_nil_2.
Qed.

Lemma wf_set_heap h σ : wf σ → wf (set_heap h σ).
Proof. intros (? & ? & ? & ? & ?). done. Qed.

Lemma wf_set_stores x σ : wf σ → wf (set_stores x σ).
Proof. intros (? & ? & ? & ? & ?). done. Qed.

Lemma wf_set_storeOfRoot x σ : wf σ → wf (set_storeOfRoot x σ).
Proof. intros (? & ? & ? & ? & ?). done. Qed.

Lemma wf_enter_scope t σ :
  wf σ →
  wf (set_currentTracker (Some t)
        (set_dependencyGraph (Map_set (tracker_id t) ∅ (dependencyGraph σ)) σ)).
Proof.
  intros (Hids & Hcache & Hidx & Hnd & Htr).
  split; [done|]. split; [done|]. split; [done|]. split.
  - unfold graph_unique. simpl. by apply Map_set_keys_NoDup.
  - unfold tracker_entered. simpl. rewrite Map_get_set_eq. by eexists.
Qed.

Lemma proxy_get_wf n p prop receiver σ :
  wf σ → wf (proxy_get (exec n) p prop receiver σ).2.
Proof. intros Hwf. by apply (proxy_get_tame (exec n) (exec_tame n)). Qed.

Lemma set_trap_wf n p prop v σ : wf σ → wf (set_trap (exec n) n p prop v σ).2.
Proof.
  intros Hwf. unfold set_trap. rewrite gets_bind.
  destruct (proxies σ !! p) as [m|]; [|done].
  rewrite gets_bind. destruct (Reflect_set _ _ _ _) as [ok h'|e|]; [|done..].
  rewrite modify_bind, bind_mret_snd.
  by apply (notifyPathChange_tame (exec n) (exec_tame n)), wf_set_heap.
Qed.

Lemma deleteProperty_trap_wf n p prop σ :
  wf σ → wf (deleteProperty_trap (exec n) n p prop σ).2.
Proof.
  intros Hwf. unfold deleteProperty_trap. rewrite gets_bind.
  destruct (proxies σ !! p) as [m|]; [|done].
  rewrite gets_bind. destruct (Reflect_deleteProperty _ _ _) as [ok h'|e|]; [|done..].
  rewrite modify_bind, bind_mret_snd.
  by apply (notifyPathChange_tame (exec n) (exec_tame n)), wf_set_heap.
Qed.

Lemma withComponentTracking_wf n id fn σ :
  wf σ → wf (withComponentTracking (exec n) id fn σ).2.
Proof.
  intros Hwf. unfold withComponentTracking. rewrite !modify_bind.
  apply tame_finally.
  - apply exec_tame.
  - intros σ1. apply tame_set_tracker_None.
  - by apply (wf_enter_scope (TComponent id)).
Qed.

Lemma proxy_wf a σ : wf σ → wf (proxy a σ).2.
Proof.
  intros Hwf. unfold proxy, createStore.
  rewrite bind_assoc, gets_bind, bind_assoc, modify_bind, bind_assoc, modify_bind,
    mret_bind.
  by apply makeProxy_tame, wf_set_storeOfRoot, wf_set_stores.
Qed.

Lemma readValue_wf n p prop σ : wf σ → wf (readValue n p prop σ).2.
Proof.
  intros Hwf. unfold readValue, read.
  apply tame_bind; [apply (proxy_get_tame (exec n) (exec_tame n)) | | done].
  intros v σ1 _. apply (resolve_tame (exec n) (exec_tame n)).
Qed.

Lemma subscribeComponent_wf s id cb σ : wf σ → wf (subscribeComponent s id cb σ).2.
Proof. apply wf_set_stores. Qed.

Lemma unsubscribeComponent_wf s id σ : wf σ → wf (unsubscribeComponent s id σ).2.
Proof. apply wf_set_stores. Qed.

(** X1.  The loops of a write pass end.  Given fuel above twice the number
    of dependency-graph entries and getters not yet registered, the pass
    (the [while] over the queue, the [for ... of] over the live graph, the
    subscriber loop) can stop short in one way only: inside an evaluation
    function that was called as [entry.run()] and ran out of its own fuel.
    The queue never grows without bound, because a computed is pushed at
    most once, and the scan of the graph catches up with the entries that
    evaluations append. *)
Theorem write_pass_stops_only_inside_an_evaluation d n s path σ σ' :
  wf σ →
  2 * potential σ + 2 ≤ n →
  notifyPathChange (exec d) n s path σ = (Timeout, σ') →
  evaluation_timed_out (exec d) σ'.
Proof. apply notifyPathChange_ends, exec_tame. Qed.

Lemma write_pass_stops_only_inside_an_evaluation_witness :
  evaluation_timed_out (exec 0)
    (after (notifyPathChange (exec 0) 40 0 ["n"]) cart_double).
Proof.
  apply (write_pass_stops_only_inside_an_evaluation 0 40 0 ["n"] cart_double).
  - apply (readValue_wf 5 0 "double" cart), (proxy_wf 0 (boot cart_heap)), wf_boot.
  - vm_compute. lia.
  - vm_compute. reflexivity.
Defined.

(** X2.  The module state stays consistent.  If every wrapper is the
    [proxyCache] entry of its target and is filed in [storeOfProxy] under
    the store its traps notify, and the active scope (if any) has a
    dependency set in [dependencyGraph], then the same holds after
    [proxy()], after a read, an assignment or a deletion through a wrapper,
    after [withComponentTracking], and after subscribing or unsubscribing,
    whether the operation returned or threw. *)
Theorem module_state_stays_consistent n σ :
  wf σ →
  (∀ a, wf (after (proxy a) σ))
  ∧ (∀ p prop, wf (after (readValue n p prop) σ))
  ∧ (∀ p prop v, wf (after (assign n p prop v) σ))
  ∧ (∀ p prop, wf (after (deleteProp n p prop) σ))
  ∧ (∀ id fn, wf (after (tracked n id fn) σ))
  ∧ (∀ s id cb, wf (after (subscribeComponent s id cb) σ))
  ∧ (∀ s id, wf (after (unsubscribeComponent s id) σ)).
Proof.
  intros Hwf. unfold after. split_and!.
  - intros a. exact (proxy_wf a σ Hwf).
  - intros p prop. exact (readValue_wf n p prop σ Hwf).
  - intros p prop v. exact (set_trap_wf n p prop v σ Hwf).
  - intros p prop. exact (deleteProperty_trap_wf n p prop σ Hwf).
  - intros id fn. exact (withComponentTracking_wf n id fn σ Hwf).
  - intros s id cb. exact (subscribeComponent_wf s id cb σ Hwf).
  - intros s id. exact (unsubscribeComponent_wf s id σ Hwf).
Qed.

Lemma module_state_stays_consistent_witness :
  (∀ a, wf (after (proxy a) (boot cart_heap)))
  ∧ (∀ p prop, wf (after (readValue 5 p prop) (boot cart_heap)))
  ∧ (∀ p prop v, wf (after (assign 5 p prop v) (boot cart_heap)))
  ∧ (∀ p prop, wf (after (deleteProp 5 p prop) (boot cart_heap)))
  ∧ (∀ id fn, wf (after (tracked 5 id fn) (boot cart_heap)))
  ∧ (∀ s id cb, wf (after (subscribeComponent s id cb) (boot cart_heap)))
  ∧ (∀ s id, wf (after (unsubscribeComponent s id) (boot cart_heap))).
Proof. apply (module_state_stays_consistent 5 (boot cart_heap)), wf_boot. Defined.

(* ================================================================== *)
(** * Further properties of the module *)
(* ================================================================== *)

(** ** Keys: [keyOf] and the match of the invalidation loops *)

Lemma append_nil_l (b : string) : "" +:+ b = b.
Proof. reflexivity. Qed.

Lemma append_cons x (a b : string) : String x a +:+ b = String x (a +:+ b).
Proof. reflexivity. Qed.

Lemma append_assoc_s (a b c : string) : (a +:+ b) +:+ c = a +:+ (b +:+ c).
Proof.
  induction a as [|x a IH]; [done|]. rewrite !append_cons. by rewrite IH.
Qed.

Lemma prefix_append (a r : string) : String.prefix a (a +:+ r) = true.
Proof.
  induction a as [|x a IH]; [rewrite append_nil_l; by destruct r|].
  rewrite append_cons. simpl.
  destruct (Ascii.ascii_dec x x); [done | congruence].
Qed.

Lemma prefix_split (a b : string) :
  String.prefix a b = true → ∃ r, b = a +:+ r.
Proof.
  revert b. induction a as [|x a IH]; intros b.
  - intros _. by exists b.
  - destruct b as [|y b]; simpl; [done|].
    destruct (Ascii.ascii_dec x y) as [->|]; [|done].
    intros [r ->]%IH. by exists r.
Qed.

Lemma segments_nonempty s : segments s ≠ [].
Proof.
  destruct s as [|c s]; simpl; [done|].
  case_bool_decide; [done|]. by destruct (segments s).
Qed.

Lemma segments_append (a b : string) :
  segments (a +:+ "." +:+ b) = segments a ++ segments b.
Proof.
  induction a as [|c a IH]; [done|]. rewrite append_cons. simpl.
  case_bool_decide; [by rewrite IH|].
  rewrite IH. pose proof (segments_nonempty a).
  by destruct (segments a).
Qed.

Lemma segments_dotfree (x : string) : has_dot x = false → segments x = [x].
Proof.
  induction x as [|c x IH]; simpl; [done|].
  intros [Hc Hx]%orb_false_iff. rewrite Hc, IH; done.
Qed.

Lemma keyOf_cons x (path : Path) :
  path ≠ [] → keyOf (x :: path) = x +:+ "." +:+ keyOf path.
Proof. by destruct path. Qed.

Lemma keyOf_app (p r : Path) :
  p ≠ [] → r ≠ [] → keyOf (p ++ r) = keyOf p +:+ "." +:+ keyOf r.
Proof.
  intros Hp Hr. induction p as [|x p IH]; [done|].
  destruct p as [|y p].
  - simpl app. by rewrite keyOf_cons.
  - change ((x :: y :: p) ++ r) with (x :: ((y :: p) ++ r)).
    rewrite !keyOf_cons by done. rewrite IH by done.
    by rewrite append_assoc_s.
Qed.

(** A key made of dot-free segments splits back into them. *)
Lemma segments_keyOf (path : Path) :
  path ≠ [] → Forall (λ x, has_dot x = false) path →
  segments (keyOf path) = path.
Proof.
  intros Hne Hall. induction Hall as [|x path Hx Hall IH]; [done|].
  destruct path as [|y path].
  - by apply segments_dotfree.
  - rewrite keyOf_cons by done. rewrite segments_append, segments_dotfree by done.
    simpl. f_equal. by apply IH.
Qed.

Lemma prefix_dot_keyOf (p q : Path) :
  p ≠ [] → q ≠ [] →
  Forall (λ x, has_dot x = false) p → Forall (λ x, has_dot x = false) q →
  String.prefix (keyOf p +:+ ".") (keyOf q) = true → p `prefix_of` q.
Proof.
  intros Hp Hq Hdp Hdq [r Hr]%prefix_split.
  rewrite append_assoc_s in Hr.
  apply (f_equal segments) in Hr.
  rewrite segments_append, !segments_keyOf in Hr by done.
  by exists (segments r).
Qed.

(** X3.  On paths whose segments hold no dot, the test of the invalidation
    loops is the ancestor-or-descendant relation: the keys of two non-empty
    paths match exactly when one path is a prefix of the other.  A key never
    matches a sibling that merely starts with the same characters. *)
Theorem keys_match_iff_one_path_extends_the_other (p q : Path) :
  p ≠ [] → q ≠ [] →
  Forall (λ x, has_dot x = false) p → Forall (λ x, has_dot x = false) q →
  matches (keyOf p) (keyOf q) = true ↔ p `prefix_of` q ∨ q `prefix_of` p.
Proof.
  intros Hp Hq Hdp Hdq. unfold matches. rewrite !orb_true_iff. split.
  - intros [[Heq|Hpre]|Hpre].
    + apply String.eqb_eq in Heq. apply (f_equal segments) in Heq.
      rewrite !segments_keyOf in Heq by done. left. by rewrite Heq.
    + right. by apply prefix_dot_keyOf.
    + left. by apply prefix_dot_keyOf.
  - assert (∀ a b : Path, a ≠ [] → a `prefix_of` b →
              (String.eqb (keyOf a) (keyOf b) = true
               ∨ String.prefix (keyOf a +:+ ".") (keyOf b) = true)) as Hone.
    { intros a b Ha [r ->]. destruct r as [|y r].
      - left. rewrite app_nil_r. apply String.eqb_refl.
      - right. rewrite keyOf_app by done. rewrite <- append_assoc_s.
        apply prefix_append. }
    intros [Hpq|Hqp].
    + destruct (Hone p q Hp Hpq) as [H|H]; [by left; left | by right].
    + destruct (Hone q p Hq Hqp) as [H|H]; [|by left; right].
      left; left. by rewrite String.eqb_sym.
Qed.

Lemma keys_match_iff_one_path_extends_the_other_witness :
  matches (keyOf ["items"; "0"]) (keyOf ["items"; "0"; "qty"]) = true
  ↔ ["items"; "0"] `prefix_of` ["items"; "0"; "qty"]
    ∨ ["items"; "0"; "qty"] `prefix_of` ["items"; "0"].
Proof.
  apply keys_match_iff_one_path_extends_the_other; try done;
    repeat constructor.
Defined.

(** ** What a read through the wrapper returns *)

Lemma Map_set_set {V} (k : CompId) (v1 v2 : V) (g : list (CompId * V)) :
  Map_set k v2 (Map_set k v1 g) = Map_set k v2 g.
Proof.
  induction g as [|[k' v'] g IH]; simpl.
  - by rewrite decide_True.
  - destruct (decide (k' = k)) as [->|Hne]; simpl.
    + by rewrite decide_True.
    + rewrite decide_False by done. by rewrite IH.
Qed.

Lemma graph_add_fresh_scope id k g :
  graph_add id k (Map_set id ∅ g) = Map_set id {[k]} g.
Proof.
  unfold graph_add. rewrite Map_get_set_eq, Map_set_set.
  by rewrite (left_id_L ∅ (∪)).
Qed.

Lemma Reflect_get_plain ev a prop receiver σ v :
  plain_value (getDescriptorDeep (heap σ) a prop) = Some v →
  Reflect_get ev a prop receiver σ = (Normal (VRaw v), σ).
Proof.
  intros Hv. unfold Reflect_get. rewrite gets_bind.
  destruct (getDescriptorDeep (heap σ) a prop) as [[v' w c|[g|] c]|];
    simpl in Hv; by simplify_eq.
Qed.

Lemma isRef_primitive σ v : isPrimitive (VRaw v) = true → isRef σ (VRaw v) = false.
Proof. by destruct v. Qed.

(** [[Get]] when the trap leaves the heap alone: the result is held
    against the own property as it was before the read. *)
Lemma proxy_get_checked ev p prop receiver σ m v σ' :
  proxies σ !! p = Some m →
  get_trap ev p prop receiver σ = (Normal v, σ') →
  heap σ' = heap σ →
  proxy_get ev p prop receiver σ
  = (if get_invariant (hasOwnDescriptor (heap σ) (target m) prop) v
     then Normal v else Throws TypeError, σ').
Proof. intros Hm Ht Hh. rewrite proxy_get_eq, Ht, Hm. simpl. by rewrite Hh. Qed.

(** The check accepts the stored value. *)
Lemma get_invariant_stored h a prop v :
  plain_value (getDescriptorDeep h a prop) = Some v →
  get_invariant (hasOwnDescriptor h a prop) (VRaw v) = true.
Proof.
  intros Hv. destruct (hasOwnDescriptor h a prop) as [d|] eqn:Hown; [|done].
  rewrite (getDescriptorDeep_own _ _ _ _ Hown) in Hv.
  destruct d as [v' [] []|[g|] []]; simpl in *; try done; simplify_eq;
    by apply bool_decide_eq_true.
Qed.

(** Branch B2 of the [get] trap: a primitive is handed out as it is while a
    scope is active, and its path is recorded; outside any scope the trap
    makes a live primitive for the path. *)
Lemma get_trap_primitive ev p prop receiver σ m v :
  proxies σ !! p = Some m →
  prop ≠ "__raw" → prop ≠ "__isProxy" →
  plain_value (getDescriptorDeep (heap σ) (target m) prop) = Some v →
  isPrimitive (VRaw v) = true →
  get_trap ev p prop receiver σ =
    match currentTracker σ with
    | Some t =>
        (Normal (VRaw v),
         set_dependencyGraph
           (graph_add (tracker_id t) (keyOf (base m ++ [prop])) (dependencyGraph σ)) σ)
    | None =>
        (Normal (VLive (nextId σ) (RawPath (rootRef m) (base m ++ [prop]))),
         set_nextId (S (nextId σ)) σ)
    end.
Proof.
  intros Hm Hraw Hisp Hv Hprim. unfold get_trap.
  rewrite gets_bind, Hm, !bool_decide_false by done. rewrite gets_bind.
  assert (∀ k : value → M value,
            (Reflect_get ev (target m) prop receiver ≫= k) σ = k (VRaw v) σ) as Hget.
  { intros k. unfold mbind, M_bind. by rewrite (Reflect_get_plain _ _ _ _ _ v). }
  destruct (getDescriptorDeep (heap σ) (target m) prop) as [[v' w c|[g|] c]|] eqn:Hd;
    simpl in Hv; [|done| |]; rewrite Hget, gets_bind, isRef_primitive, Hprim by done;
    rewrite gets_bind; (destruct (currentTracker σ) as [t|]; [|done]);
    unfold mbind, M_bind; by rewrite depsAdd_eq.
Qed.

(** The read that goes with it: inside a scope the stored value passes the
    check of the host; outside, the live primitive does not pass it when
    the own property is pinned. *)
Lemma proxy_get_primitive ev p prop receiver σ m v :
  proxies σ !! p = Some m →
  prop ≠ "__raw" → prop ≠ "__isProxy" →
  plain_value (getDescriptorDeep (heap σ) (target m) prop) = Some v →
  isPrimitive (VRaw v) = true →
  proxy_get ev p prop receiver σ =
    match currentTracker σ with
    | Some t =>
        (Normal (VRaw v),
         set_dependencyGraph
           (graph_add (tracker_id t) (keyOf (base m ++ [prop])) (dependencyGraph σ)) σ)
    | None =>
        (if pinned (hasOwnDescriptor (heap σ) (target m) prop)
         then Throws TypeError
         else Normal (VLive (nextId σ) (RawPath (rootRef m) (base m ++ [prop]))),
         set_nextId (S (nextId σ)) σ)
    end.
Proof.
  intros Hm Hraw Hisp Hv Hprim.
  pose proof (get_trap_primitive ev p prop receiver σ m v Hm Hraw Hisp Hv Hprim)
    as Htrap.
  destruct (currentTracker σ) as [t|].
  - rewrite (proxy_get_checked _ _ _ _ _ m _ _ Hm Htrap) by done.
    by rewrite get_invariant_stored.
  - rewrite (proxy_get_checked _ _ _ _ _ m _ _ Hm Htrap) by done.
    rewrite get_invariant_live. by destruct (pinned _).
Qed.

(** X4.  Reading a primitive property (or a missing one, which reads as
    [undefined]).  Inside [withComponentTracking] the read returns the raw
    value and the component's dependency set is exactly the property's path
    key.  Outside any scope the read records nothing and evaluates
    nothing; it makes a new live primitive bound to the path below
    [rootRef] and returns it, unless the property is an own property of
    the target that is neither writable nor configurable: then the host
    refuses the live primitive and the read throws a [TypeError]. *)
Theorem reading_a_primitive_property n id p prop m v σ :
  proxies σ !! p = Some m →
  prop ≠ "__raw" → prop ≠ "__isProxy" →
  plain_value (getDescriptorDeep (heap σ) (target m) prop) = Some v →
  isPrimitive (VRaw v) = true →
  tracked (S n) id (Get (VProxy p) prop Return) σ
  = (Normal (VRaw v),
     set_currentTracker None
       (set_dependencyGraph
          (Map_set (CompSym id) {[keyOf (base m ++ [prop])]} (dependencyGraph σ)) σ))
  ∧ (currentTracker σ = None →
     read n p prop σ
     = (if pinned (hasOwnDescriptor (heap σ) (target m) prop)
        then Throws TypeError
        else Normal (VLive (nextId σ) (RawPath (rootRef m) (base m ++ [prop]))),
        set_nextId (S (nextId σ)) σ)).
Proof.
  intros Hm Hraw Hisp Hv Hprim. split.
  - unfold tracked, withComponentTracking. rewrite !modify_bind.
    unfold finally. simpl. unfold mbind at 1, M_bind at 1. unfold js_get.
    rewrite (proxy_get_primitive _ _ _ _ _ m v) by done. simpl.
    by rewrite graph_add_fresh_scope.
  - intros Ht. unfold read.
    rewrite (proxy_get_primitive _ _ _ _ _ m v) by done. by rewrite Ht.
Qed.

Lemma reading_a_primitive_property_witness :
  tracked 1 7 (Get (VProxy 0) "n" Return) sealed
  = (Normal (VRaw (RNumber 1)),
     set_currentTracker None
       (set_dependencyGraph
          (Map_set (CompSym 7) {[keyOf ([] ++ ["n"])]} (dependencyGraph sealed))
          sealed))
  ∧ (currentTracker sealed = None →
     read 0 0 "n" sealed
     = (if pinned (hasOwnDescriptor (heap sealed) 0 "n")
        then Throws TypeError
        else Normal (VLive (nextId sealed) (RawPath 0 ([] ++ ["n"]))),
        set_nextId (S (nextId sealed)) sealed)).
Proof.
  apply (reading_a_primitive_property 0 7 0 "n"
           {| target := 0; store := 0; base := []; rootRef := 0 |}
           (RNumber 1) sealed); done.
Defined.

(** On the frozen root, the tracked read of [n] returns [1] and the plain
    read throws; on the cart, both return. *)
Lemma primitive_reads_on_a_frozen_root :
  (tracked 1 7 (Get (VProxy 0) "n" Return) sealed).1 = Normal (VRaw (RNumber 1))
  ∧ (read 0 0 "n" sealed).1 = Throws TypeError
  ∧ (read 0 0 "n" cart).1 = Normal (VLive 1 (RawPath 0 ["n"])).
Proof. split_and!; vm_compute; reflexivity. Qed.

(** Branch B4 of the [get] trap: an object that carries no [REF_MARK] is
    handed to [makeProxy] with the path extended by the key. *)
Lemma get_trap_object ev p prop receiver σ m a w c :
  proxies σ !! p = Some m →
  prop ≠ "__raw" → prop ≠ "__isProxy" →
  getDescriptorDeep (heap σ) (target m) prop = Some (Data (RObject a) w c) →
  isRef σ (VRaw (RObject a)) = false →
  get_trap ev p prop receiver σ
  = makeProxy a (store m) (base m ++ [prop]) (rootRef m) σ.
Proof.
  intros Hm Hraw Hisp Hd Href. unfold get_trap.
  rewrite gets_bind, Hm, !bool_decide_false by done. rewrite gets_bind, Hd.
  unfold mbind at 1, M_bind at 1.
  rewrite (Reflect_get_plain _ _ _ _ _ (RObject a)) by (by rewrite Hd).
  by rewrite gets_bind, Href.
Qed.

(** X5.  Reading an object-valued property.  The trap hands the object to
    [makeProxy] and records no dependency, also inside
    [withComponentTracking]: the component's dependency set stays empty.
    The wrapper is the cached one when the object was wrapped before
    (with the path it was first reached by); otherwise it is new, and its
    traps close over the same store and root, and the path extended by the
    key.  The read returns the wrapper, unless the property is an own
    property of the target that is neither writable nor configurable: then
    the host refuses the wrapper and the read throws a [TypeError], after
    the wrapper was made and cached. *)
Theorem reading_an_object_property n id p prop m a w c σ :
  proxies σ !! p = Some m →
  prop ≠ "__raw" → prop ≠ "__isProxy" →
  getDescriptorDeep (heap σ) (target m) prop = Some (Data (RObject a) w c) →
  isRef σ (VRaw (RObject a)) = false →
  ∃ q σ',
    tracked (S n) id (Get (VProxy p) prop Return) σ
    = (if pinned (hasOwnDescriptor (heap σ) (target m) prop)
       then Throws TypeError else Normal (VProxy q), σ')
    ∧ deps_of σ' (CompSym id) = ∅
    ∧ proxyCache σ' !! a = Some q
    ∧ match proxyCache σ !! a with
      | Some q0 => q = q0 ∧ proxies σ' = proxies σ
      | None =>
          q = nextId σ
          ∧ proxies σ' = <[q := {| target := a; store := store m;
                                   base := base m ++ [prop];
                                   rootRef := rootRef m |}]> (proxies σ)
      end.
Proof.
  intros Hm Hraw Hisp Hd Href.
  unfold tracked, withComponentTracking. rewrite !modify_bind.
  unfold finally. simpl. unfold mbind at 1, M_bind at 1. unfold js_get.
  set (σb := set_currentTracker _ _).
  assert (proxies σb !! p = Some m) as Hmb by done.
  pose proof (get_trap_object (exec n) p prop (VProxy p) σb m a w c
                Hmb Hraw Hisp Hd Href) as Htrap.
  unfold makeProxy in Htrap. rewrite gets_bind in Htrap.
  change (proxyCache σb) with (proxyCache σ) in Htrap.
  destruct (proxyCache σ !! a) as [q0|] eqn:Hc.
  - rewrite (proxy_get_checked _ _ _ _ _ m _ _ Hmb Htrap) by done.
    rewrite get_invariant_wrapper. change (heap σb) with (heap σ).
    exists q0. destruct (pinned _); simpl; eexists; (split; [reflexivity|]);
      simpl; unfold deps_of; simpl; by rewrite Map_get_set_eq.
  - simpl in Htrap.
    rewrite (proxy_get_checked _ _ _ _ _ m _ _ Hmb Htrap) by done.
    rewrite get_invariant_wrapper. change (heap σb) with (heap σ).
    exists (nextId σ). destruct (pinned _); simpl; eexists;
      (split; [reflexivity|]); simpl; unfold deps_of; simpl;
      by rewrite Map_get_set_eq, lookup_insert_eq.
Qed.

Lemma reading_an_object_property_witness :
  ∃ q σ',
    tracked 1 7 (Get (VProxy 0) "items" Return) cart
    = (if pinned (hasOwnDescriptor (heap cart) 0 "items")
       then Throws TypeError else Normal (VProxy q), σ')
    ∧ deps_of σ' (CompSym 7) = ∅
    ∧ proxyCache σ' !! 1 = Some q
    ∧ match proxyCache cart !! 1 with
      | Some q0 => q = q0 ∧ proxies σ' = proxies cart
      | None =>
          q = nextId cart
          ∧ proxies σ' = <[q := {| target := 1; store := 0;
                                   base := [] ++ ["items"];
                                   rootRef := 0 |}]> (proxies cart)
      end.
Proof.
  apply (reading_an_object_property 0 7 0 "items"
           {| target := 0; store := 0; base := []; rootRef := 0 |} 1 true true cart);
    done.
Defined.

(** Branch B1 of the [get] trap. *)
Lemma get_trap_ref ev p prop receiver σ m a w c v :
  proxies σ !! p = Some m →
  prop ≠ "__raw" → prop ≠ "__isProxy" →
  getDescriptorDeep (heap σ) (target m) prop = Some (Data (RObject a) w c) →
  isRef σ (VRaw (RObject a)) = true →
  plain_value (getDescriptorDeep (heap σ) a "value") = Some v →
  get_trap ev p prop receiver σ =
    match currentTracker σ with
    | Some t =>
        (Normal (VRaw v),
         set_dependencyGraph
           (graph_add (tracker_id t) (keyOf (base m ++ [prop])) (dependencyGraph σ)) σ)
    | None => (Normal (VRaw v), σ)
    end.
Proof.
  intros Hm Hraw Hisp Hd Href Hv. unfold get_trap.
  rewrite gets_bind, Hm, !bool_decide_false by done. rewrite gets_bind, Hd.
  unfold mbind at 1, M_bind at 1.
  rewrite (Reflect_get_plain _ _ _ _ _ (RObject a)) by (by rewrite Hd).
  rewrite gets_bind, Href. unfold trackDep. rewrite bind_assoc, gets_bind.
  destruct (currentTracker σ) as [t|].
  - unfold mbind at 1, M_bind at 1. rewrite depsAdd_eq.
    unfold mbind, M_bind. simpl.
    by rewrite (Reflect_get_plain _ _ _ _ _ v) by done.
  - rewrite !mret_bind. by rewrite (Reflect_get_plain _ _ _ _ _ v) by done.
Qed.

(** X6.  Reading a property that holds [ref(v)].  The trap hands out [v]
    itself, whatever it is: no wrapper is made for it and no live
    primitive, so outside a scope the module state does not change at all;
    inside a scope the path of the property is recorded.  The read returns
    [v], unless the property is an own property of the target that is
    neither writable nor configurable: the host then expects the stored
    ref object, and the read throws a [TypeError] (except for a ref that
    holds itself). *)
Theorem reading_a_ref_unwraps_it n p prop σ m a w c v :
  proxies σ !! p = Some m →
  prop ≠ "__raw" → prop ≠ "__isProxy" →
  getDescriptorDeep (heap σ) (target m) prop = Some (Data (RObject a) w c) →
  isRef σ (VRaw (RObject a)) = true →
  plain_value (getDescriptorDeep (heap σ) a "value") = Some v →
  read n p prop σ
  = (if get_invariant (hasOwnDescriptor (heap σ) (target m) prop) (VRaw v)
     then Normal (VRaw v) else Throws TypeError,
     match currentTracker σ with
     | Some t =>
         set_dependencyGraph
           (graph_add (tracker_id t) (keyOf (base m ++ [prop])) (dependencyGraph σ)) σ
     | None => σ
     end).
Proof.
  intros Hm Hraw Hisp Hd Href Hv. unfold read.
  pose proof (get_trap_ref (exec n) p prop (VProxy p) σ m a w c v
                Hm Hraw Hisp Hd Href Hv) as Htrap.
  destruct (currentTracker σ) as [t|];
    by rewrite (proxy_get_checked _ _ _ _ _ m _ _ Hm Htrap).
Qed.

Lemma reading_a_ref_unwraps_it_witness :
  read 0 0 "box" boxed
  = (if get_invariant (hasOwnDescriptor (heap boxed) 0 "box") (VRaw (RObject 2))
     then Normal (VRaw (RObject 2)) else Throws TypeError,
     match currentTracker boxed with
     | Some t =>
         set_dependencyGraph
           (graph_add (tracker_id t) (keyOf ([] ++ ["box"])) (dependencyGraph boxed))
           boxed
     | None => boxed
     end).
Proof.
  apply (reading_a_ref_unwraps_it 0 0 "box" boxed
           {| target := 0; store := 0; base := []; rootRef := 0 |} 1 true true
           (RObject 2)); done.
Defined.

(** ** [getStoreFor] *)

(** X7.  [getStoreFor] changes nothing.  For a wrapper, root or nested,
    it returns the store filed under the wrapper's target in [storeOfRoot]
    when there is one, and the store the wrapper's traps notify otherwise;
    the one wrapper it does not accept is that of a target with an own
    property [__raw] that is neither writable nor configurable and holds
    something else than the target: there the read of [__raw] throws a
    [TypeError].  On an object that is not a wrapper and has no [__raw]
    property it returns the store the object is the root of, and throws
    when there is none. *)
Theorem getStoreFor_finds_the_store n σ :
  wf σ →
  (∀ p m, proxies σ !! p = Some m →
     storeFor n (VProxy p) σ
     = (if get_invariant (hasOwnDescriptor (heap σ) (target m) "__raw")
             (VRaw (RObject (target m)))
        then Normal (default (store m) (storeOfRoot σ !! target m))
        else Throws TypeError, σ))
  ∧ (∀ a, plain_value (getDescriptorDeep (heap σ) a "__raw") = Some RUndefined →
       storeFor n (VRaw (RObject a)) σ
       = (match storeOfRoot σ !! a with
          | Some s => Normal s
          | None => Throws (VRaw (RString
              "useSnapshot() expects a value created by proxy() (root or nested)."))
          end, σ)).
Proof.
  intros (_ & _ & Hidx & _). split.
  - intros p m Hm. unfold storeFor, getStoreFor, js_get.
    unfold mbind at 1, M_bind at 1.
    rewrite (proxy_get_checked _ _ _ _ _ m (VRaw (RObject (target m))) σ Hm);
      [| |done].
    2:{ unfold get_trap. by rewrite gets_bind, Hm. }
    destruct (get_invariant _ _); [|done].
    rewrite gets_bind. destruct (storeOfRoot σ !! target m); [done|].
    rewrite gets_bind. by rewrite (Hidx _ _ Hm).
  - intros a Ha. unfold storeFor, getStoreFor, js_get.
    unfold mbind at 1, M_bind at 1. rewrite (Reflect_get_plain _ _ _ _ _ _ Ha).
    rewrite gets_bind. destruct (storeOfRoot σ !! a); [done|].
    by rewrite gets_bind.
Qed.

Lemma getStoreFor_finds_the_store_witness :
  (∀ p m, proxies cart !! p = Some m →
     storeFor 0 (VProxy p) cart
     = (if get_invariant (hasOwnDescriptor (heap cart) (target m) "__raw")
             (VRaw (RObject (target m)))
        then Normal (default (store m) (storeOfRoot cart !! target m))
        else Throws TypeError, cart))
  ∧ (∀ a, plain_value (getDescriptorDeep (heap cart) a "__raw") = Some RUndefined →
       storeFor 0 (VRaw (RObject a)) cart
       = (match storeOfRoot cart !! a with
          | Some s => Normal s
          | None => Throws (VRaw (RString
              "useSnapshot() expects a value created by proxy() (root or nested)."))
          end, cart)).
Proof.
  apply (getStoreFor_finds_the_store 0 cart).
  apply proxy_wf, wf_boot.
Defined.

(** ** Computed entries are keyed by path *)

Lemma ensureComputed_leaves_no_scope n absPath runner σ k σ' :
  ensureComputed (exec n) absPath runner σ = (Normal k, σ') →
  currentTracker σ = None →
  currentTracker σ' = None.
Proof.
  unfold ensureComputed. rewrite gets_bind. intros H Ht.
  apply bind_Normal in H as (u & σ1 & H1 & H). injection H as _ <-.
  case_bool_decide as Hreg.
  - by injection H1 as _ <-.
  - rewrite modify_bind in H1.
    eapply runComputed_exit_clears_scope; [|exact H1|done].
    unfold registered. simpl. rewrite lookup_insert_eq. by eexists.
Qed.

(** A read of a getter outside any scope, used as a value. *)
Lemma readValue_computed_inv n σ p prop m g c v σ1 :
  proxies σ !! p = Some m →
  prop ≠ "__raw" → prop ≠ "__isProxy" →
  getDescriptorDeep (heap σ) (target m) prop = Some (Accessor (Some g) c) →
  currentTracker σ = None →
  readValue n p prop σ = (Normal v, σ1) →
  ∃ σa entry,
    steps None σ σa
    ∧ computedRegistry σa !! computedKeyForPath (keyOf (base m ++ [prop])) = Some entry
    ∧ currentTracker σa = None
    ∧ v = last entry
    ∧ σ1 = set_nextId (S (nextId σa)) σa.
Proof.
  intros Hm Hraw Hisp Hdesc Ht H. unfold readValue in H.
  apply bind_Normal in H as (lv & σb & Hread & Hres).
  rewrite (read_getter _ _ _ _ _ _ _ Hm Hdesc) in Hread. unfold get_trap in Hread.
  rewrite gets_bind, Hm, !bool_decide_false in Hread by done.
  rewrite gets_bind, Hdesc in Hread.
  apply bind_Normal in Hread as (k & σa & Hens & Hread).
  pose proof (ensureComputed_leaves_no_scope _ _ _ _ _ _ Hens Ht) as Hta.
  apply ensureComputed_inv in Hens as (-> & [entry Hentry] & Hsteps).
  rewrite gets_bind, Hta in Hread. injection Hread as <- <-.
  exists σa, entry. split; [done|]. split; [done|]. split; [done|].
  unfold resolve, live_access, live_read in Hres.
  rewrite !bind_assoc, !gets_bind in Hres. simpl in Hres.
  rewrite Hentry, !mret_bind in Hres.
  unfold trackDep in Hres. rewrite bind_assoc, gets_bind in Hres.
  simpl in Hres. rewrite Hta in Hres. by injection Hres as <- <-.
Qed.

(** X8.  [computedRegistry] is keyed by the path of a getter alone.  Two
    getters whose wrappers give them the same path key (two stores each with
    a getter of the same name at the root, say) share one entry: once the
    first was read, reading the second outside any scope runs no evaluation
    function and returns the value memoized for the first. *)
Theorem getters_with_one_path_share_one_entry
    n σ p q mp mq prop prop' g g' c c' v σ1 :
  ids_fresh σ →
  proxies σ !! p = Some mp →
  proxies σ !! q = Some mq →
  keyOf (base mq ++ [prop']) = keyOf (base mp ++ [prop]) →
  prop ≠ "__raw" → prop ≠ "__isProxy" →
  prop' ≠ "__raw" → prop' ≠ "__isProxy" →
  getDescriptorDeep (heap σ) (target mp) prop = Some (Accessor (Some g) c) →
  getDescriptorDeep (heap σ) (target mq) prop' = Some (Accessor (Some g') c') →
  currentTracker σ = None →
  readValue n p prop σ = (Normal v, σ1) →
  ∃ σ2, readValue n q prop' σ1 = (Normal v, σ2) ∧ new_events σ1 σ2 = [].
Proof.
  intros Hfresh Hp Hq Hkey Hraw Hisp Hraw' Hisp' Hd Hd' Ht H.
  destruct (readValue_computed_inv _ _ _ _ _ _ _ _ _ Hp Hraw Hisp Hd Ht H)
    as (σa & entry & Hsteps & Hentry & Hta & -> & ->).
  destruct (steps_proxies _ _ _ Hsteps Hfresh) as [_ Hkeep].
  pose proof (steps_heap _ _ _ Hsteps) as Hheap.
  set (σ1 := set_nextId (S (nextId σa)) σa).
  assert (read n q prop' σ1
          = (Normal (VLive (nextId σ1)
                       (ComputedPath (computedKeyForPath (keyOf (base mq ++ [prop']))))),
             set_nextId (S (nextId σ1)) σ1)) as Hread.
  { rewrite (read_getter n q prop' σ1 mq g' c');
      [|by apply Hkeep|by simpl; rewrite Hheap].
    rewrite (get_trap_registered _ _ _ _ _ mq g' c' entry); simpl;
      [by rewrite Hta | by apply Hkeep | done | done | by rewrite Hheap
      | by rewrite Hkey]. }
  eexists. split.
  - unfold readValue. unfold mbind at 1, M_bind at 1. rewrite Hread.
    unfold resolve, live_access, live_read.
    rewrite !bind_assoc, !gets_bind. simpl. rewrite Hkey, Hentry, !mret_bind.
    unfold trackDep. rewrite bind_assoc, gets_bind. simpl. rewrite Hta.
    reflexivity.
  - apply new_events_app. simpl. by rewrite app_nil_r.
Qed.

Lemma getters_with_one_path_share_one_entry_witness :
  ∃ σ2, readValue 1 1 "total" (after (readValue 1 0 "total") twins)
        = (Normal (VRaw (RNumber 1)), σ2)
        ∧ new_events (after (readValue 1 0 "total") twins) σ2 = [].
Proof.
  apply (getters_with_one_path_share_one_entry 1 twins 0 1
           {| target := 0; store := 0; base := []; rootRef := 0 |}
           {| target := 1; store := 1; base := []; rootRef := 1 |}
           "total" "total"
           (λ _, Return (VRaw (RNumber 1))) (λ _, Return (VRaw (RNumber 2)))
           true true).
  - refine (bool_decide_unpack _ _). vm_compute. exact I.
  - vm_compute. reflexivity.
  - vm_compute. reflexivity.
  - reflexivity.
  - discriminate.
  - discriminate.
  - discriminate.
  - discriminate.
  - vm_compute. reflexivity.
  - vm_compute. reflexivity.
  - reflexivity.
  - vm_compute. reflexivity.
Defined.

(** ** What an assignment stores *)

Lemma hasOwnDescriptor_insert h a o ps prop :
  hasOwnDescriptor (<[a := set_props ps o]> h) a prop = ps !! prop.
Proof. unfold hasOwnDescriptor. by rewrite lookup_insert_eq. Qed.

Lemma stored_value_other o prop v :
  is_array o && bool_decide (prop = "length") = false → stored_value o prop v = v.
Proof. unfold stored_value. by intros ->. Qed.

Lemma define_value_Done h a o prop v w c ok h' :
  define_value h a o prop v w c = Done ok h' →
  (∀ a', a' ≠ a → h' !! a' = h !! a')
  ∧ if ok
    then ∃ w' c', hasOwnDescriptor h' a prop = Some (Data (stored_value o prop v) w' c')
    else h' = h ∨ (is_array o = true ∧ prop = "length").
Proof.
  unfold define_value. intros H.
  destruct (is_array o) eqn:Harr.
  2:{ injection H as <- <-. split; [by intros; rewrite lookup_insert_ne|].
      rewrite hasOwnDescriptor_insert, lookup_insert_eq, stored_value_other; eauto.
      by rewrite Harr. }
  case_bool_decide as Hlen.
  - subst prop. unfold stored_value. rewrite Harr, bool_decide_true by done. simpl.
    destruct (toArrayLength v) as [len| | |]; [|done..].
    unfold set_array_length in H. injection H as <- <-.
    split; [by intros; rewrite lookup_insert_ne|].
    case_bool_decide as Hstuck; [|by right].
    rewrite Hstuck, hasOwnDescriptor_insert, lookup_insert_eq. eauto.
  - assert (stored_value o prop v = v) as ->.
    { apply stored_value_other. rewrite Harr. by apply bool_decide_eq_false. }
    destruct (array_index prop) as [i|].
    + destruct (i <? array_length o).
      * injection H as <- <-. split; [by intros; rewrite lookup_insert_ne|].
        rewrite hasOwnDescriptor_insert, lookup_insert_eq. eauto.
      * destruct (length_writable o); injection H as <- <-; [|by split; [|left]].
        split; [by intros; rewrite lookup_insert_ne|].
        rewrite hasOwnDescriptor_insert, lookup_insert_ne by done.
        rewrite lookup_insert_eq. eauto.
    + injection H as <- <-. split; [by intros; rewrite lookup_insert_ne|].
      rewrite hasOwnDescriptor_insert, lookup_insert_eq. eauto.
Qed.

Lemma Reflect_set_Done h a o prop v ok h' :
  h !! a = Some o →
  Reflect_set h a prop v = Done ok h' →
  (∀ a', a' ≠ a → h' !! a' = h !! a')
  ∧ if ok
    then ∃ w c, hasOwnDescriptor h' a prop = Some (Data (stored_value o prop v) w c)
    else h' = h ∨ (is_array o = true ∧ prop = "length").
Proof.
  unfold Reflect_set. intros Ho H. rewrite Ho in H.
  repeat match type of H with
         | (if ?b then _ else _) = _ => destruct b eqn:?
         | match ?x with _ => _ end = _ => destruct x eqn:?
         | define_value _ _ _ _ _ _ _ = _ => apply define_value_Done in H
         end;
    simplify_eq; try done; by (split; [done|left]).
Qed.

Lemma set_trap_heap n σ p prop v m o ok σ' :
  proxies σ !! p = Some m →
  heap σ !! target m = Some o →
  assign n p prop v σ = (Normal ok, σ') →
  (∀ a, a ≠ target m → heap σ' !! a = heap σ !! a)
  ∧ if ok
    then ∃ w c, hasOwnDescriptor (heap σ') (target m) prop
                = Some (Data (stored_value o prop v) w c)
    else heap σ' = heap σ ∨ (is_array o = true ∧ prop = "length").
Proof.
  intros Hm Ho H. unfold assign, set_trap in H.
  rewrite gets_bind, Hm, gets_bind in H.
  destruct (Reflect_set (heap σ) (target m) prop v) as [ok' h'|e|] eqn:Hset;
    [|done..].
  rewrite modify_bind in H.
  destruct (notifyPathChange_trace (exec n) (exec_steps n) n (store m)
              (base m ++ [prop]) (set_heap h' σ)) as (_ & _ & _ & _ & Hheap).
  unfold after in Hheap.
  apply bind_Normal in H as (u & σ1 & Hpass & H). injection H as <- <-.
  rewrite Hpass in Hheap. simpl in Hheap. rewrite Hheap.
  by apply (Reflect_set_Done _ _ o).
Qed.

(** X9.  What an assignment through the wrapper leaves in the data.  When
    the trap reports success the target object holds the new value as an
    own data property under the key; the one conversion is that of the
    [length] of an array, which holds the number the value converts to
    ([items.length = "1"] stores [1]).  When the trap reports failure the
    data is unchanged, unless the write was to the [length] of an array
    (an element that cannot be deleted stops the truncation half way).
    Either way no other object changes, whatever the recomputation pass
    went on to run. *)
Theorem assignment_stores_value_or_nothing n σ p prop v m o ok σ' :
  proxies σ !! p = Some m →
  heap σ !! target m = Some o →
  assign n p prop v σ = (Normal ok, σ') →
  (∀ a, a ≠ target m → heap σ' !! a = heap σ !! a)
  ∧ if ok
    then ∃ w c, hasOwnDescriptor (heap σ') (target m) prop
                = Some (Data (stored_value o prop v) w c)
    else heap σ' = heap σ ∨ (is_array o = true ∧ prop = "length").
Proof. apply set_trap_heap. Qed.

Lemma assignment_stores_value_or_nothing_witness :
  (∀ a, a ≠ 1 →
     heap (after (assign 5 1 "length" (RString "1")) cart_length_subscribed) !! a
     = heap cart_length_subscribed !! a)
  ∧ ∃ w c,
      hasOwnDescriptor
        (heap (after (assign 5 1 "length" (RString "1")) cart_length_subscribed))
        1 "length"
      = Some (Data (stored_value (array [RNumber 10; RNumber 20]) "length"
                      (RString "1")) w c).
Proof.
  apply (assignment_stores_value_or_nothing 5 cart_length_subscribed 1 "length"
           (RString "1")
           {| target := 1; store := 0; base := ["items"]; rootRef := 0 |}
           (array [RNumber 10; RNumber 20]) true).
  - vm_compute. reflexivity.
  - vm_compute. reflexivity.
  - vm_compute. reflexivity.
Defined.

(** The values that the examples store: a number as it is, and the
    [length] of an array as a number. *)
Lemma stored_value_examples :
  stored_value (array [RNumber 10; RNumber 20]) "length" (RString "1") = RNumber 1
  ∧ stored_value (array [RNumber 10; RNumber 20]) "length" (RBool true) = RNumber 1
  ∧ stored_value (array [RNumber 10; RNumber 20]) "0" (RString "1") = RString "1"
  ∧ (assign 5 1 "length" (RNumber 4294967296) cart_length_subscribed).1
    = Throws RangeError
  ∧ (assign 5 1 "length" RUndefined cart_length_subscribed).1 = Throws RangeError
  ∧ (assign 5 1 "length" (RSymbol 0) cart_length_subscribed).1 = Throws TypeError.
Proof. split_and!; vm_compute; reflexivity. Qed.

(** ** Live primitives *)

Lemma lookup_path_app h r (p1 p2 : Path) :
  lookup_path h r (p1 ++ p2) = lookup_path h r p1 ≫= λ r', lookup_path h r' p2.
Proof.
  revert r. induction p1 as [|k p1 IH]; intros r; simpl; [done|].
  destruct r; try apply IH.
  destruct (plain_value _); simpl; [apply IH | done].
Qed.

(** [getValueAtPath] along data properties calls no user code and leaves
    the state alone. *)
Lemma getValueAtPath_lookup ev σ r path v :
  lookup_path (heap σ) r path = Some v →
  getValueAtPath ev (VRaw r) path σ = (Normal (VRaw v), σ).
Proof.
  revert r. induction path as [|k path IH]; intros r; simpl.
  - by intros [= ->].
  - destruct r; simpl; try (rewrite mret_bind; apply IH).
    destruct (plain_value _) as [x|] eqn:Hx; simpl; [|done].
    intros H. unfold mbind, M_bind. rewrite (Reflect_get_plain _ _ _ _ _ x Hx).
    by apply IH.
Qed.

(** X10.  A live primitive reads through to the data.  After a successful
    assignment to a property of a wrapper whose path still leads from the
    root to its target, calling the live primitive of that property returns
    what the assignment stored (the value written, or for the [length] of
    an array the number it converts to), whenever the live primitive was
    made. *)
Theorem live_primitive_returns_the_value_written n σ p m o prop v σ' f :
  proxies σ !! p = Some m →
  heap σ !! target m = Some o →
  assign n p prop v σ = (Normal true, σ') →
  lookup_path (heap σ') (RObject (rootRef m)) (base m) = Some (RObject (target m)) →
  (resolve (exec n) (VLive f (RawPath (rootRef m) (base m ++ [prop]))) σ').1
  = Normal (VRaw (stored_value o prop v)).
Proof.
  intros Hm Ho H Hpath.
  destruct (set_trap_heap n σ p prop v m o true σ' Hm Ho H) as (_ & w & c & Hown).
  assert (lookup_path (heap σ') (RObject (rootRef m)) (base m ++ [prop])
          = Some (stored_value o prop v)) as Hv.
  { rewrite lookup_path_app, Hpath. simpl.
    by rewrite (getDescriptorDeep_own _ _ _ _ Hown). }
  unfold resolve, live_access, live_read.
  unfold mbind at 1, M_bind at 1.
  rewrite (getValueAtPath_lookup _ _ _ _ _ Hv).
  unfold trackDep. rewrite bind_assoc, gets_bind.
  destruct (currentTracker σ'); [|done].
  unfold mbind, M_bind. by rewrite depsAdd_eq.
Qed.

Lemma live_primitive_returns_the_value_written_witness :
  (resolve (exec 5) (VLive 9 (RawPath 0 (["items"] ++ ["length"])))
     (after (assign 5 1 "length" (RString "1")) cart_length_subscribed)).1
  = Normal (VRaw (stored_value (array [RNumber 10; RNumber 20]) "length"
                    (RString "1"))).
Proof.
  apply (live_primitive_returns_the_value_written 5 cart_length_subscribed 1
           {| target := 1; store := 0; base := ["items"]; rootRef := 0 |}
           (array [RNumber 10; RNumber 20])
           "length" (RString "1")
           (after (assign 5 1 "length" (RString "1")) cart_length_subscribed) 9).
  - vm_compute. reflexivity.
  - vm_compute. reflexivity.
  - vm_compute. reflexivity.
  - vm_compute. reflexivity.
Defined.

(** ** Listeners *)

Lemma Map_get_delete {V} (k : nat) (m : list (nat * V)) :
  Map_get k (Map_delete k m) = None.
Proof.
  unfold Map_delete. induction m as [|[k' v] m IH]; [done|].
  rewrite filter_cons. simpl. destruct (decide (k' ≠ k)) as [Hne|Heq]; [|done].
  simpl. by rewrite decide_False.
Qed.

Lemma Map_get_set_eq_nat {V} (k : nat) (v : V) (m : list (nat * V)) :
  Map_get k (Map_set k v m) = Some v.
Proof.
  induction m as [|[k' v'] m IH]; simpl.
  - by rewrite decide_True.
  - destruct (decide (k' = k)) as [->|Hk]; simpl.
    + by rewrite decide_True.
    + by rewrite decide_False.
Qed.

(** A listener call during a pass of store [s] is a call of the listener
    that the store holds for the component. *)
Lemma pass_calls_subscribers n d s path σ s' id cb :
  EvPing s' id cb ∈ new_events σ (after (notifyPathChange (exec d) n s path) σ) →
  s' = s ∧ ∃ l, listener_of (stores σ) s id = Some l ∧ label l = cb.
Proof.
  unfold after.
  destruct (notifyPathChange (exec d) n s path σ) as [r σ'] eqn:H. simpl.
  apply notifyPathChange_inv in H as (r1 & σ1 & Hrec & H).
  pose proof (recomputeAffectedComputeds_pass (exec d) (exec_steps d) n
                [keyOf path] (set_trace (trace σ ++ [EvNotify s path]) σ))
    as [_ Hstores [ks Ht] _ _].
  rewrite Hrec in Hstores, Ht. simpl in *.
  assert (∀ σ'', trace σ'' = trace σ1 → EvPing s' id cb ∉ new_events σ σ'')
    as Haborted.
  { intros σ'' Hσ''.
    rewrite (new_events_app σ _ (EvNotify s path :: map EvRun ks)).
    - intros [?|(k & ? & _)%list_elem_of_fmap]%elem_of_cons; discriminate.
    - rewrite Hσ'', Ht, <- app_assoc. done. }
  destruct r1 as [cc|e|]; destruct H as [_ ->].
  2,3: intros Hin; by apply Haborted in Hin.
  rewrite (new_events_app σ _
             (EvNotify s path :: map EvRun ks
              ++ (ping_loop (stores σ1) s (keyOf path) cc (dependencyGraph σ1)).1)).
  2:{ simpl. rewrite Ht, <- !app_assoc. done. }
  rewrite elem_of_cons, elem_of_app, list_elem_of_fmap.
  intros [?|[(k & ? & _)|Hin]]; [discriminate..|].
  apply elem_of_ping_loop in Hin as (j & entry & _ & Hin & _).
  apply elem_of_ping_of in Hin as (-> & _ & _ & Hcb).
  by rewrite Hstores in Hcb.
Qed.

(** X11.  A store calls the listener it currently holds for a component, and
    only that one.  After [subscribeComponent(id, cb)] every call made for
    [id] during a pass of that store is a call of [cb], also when another
    listener was registered for [id] before; after the function returned
    by [subscribeComponent] has run, a pass of that store makes no call
    for [id], although the component's dependency set is still in
    [dependencyGraph]. *)
Theorem store_calls_the_current_listener_only n d s id path σ :
  (∀ (cb : listener) s' cb',
     EvPing s' id cb'
       ∈ new_events (after (subscribeComponent s id cb) σ)
           (after (notifyPathChange (exec d) n s path)
              (after (subscribeComponent s id cb) σ)) →
     s' = s ∧ cb' = label cb)
  ∧ (∀ s' cb',
       EvPing s' id cb'
         ∉ new_events (after (unsubscribeComponent s id) σ)
             (after (notifyPathChange (exec d) n s path)
                (after (unsubscribeComponent s id) σ)))
  ∧ dependencyGraph (after (unsubscribeComponent s id) σ) = dependencyGraph σ.
Proof.
  split; [|split; [|done]].
  - intros cb s' cb' Hin.
    apply pass_calls_subscribers in Hin as [-> (l & Hcb & <-)]. split; [done|].
    unfold listener_of, after, subscribeComponent, modify in Hcb. simpl in Hcb.
    rewrite list_lookup_alter, decide_True in Hcb by done.
    destruct (stores σ !! s) as [st|]; [|done]. simpl in Hcb.
    rewrite Map_get_set_eq_nat in Hcb. by injection Hcb as ->.
  - intros s' cb' Hin.
    apply pass_calls_subscribers in Hin as [-> (l & Hcb & _)].
    unfold listener_of, after, unsubscribeComponent, modify in Hcb. simpl in Hcb.
    rewrite list_lookup_alter, decide_True in Hcb by done.
    destruct (stores σ !! s) as [st|]; [|done]. simpl in Hcb.
    by rewrite Map_get_delete in Hcb.
Qed.

(** The components with an entry in the graph. *)
Lemma pinged_ids_sublist sts s changedRaw cc (g : list (CompId * gset DepKey)) :
  omap ping_id (flat_map (ping_of sts s changedRaw cc) g)
  `sublist_of` omap (λ c, match c with CompSym id => Some id | _ => None end) g.*1.
Proof.
  induction g as [|[c deps] g IH]; simpl; [done|].
  rewrite omap_app. unfold ping_of at 1. simpl.
  destruct c as [k|id]; simpl; [done|].
  destruct (shouldPing _ _ _); simpl; [|by apply sublist_cons].
  destruct (listener_of sts s id); simpl;
    [by apply sublist_skip | by apply sublist_cons].
Qed.

Lemma called_ids_sublist sts s changedRaw cc (g : list (CompId * gset DepKey)) :
  omap ping_id (ping_loop sts s changedRaw cc g).1
  `sublist_of` omap (λ c, match c with CompSym id => Some id | _ => None end) g.*1.
Proof.
  etrans; [|apply pinged_ids_sublist].
  destruct (ping_loop_prefix sts s changedRaw cc g) as [rest ->].
  rewrite omap_app. by apply sublist_inserts_r.
Qed.

Lemma omap_NoDup_inj {A B} (f : A → option B) (l : list A) :
  (∀ x y b, f x = Some b → f y = Some b → x = y) →
  NoDup l → NoDup (omap f l).
Proof.
  intros Hinj. induction 1 as [|x l Hx Hnd IH]; simpl; [constructor|].
  destruct (f x) as [b|] eqn:Hb; [|done].
  constructor; [|done].
  intros (y & Hy & Hfy)%list_elem_of_omap.
  by rewrite (Hinj _ _ _ Hb Hfy) in Hx.
Qed.

(** X12.  A pass calls each component at most once.  Whatever a write
    changed, and however many of the computeds a component read were
    re-run, the listener calls of one pass are for pairwise different
    components. *)
Theorem pass_calls_each_component_at_most_once n d s path σ :
  wf σ →
  NoDup (omap ping_id
           (new_events σ (after (notifyPathChange (exec d) n s path) σ))).
Proof.
  intros Hwf. unfold after.
  pose proof (drainQueue_tame (exec d) (exec_tame d) n
                {| queue := [keyOf path]; seen := list_to_set [keyOf path];
                   changedComputed := ∅ |}
                (set_trace (trace σ ++ [EvNotify s path]) σ)) as Htame.
  destruct (notifyPathChange (exec d) n s path σ) as [r σ'] eqn:H. simpl.
  apply notifyPathChange_inv in H as (r1 & σ1 & Hrec & H).
  pose proof (recomputeAffectedComputeds_pass (exec d) (exec_steps d) n
                [keyOf path] (set_trace (trace σ ++ [EvNotify s path]) σ))
    as [_ _ [ks Ht] _ _].
  unfold recomputeAffectedComputeds in Hrec, Ht. rewrite Hrec in Htame, Ht.
  simpl in Htame, Ht.
  destruct Htame as ((_ & _ & _ & Hnd & _) & _).
  { by apply (tame_log σ (EvNotify s path)). }
  assert (omap ping_id (EvNotify s path :: map EvRun ks) = []) as Hnone.
  { simpl. clear. induction ks as [|k ks IH]; [done|]. simpl. exact IH. }
  destruct r1 as [cc|e|]; destruct H as [_ ->].
  2,3: rewrite (new_events_app σ _ (EvNotify s path :: map EvRun ks))
         by (by rewrite Ht, <- app_assoc);
       rewrite Hnone; constructor.
  rewrite (new_events_app σ _
             ((EvNotify s path :: map EvRun ks)
              ++ (ping_loop (stores σ1) s (keyOf path) cc (dependencyGraph σ1)).1)).
  2:{ simpl. rewrite Ht, <- !app_assoc. done. }
  rewrite omap_app, Hnone. simpl.
  eapply sublist_NoDup; [|apply called_ids_sublist].
  apply omap_NoDup_inj; [|exact Hnd].
  intros [k1|i1] [k2|i2] b; simpl; congruence.
Qed.

Lemma pass_calls_each_component_at_most_once_witness :
  NoDup (omap ping_id
           (new_events cart_sign_subscribed
              (after (notifyPathChange (exec 5) 40 0 ["n"]) cart_sign_subscribed))).
Proof.
  apply (pass_calls_each_component_at_most_once 40 5 0 ["n"] cart_sign_subscribed).
  apply (subscribeComponent_wf 0 7 70), (withComponentTracking_wf 5 7 only_sign),
    (readValue_wf 5 0 "sign" cart), (proxy_wf 0 (boot cart_heap)), wf_boot.
Defined.

(** ** More on the write pass *)

Lemma key_with_dot_splits (p : Path) (x y : string) :
  keyOf (p ++ [x +:+ "." +:+ y]) = keyOf (p ++ [x; y]).
Proof.
  destruct p as [|z p]; [done|].
  by rewrite !(keyOf_app (z :: p)) by done.
Qed.

(** X13.  [keyOf] joins with ["."] and does not escape: a property whose
    name contains a dot has the key of the nested path, so the two are one
    dependency to both invalidation loops. *)
Theorem key_of_dotted_name_is_key_of_nested_path (p : Path) (x y : string) :
  keyOf (p ++ [x +:+ "." +:+ y]) = keyOf (p ++ [x; y])
  ∧ matches (keyOf (p ++ [x +:+ "." +:+ y])) (keyOf (p ++ [x; y])) = true.
Proof.
  split; [apply key_with_dot_splits|].
  unfold matches. by rewrite key_with_dot_splits, String.eqb_refl.
Qed.

(** X14.  Live primitives are not cached.  Outside any scope, two reads of
    the same primitive property return two live primitives bound to the
    same path that are different values (not [Object.is]-equal), unlike
    two reads of an object property, which return one wrapper.  (The
    property is not an own property of the target that is neither writable
    nor configurable: a read of such a property throws.) *)
Theorem live_primitives_are_made_anew n p prop m v σ :
  proxies σ !! p = Some m →
  prop ≠ "__raw" → prop ≠ "__isProxy" →
  plain_value (getDescriptorDeep (heap σ) (target m) prop) = Some v →
  isPrimitive (VRaw v) = true →
  pinned (hasOwnDescriptor (heap σ) (target m) prop) = false →
  currentTracker σ = None →
  ∃ r1 σ1 r2 σ2,
    read n p prop σ = (Normal r1, σ1)
    ∧ read n p prop σ1 = (Normal r2, σ2)
    ∧ isLivePrimitiveGuard r1 = true ∧ isLivePrimitiveGuard r2 = true
    ∧ Object_is r1 r2 = false.
Proof.
  intros Hm Hraw Hisp Hv Hprim Hfree Ht. unfold read.
  rewrite (proxy_get_primitive _ _ _ _ _ m v) by done. rewrite Ht, Hfree.
  eexists _, _, _, _. split; [reflexivity|].
  rewrite (proxy_get_primitive _ _ _ _ _ m v) by done. simpl. rewrite Ht, Hfree.
  split; [reflexivity|]. split; [done|]. split; [done|].
  apply bool_decide_eq_false. intros [= Heq]. lia.
Qed.

Lemma live_primitives_are_made_anew_witness :
  ∃ r1 σ1 r2 σ2,
    read 0 0 "n" cart = (Normal r1, σ1)
    ∧ read 0 0 "n" σ1 = (Normal r2, σ2)
    ∧ isLivePrimitiveGuard r1 = true ∧ isLivePrimitiveGuard r2 = true
    ∧ Object_is r1 r2 = false.
Proof.
  apply (live_primitives_are_made_anew 0 0 "n"
           {| target := 0; store := 0; base := []; rootRef := 0 |}
           (RNumber 1) cart); done.
Defined.

(** X15.  The recomputation comes first.  The events of a pass are its
    start, then the calls of evaluation functions that
    [recomputeAffectedComputeds] makes, and only then, if at all, a
    listener call: no listener is called before the recomputation has
    returned, and none at all when it throws. *)
Theorem pass_evaluates_before_it_calls n d s path σ :
  ∃ r σ1 ks rest,
    recomputeAffectedComputeds (exec d) n [keyOf path]
      (set_trace (trace σ ++ [EvNotify s path]) σ) = (r, σ1)
    ∧ new_events σ σ1 = EvNotify s path :: map EvRun ks
    ∧ new_events σ (after (notifyPathChange (exec d) n s path) σ)
      = EvNotify s path :: map EvRun ks ++ rest
    ∧ match rest with
      | [] => True
      | e :: _ => isPing e = true
      end
    ∧ ((∀ cc, r ≠ Normal cc) → rest = []).
Proof.
  unfold after.
  destruct (notifyPathChange (exec d) n s path σ) as [r σ'] eqn:H. simpl.
  apply notifyPathChange_inv in H as (r1 & σ1 & Hrec & H).
  pose proof (recomputeAffectedComputeds_pass (exec d) (exec_steps d) n
                [keyOf path] (set_trace (trace σ ++ [EvNotify s path]) σ))
    as [_ _ [ks Ht] _ _].
  rewrite Hrec in Ht. simpl in Ht.
  assert (new_events σ σ1 = EvNotify s path :: map EvRun ks) as Hfirst.
  { apply new_events_app. rewrite Ht, <- app_assoc. done. }
  exists r1, σ1, ks.
  destruct r1 as [cc|e|]; destruct H as [_ ->].
  - exists (ping_loop (stores σ1) s (keyOf path) cc (dependencyGraph σ1)).1.
    split; [done|]. split; [done|]. split; [|split].
    + apply new_events_app. simpl. rewrite Ht, <- !app_assoc. done.
    + pose proof (ping_loop_pings (stores σ1) s (keyOf path) cc (dependencyGraph σ1))
        as Hp.
      destruct (ping_loop _ _ _ _ _).1 as [|x rest]; [done|].
      apply Forall_cons in Hp as [(? & ? & ? & ->) _]. done.
    + intros Hne. by destruct (Hne cc).
  - exists []. rewrite app_nil_r. done.
  - exists []. rewrite app_nil_r. done.
Qed.

(** *** An evaluation function that throws during the pass *)

Lemma visitTracker_skips ev changed c deps w σ :
  match c with
  | CompKey k =>
      Set_some (λ d, matches d changed) deps = false ∨ computedRegistry σ !! k = None
  | CompSym _ => True
  end →
  visitTracker ev changed c deps w σ = (Normal w, σ).
Proof.
  unfold visitTracker. destruct c as [k|id]; [|done].
  intros [-> | Hnone]; [done|].
  destruct (Set_some _ deps); [|done]. simpl. by rewrite gets_bind, Hnone.
Qed.

(** The scan up to the first entry it re-runs, when that run throws. *)
Lemma scanTrackers_throws ev n i changed w σ j k deps entry e σc :
  i ≤ j → j < n + i →
  dependencyGraph σ !! j = Some (CompKey k, deps) →
  Set_some (λ d, matches d changed) deps = true →
  computedRegistry σ !! k = Some entry →
  (∀ i' c deps', i' < j → dependencyGraph σ !! i' = Some (CompKey c, deps') →
     Set_some (λ d, matches d changed) deps' = false
     ∨ computedRegistry σ !! c = None) →
  ev (run entry) (run_start k σ) = (Throws e, σc) →
  scanTrackers ev n i changed w σ = (Throws e, set_currentTracker None σc).
Proof.
  intros Hij Hn Hj Hmatch Hentry Hbefore Hev. revert i Hij Hn.
  induction n as [|n IH]; intros i Hij Hn; [lia|].
  rewrite scanTrackers_S, gets_bind.
  destruct (decide (i = j)) as [->|Hne].
  - rewrite Hj. unfold mbind, M_bind. unfold visitTracker.
    rewrite Hmatch. simpl. rewrite gets_bind, Hentry.
    unfold mbind, M_bind. by rewrite (runComputed_eq _ _ _ _ Hentry), Hev.
  - destruct (dependencyGraph σ !! i) as [[c deps']|] eqn:Hi.
    2:{ apply lookup_ge_None in Hi. apply lookup_lt_Some in Hj. lia. }
    unfold mbind, M_bind. rewrite visitTracker_skips.
    + apply IH; lia.
    + destruct c as [c|id]; [|done]. apply (Hbefore i c deps'); [lia | done].
Qed.

(** X16.  An evaluation function that throws during the pass makes the
    assignment throw after the data was written.  When the first computed
    that the pass re-runs throws, the exception propagates out of the
    assignment; the heap holds what [Reflect.set] stored, the entry of the
    computed keeps its memoized value, and no listener was called,
    whatever the listeners depend on. *)
Theorem throwing_evaluation_aborts_the_pass
    n σ p prop v m ok h' j k deps entry e σc :
  proxies σ !! p = Some m →
  Reflect_set (heap σ) (target m) prop v = Done ok h' →
  dependencyGraph σ !! j = Some (CompKey k, deps) →
  Set_some (λ d, matches d (keyOf (base m ++ [prop]))) deps = true →
  computedRegistry σ !! k = Some entry →
  (∀ i c deps', i < j → dependencyGraph σ !! i = Some (CompKey c, deps') →
     Set_some (λ d, matches d (keyOf (base m ++ [prop]))) deps' = false
     ∨ computedRegistry σ !! c = None) →
  j < n →
  exec n (run entry)
    (run_start k
       (set_trace (trace σ ++ [EvNotify (store m) (base m ++ [prop])])
          (set_heap h' σ)))
  = (Throws e, σc) →
  ∃ σ',
    assign n p prop v σ = (Throws e, σ')
    ∧ heap σ' = h'
    ∧ computedRegistry σ' !! k = Some entry
    ∧ ∀ s id cb, EvPing s id cb ∉ new_events σ σ'.
Proof.
  intros Hm Hset Hj Hmatch Hentry Hbefore Hn Hev.
  set (σ0 := set_trace _ (set_heap h' σ)) in *.
  exists (set_currentTracker None σc).
  pose proof (exec_steps n (run entry) (run_start k σ0)) as Hs.
  rewrite Hev in Hs. simpl in Hs.
  split; [|split; [|split]].
  - unfold assign, set_trap.
    rewrite gets_bind, Hm, gets_bind, Hset, modify_bind.
    unfold notifyPathChange, log. rewrite !bind_assoc, modify_bind. fold σ0.
    unfold recomputeAffectedComputeds.
    destruct n as [|n]; [lia|]. rewrite drainQueue_S. cbn [queue seen changedComputed].
    rewrite !bind_assoc. unfold mbind at 1, M_bind at 1.
    by rewrite (scanTrackers_throws (exec (S n)) (S n) 0 _ _ σ0 j k deps entry e σc)
      by (done || lia).
  - simpl. by rewrite (steps_heap _ _ _ Hs).
  - simpl. by apply (steps_entry _ _ _ Hs).
  - intros s id cb. destruct (steps_trace _ _ _ Hs) as [ks Hks].
    rewrite (new_events_app σ _
               (EvNotify (store m) (base m ++ [prop]) :: EvRun k :: map EvRun ks)).
    + intros [?|[?|(k' & ? & _)%list_elem_of_fmap]%elem_of_cons]%elem_of_cons;
        discriminate.
    + simpl. rewrite Hks. simpl. rewrite <- !app_assoc. done.
Qed.

Lemma throwing_evaluation_aborts_the_pass_witness :
  ∃ σ',
    assign 5 0 "n" (RNumber 2) guarded = (Throws (VRaw (RString "boom")), σ')
    ∧ heap σ'
      = <[0 := plain [("n", Data (RNumber 2) true true);
                      ("guard", Accessor (Some guard_body) true)]]> (heap guarded)
    ∧ computedRegistry σ' !! "__computed__:guard"
      = Some {| run := guard_body (VProxy 0); last := VRaw (RNumber 0); lastRun := 0 |}
    ∧ ∀ s id cb, EvPing s id cb ∉ new_events guarded σ'.
Proof.
  apply (throwing_evaluation_aborts_the_pass 5 guarded 0 "n" (RNumber 2)
           {| target := 0; store := 0; base := []; rootRef := 0 |} true
           (<[0 := plain [("n", Data (RNumber 2) true true);
                          ("guard", Accessor (Some guard_body) true)]]> (heap guarded))
           0 "__computed__:guard" {["n"]}
           {| run := guard_body (VProxy 0); last := VRaw (RNumber 0); lastRun := 0 |}
           (VRaw (RString "boom"))
           (after (exec 5 (guard_body (VProxy 0)))
              (run_start "__computed__:guard"
                 (set_trace (trace guarded ++ [EvNotify 0 ["n"]])
                    (set_heap
                       (<[0 := plain [("n", Data (RNumber 2) true true);
                                      ("guard", Accessor (Some guard_body) true)]]>
                          (heap guarded)) guarded))))).
  - vm_compute. reflexivity.
  - vm_compute. reflexivity.
  - vm_compute. reflexivity.
  - vm_compute. reflexivity.
  - vm_compute. reflexivity.
  - intros i c deps' Hi. lia.
  - lia.
  - vm_compute. reflexivity.
Defined.

(** *** A write that no computed observes *)

Lemma scanTrackers_skips ev n i changed w σ :
  (∀ C deps, (CompKey C, deps) ∈ dependencyGraph σ →
     Set_some (λ d, matches d changed) deps = false) →
  i ≤ length (dependencyGraph σ) →
  length (dependencyGraph σ) < n + i →
  scanTrackers ev n i changed w σ = (Normal w, σ).
Proof.
  intros Hnone. revert i. induction n as [|n IH]; intros i Hi Hn; [lia|].
  rewrite scanTrackers_S, gets_bind.
  destruct (dependencyGraph σ !! i) as [[c deps]|] eqn:Hentry; [|done].
  assert (visitTracker ev changed c deps w σ = (Normal w, σ)) as Hvisit.
  { unfold visitTracker. destruct c as [C|id]; [|done].
    rewrite (Hnone C deps); [done|]. by eapply list_elem_of_lookup_2. }
  unfold mbind, M_bind. rewrite Hvisit.
  apply lookup_lt_Some in Hentry. apply IH; lia.
Qed.

(** X17.  A write that no computed observes evaluates nothing.  When no
    dependency of any computed matches the changed path,
    [recomputeAffectedComputeds] calls no evaluation function, whatever
    the evaluation functions are: it returns the empty set and leaves the
    registry, the graph and the active scope as they are, so the
    subscriber loop that follows goes by the raw matches alone. *)
Theorem unobserved_write_evaluates_nothing ev n changed σ :
  (∀ C deps, (CompKey C, deps) ∈ dependencyGraph σ →
     Set_some (λ dep, matches dep changed) deps = false) →
  length (dependencyGraph σ) < n →
  2 ≤ n →
  recomputeAffectedComputeds ev n [changed] σ = (Normal ∅, σ).
Proof.
  intros Hnone Hlen Hn. unfold recomputeAffectedComputeds.
  destruct n as [|[|n]]; [lia..|].
  rewrite drainQueue_S. cbn [queue seen changedComputed].
  unfold mbind, M_bind.
  rewrite scanTrackers_skips; [|done|simpl; lia|simpl; lia].
  by rewrite drainQueue_S.
Qed.

Lemma unobserved_write_evaluates_nothing_witness :
  recomputeAffectedComputeds (exec 5) 40 [keyOf ["k"]] cart_sign_subscribed
  = (Normal ∅, cart_sign_subscribed).
Proof.
  apply (unobserved_write_evaluates_nothing (exec 5) 40 (keyOf ["k"])
           cart_sign_subscribed).
  - intros C deps Hin.
    assert (forallb (λ entry : CompId * gset DepKey,
                       match entry.1 with
                       | CompKey _ =>
                           negb (Set_some (λ dep, matches dep (keyOf ["k"])) entry.2)
                       | CompSym _ => true
                       end) (dependencyGraph cart_sign_subscribed) = true) as HF.
    { vm_compute. reflexivity. }
    rewrite forallb_forall in HF. apply list_elem_of_In in Hin.
    specialize (HF _ Hin). simpl in HF. by apply negb_true_iff in HF.
  - vm_compute. lia.
  - lia.
Defined.

(** *** A changed computed cascades *)

Lemma new_events_grow σ0 σ σ' e :
  (∃ evs, trace σ = trace σ0 ++ evs) →
  (∃ evs, trace σ' = trace σ ++ evs) →
  e ∈ new_events σ0 σ → e ∈ new_events σ0 σ'.
Proof.
  intros [evs Ht] [evs' Ht'] Hin.
  rewrite (new_events_app _ _ _ Ht) in Hin.
  rewrite (new_events_app σ0 σ' (evs ++ evs')); [|by rewrite Ht', Ht, app_assoc].
  apply elem_of_app. by left.
Qed.

Section Cascade.

Variable ev : expr → M value.
Hypothesis ev_steps : ∀ e σ, steps None σ (ev e σ).2.
Variable B : DepKey.
Variable depsB : gset DepKey.
Variable σ0 : state.

Lemma cascade_inv_grow σ σ' :
  cascade_inv B depsB σ0 σ →
  (∃ evs, trace σ' = trace σ ++ evs) →
  EvRun B ∈ new_events σ0 σ →
  EvRun B ∈ new_events σ0 σ'.
Proof. intros [Ht _] Ht' Hin. by eapply new_events_grow. Qed.

Lemma cascade_inv_run t σ :
  registered σ t →
  cascade_inv B depsB σ0 σ →
  cascade_inv B depsB σ0 (runComputed ev t σ).2.
Proof.
  intros [entry Hentry] Hinv.
  pose proof (runComputed_steps ev ev_steps t σ) as Hsteps.
  pose proof (steps_trace _ _ _ Hsteps) as [ks Hks].
  pose proof Hinv as [[evs Ht] Hcase].
  split.
  { exists (evs ++ map EvRun ks). by rewrite Hks, Ht, app_assoc. }
  destruct (decide (t = B)) as [->|Hne].
  - left. destruct (runComputed_logs ev ev_steps B entry σ Hentry) as [ks' Hks'].
    rewrite (new_events_app σ0 _ (evs ++ EvRun B :: map EvRun ks')).
    + apply elem_of_app. right. by left.
    + by rewrite Hks', Ht, app_assoc.
  - destruct Hcase as [Hran|[Hreg [j Hj]]].
    + left. eapply cascade_inv_grow; [done | by eexists | done].
    + right. split.
      * by apply (steps_registered _ _ _ Hsteps).
      * exists j.
        apply (runComputed_frame ev ev_steps t σ (CompKey B)); [congruence|done|done].
Qed.

Lemma cascade_inv_visit changed tracker deps w σ w' σa :
  visitTracker ev changed tracker deps w σ = (Normal w', σa) →
  cascade_inv B depsB σ0 σ →
  cascade_inv B depsB σ0 σa.
Proof.
  intros H Hinv.
  apply visitTracker_inv in H as [->|(t & v & _ & _ & Hreg & Hrun)]; [done|].
  pose proof (cascade_inv_run t σ Hreg Hinv) as H. by rewrite Hrun in H.
Qed.

Lemma cascade_inv_scan n i changed w σ w' σ' :
  scanTrackers ev n i changed w σ = (Normal w', σ') →
  cascade_inv B depsB σ0 σ →
  cascade_inv B depsB σ0 σ'.
Proof.
  revert i w σ. induction n as [|n IH]; intros i w σ H Hinv; [done|].
  rewrite scanTrackers_S, gets_bind in H.
  destruct (dependencyGraph σ !! i) as [[tracker deps]|].
  2:{ by injection H as _ <-. }
  apply bind_Normal in H as (w1 & σa & Hvisit & Hscan).
  eapply IH; [exact Hscan|]. by eapply cascade_inv_visit.
Qed.

(** What a scan does to the worklist: it pushes keys, and marks exactly
    those as changed. *)
Lemma scanTrackers_pushes n i changed w σ w' σ' :
  scanTrackers ev n i changed w σ = (Normal w', σ') →
  ∃ pushed, queue w' = queue w ++ pushed
            ∧ changedComputed w' = changedComputed w ∪ list_to_set pushed.
Proof.
  revert i w σ. induction n as [|n IH]; intros i w σ H; [done|].
  rewrite scanTrackers_S, gets_bind in H.
  destruct (dependencyGraph σ !! i) as [[tracker deps]|].
  2:{ injection H as <- _. exists []. rewrite app_nil_r. simpl.
      by rewrite (right_id_L ∅ (∪)). }
  apply bind_Normal in H as (w1 & σa & Hvisit & Hscan).
  apply IH in Hscan as (pushed & Hq & Hc).
  apply visitTracker_cases in Hvisit as [[[= ->] _]|(t & r1 & _ & _ & Hr)].
  { by exists pushed. }
  destruct r1 as [v|e|]; [|done..].
  destruct Hr as [[= ->]|[_ [= ->]]]; [by exists pushed|].
  exists (t :: pushed). simpl in Hq, Hc. split.
  - by rewrite Hq, <- app_assoc.
  - rewrite Hc. simpl. by rewrite (assoc_L (∪)).
Qed.

(** A scan for a key that a dependency of [B] matches re-runs [B], unless
    [B] was re-run before. *)
Lemma scanTrackers_cascades n A w σ w' σ' :
  scanTrackers ev n 0 A w σ = (Normal w', σ') →
  cascade_inv B depsB σ0 σ →
  Set_some (λ d, matches d A) depsB = true →
  EvRun B ∈ new_events σ0 σ'.
Proof.
  intros H Hinv Hmatch.
  pose proof Hinv as [[evs0 Ht0] [Hran|[Hreg [j Hj]]]].
  - eapply cascade_inv_grow; [done | | done].
    pose proof (scanTrackers_pass ev ev_steps n 0 A w σ) as [_ _ [ks Hks] _ _].
    rewrite H in Hks. exists (map EvRun ks). exact Hks.
  - destruct (scanTrackers_runs ev ev_steps _ _ _ _ _ _ _ B depsB j H Hj)
      as (evs & Ht & Hev); [lia | done | done |].
    rewrite (new_events_app σ0 σ' (evs0 ++ evs)); [|by rewrite Ht, Ht0, app_assoc].
    apply elem_of_app. by right.
Qed.

Lemma drainQueue_cascades n A w σ cc σ' :
  drainQueue ev n w σ = (Normal cc, σ') →
  cascade_inv B depsB σ0 σ →
  Set_some (λ d, matches d A) depsB = true →
  A ∈ queue w ∨ (A ∈ cc ∧ A ∉ changedComputed w) →
  EvRun B ∈ new_events σ0 σ'.
Proof.
  revert w σ. induction n as [|n IH]; intros w σ H Hinv Hmatch HA; [done|].
  rewrite drainQueue_S in H. destruct (queue w) as [|changed rest] eqn:Hq.
  { injection H as <- <-. destruct HA as [HA|[? ?]]; [|done].
    by apply elem_of_nil in HA. }
  apply bind_Normal in H as (w1 & σa & Hscan & Hdrain).
  pose proof (cascade_inv_scan _ _ _ _ _ _ _ Hscan Hinv) as Hinv1.
  destruct (scanTrackers_pushes _ _ _ _ _ _ _ Hscan) as (pushed & Hq1 & Hc1).
  simpl in Hq1, Hc1.
  destruct (decide (A = changed)) as [->|Hne].
  - eapply cascade_inv_grow; [exact Hinv1 | |].
    + pose proof (drainQueue_pass ev ev_steps n w1 σa) as [_ _ [ks Hks] _ _].
      rewrite Hdrain in Hks. exists (map EvRun ks). exact Hks.
    + by eapply scanTrackers_cascades.
  - eapply IH; [exact Hdrain | done | done |].
    destruct HA as [HA|[Hcc Hnew]].
    + apply elem_of_cons in HA as [?|HA]; [done|].
      left. rewrite Hq1. apply elem_of_app. by left.
    + destruct (decide (A ∈ pushed)) as [Hp|Hp].
      * left. rewrite Hq1. apply elem_of_app. by right.
      * right. split; [done|]. rewrite Hc1.
        intros [?|?%elem_of_list_to_set]%elem_of_union; done.
Qed.

End Cascade.

(** X18.  The recomputation is transitive.  When [recomputeAffectedComputeds]
    returns, every computed that was registered with a dependency matching
    a key in the returned set (a computed whose value changed in this
    pass) has itself been re-run in this pass. *)
Theorem changed_computed_reruns_its_readers n d changed σ cc σ' A B depsB :
  recomputeAffectedComputeds (exec d) n [changed] σ = (Normal cc, σ') →
  A ∈ cc →
  (CompKey B, depsB) ∈ dependencyGraph σ →
  registered σ B →
  (∃ dep, dep ∈ depsB ∧ matches dep A = true) →
  EvRun B ∈ new_events σ σ'.
Proof.
  intros H HA Hin Hreg Hmatch. unfold recomputeAffectedComputeds in H.
  apply list_elem_of_lookup in Hin as [j Hj].
  eapply (drainQueue_cascades (exec d) (exec_steps d) B depsB σ); [exact H | | |].
  - split; [exists []; by rewrite app_nil_r|]. right. split; [done | by exists j].
  - by apply Set_some_spec.
  - right. split; [done|]. simpl. apply not_elem_of_empty.
Qed.

Lemma changed_computed_reruns_its_readers_witness :
  EvRun "__computed__:sum"
    ∈ new_events cart_sum_written
        (after (recomputeAffectedComputeds (exec 5) 40 ["n"]) cart_sum_written).
Proof.
  apply (changed_computed_reruns_its_readers 40 5 "n" cart_sum_written
           {[ "__computed__:double"; "__computed__:sum" ]}
           (after (recomputeAffectedComputeds (exec 5) 40 ["n"]) cart_sum_written)
           "__computed__:double" "__computed__:sum"
           {[ "__computed__:double"; "k" ]}).
  - vm_compute. reflexivity.
  - set_solver.
  - refine (bool_decide_unpack _ _). vm_compute. exact I.
  - refine (bool_decide_unpack _ _). vm_compute. exact I.
  - exists "__computed__:double". split; [set_solver|]. vm_compute. reflexivity.
Defined.

(** ** [getDescriptorDeep]: the walk up the prototype chain *)

Lemma nth_proto_S h k a :
  nth_proto h (S k) a = nth_proto h k a ≫= getPrototypeOf h.
Proof.
  revert a. induction k as [|k IH]; intros a.
  - simpl. by destruct (getPrototypeOf h a).
  - change (nth_proto h (S (S k)) a)
      with (getPrototypeOf h a ≫= nth_proto h (S k)).
    change (nth_proto h (S k) a) with (getPrototypeOf h a ≫= nth_proto h k).
    destruct (getPrototypeOf h a) as [a'|]; simpl; [apply IH | done].
Qed.

Lemma nth_proto_add h i m a :
  nth_proto h (i + m) a = nth_proto h i a ≫= nth_proto h m.
Proof.
  revert a. induction i as [|i IH]; intros a; simpl; [done|].
  destruct (getPrototypeOf h a) as [a'|]; simpl; [apply IH | done].
Qed.

(** The walk with [n] steps of fuel finds what lies fewer than [n] steps
    up. *)
Lemma descriptorWalk_spec n h a prop d :
  descriptorWalk n h (Some a) prop = Some d
  ↔ ∃ k a', k < n ∧ nth_proto h k a = Some a'
            ∧ hasOwnDescriptor h a' prop = Some d
            ∧ ∀ i, i < k → ∃ ai, nth_proto h i a = Some ai
                                 ∧ hasOwnDescriptor h ai prop = None.
Proof.
  revert a. induction n as [|n IH]; intros a; simpl.
  { split; [done|]. intros (k & _ & ? & _). lia. }
  destruct (hasOwnDescriptor h a prop) as [d'|] eqn:Hown.
  - split.
    + intros [= ->]. exists 0, a. split; [lia|]. split; [done|]. split; [done|].
      intros i ?. lia.
    + intros (k & a' & _ & Hk & Hd & Hbefore). destruct k as [|k].
      * simpl in Hk. injection Hk as <-. congruence.
      * destruct (Hbefore 0) as (a0 & Ha0 & Hnone); [lia|].
        simpl in Ha0. injection Ha0 as <-. congruence.
  - destruct (getPrototypeOf h a) as [a1|] eqn:Hproto.
    + rewrite IH. split.
      * intros (k & a' & Hk & Hnth & Hd & Hbefore).
        exists (S k), a'. split; [lia|]. split; [by simpl; rewrite Hproto|].
        split; [done|]. intros [|i] Hi.
        -- exists a. done.
        -- destruct (Hbefore i) as (ai & Hai & Hnone); [lia|].
           exists ai. split; [by simpl; rewrite Hproto | done].
      * intros (k & a' & Hk & Hnth & Hd & Hbefore). destruct k as [|k].
        { simpl in Hnth. injection Hnth as <-. congruence. }
        simpl in Hnth. rewrite Hproto in Hnth. simpl in Hnth.
        exists k, a'. split; [lia|]. split; [done|]. split; [done|].
        intros i Hi. destruct (Hbefore (S i)) as (ai & Hai & Hnone); [lia|].
        simpl in Hai. rewrite Hproto in Hai. by exists ai.
    + split.
      * destruct n; simpl; done.
      * intros (k & a' & _ & Hnth & Hd & _). destruct k as [|k].
        -- simpl in Hnth. injection Hnth as <-. congruence.
        -- simpl in Hnth. by rewrite Hproto in Hnth.
Qed.

(** The objects below the holder of the property are pairwise different
    objects of the heap, so there are fewer of them than the heap has
    objects. *)
Lemma nearest_within_heap h prop a k a' d :
  nth_proto h k a = Some a' →
  hasOwnDescriptor h a' prop = Some d →
  (∀ i, i < k → ∃ ai, nth_proto h i a = Some ai
                      ∧ hasOwnDescriptor h ai prop = None) →
  k < size (dom h).
Proof.
  intros Hk Hd Hbefore.
  assert (∀ i, i ≤ k → ∃ ai, nth_proto h i a = Some ai ∧ ai ∈ dom h) as Hdef.
  { intros i Hi. destruct (decide (i = k)) as [->|Hne].
    - exists a'. split; [done|]. unfold hasOwnDescriptor in Hd.
      apply elem_of_dom. destruct (h !! a'); [by eexists | done].
    - destruct (Hbefore i) as (ai & Hai & _); [lia|]. exists ai. split; [done|].
      assert (is_Some (nth_proto h (S i) a)) as [x Hx].
      { destruct (decide (S i = k)) as [<-|?]; [by eexists|].
        destruct (Hbefore (S i)) as (? & ? & _); [lia | by eexists]. }
      rewrite nth_proto_S, Hai in Hx. simpl in Hx. unfold getPrototypeOf in Hx.
      apply elem_of_dom. destruct (h !! ai); [by eexists | done]. }
  set (l := omap (λ i, nth_proto h i a) (seq 0 (S k))).
  assert (length l = S k) as Hlen.
  { unfold l. clear -Hdef. 
    assert (∀ m n, (∀ i, i < n + m → is_Some (nth_proto h i a)) →
              length (omap (λ i, nth_proto h i a) (seq n m)) = m) as Hgen.
    { intros m. induction m as [|m IH]; intros n Hn; simpl; [done|].
      destruct (Hn n) as [x ->]; [lia|]. simpl. f_equal. apply IH.
      intros i Hi. apply Hn. lia. }
    apply Hgen. intros i Hi. destruct (Hdef i) as (ai & -> & _); [lia|]. by eexists. }
  assert (NoDup l) as Hnd.
  { unfold l. apply NoDup_alt. intros i j x Hi Hj.
    destruct (decide (i = j)) as [|Hne]; [done|]. exfalso.
    assert (∀ i j x, i < j → j ≤ k →
              nth_proto h i a = Some x → nth_proto h j a = Some x → False) as Hloop.
    { clear -Hk Hd Hbefore. intros i j x Hij Hjk Hi Hj.
      assert (nth_proto h (i + (k - j)) a = Some a') as Hreach.
      { rewrite nth_proto_add, Hi. simpl.
        replace k with (j + (k - j)) in Hk by lia.
        by rewrite nth_proto_add, Hj in Hk. }
      destruct (Hbefore (i + (k - j))) as (y & Hy & Hnone); [lia|].
      congruence. }
    assert (∀ m n i y, omap (λ i, nth_proto h i a) (seq n m) !! i = Some y →
              (∀ i, n ≤ i < n + m → is_Some (nth_proto h i a)) →
              i < m ∧ nth_proto h (n + i) a = Some y) as Hget.
    { intros m. induction m as [|m IH]; intros n i' y; simpl; [done|].
      intros Hl Hall. destruct (Hall n) as [z Hz]; [lia|]. rewrite Hz in Hl.
      destruct i' as [|i']; simpl in Hl.
      - injection Hl as <-. split; [lia|]. by rewrite Nat.add_0_r.
      - apply IH in Hl as [? ?]; [|intros; apply Hall; lia].
        split; [lia|]. by replace (n + S i') with (S n + i') by lia. }
    assert (∀ i, 0 ≤ i < 0 + S k → is_Some (nth_proto h i a)) as Hall.
    { intros i' Hi'. destruct (Hdef i') as (? & -> & _); [lia | by eexists]. }
    apply Hget in Hi as [Hik Hi]; [|done]. apply Hget in Hj as [Hjk Hj]; [|done].
    simpl in Hi, Hj.
    destruct (decide (i < j)).
    - eapply (Hloop i j); [lia | lia | done | done].
    - eapply (Hloop j i); [lia | lia | done | done]. }
  assert (l ⊆+ elements (dom h)) as Hsub.
  { apply NoDup_submseteq; [done|]. intros x Hx. apply elem_of_elements.
    unfold l in Hx. apply list_elem_of_omap in Hx as (i & Hi & Hx).
    apply elem_of_seq in Hi. destruct (Hdef i) as (ai & Hai & Hin); [lia|].
    congruence. }
  apply submseteq_length in Hsub. rewrite Hlen in Hsub.
  unfold size, set_size. simpl. lia.
Qed.

(** X19.  [getDescriptorDeep] returns the descriptor of the nearest object
    on the prototype chain that has the property as its own: an own
    property shadows an inherited one, and the result is [undefined]
    exactly when no object of the chain has the property.  The loop needs
    no more rounds than the heap has objects. *)
Theorem getDescriptorDeep_finds_the_nearest_descriptor h a prop d :
  getDescriptorDeep h a prop = Some d ↔ nearest h prop a d.
Proof.
  unfold getDescriptorDeep, nearest. rewrite descriptorWalk_spec. split.
  - intros (k & a' & _ & H). by exists k, a'.
  - intros (k & a' & Hk & Hd & Hbefore). exists k, a'. split; [|done].
    pose proof (nearest_within_heap h prop a k a' d Hk Hd Hbefore) as Hlt.
    rewrite size_dom in Hlt. lia.
Qed.

(** ** [proxy()] and [getStoreFor] *)

(** [getStoreFor] of a wrapper, by its read of [__raw]. *)
Lemma getStoreFor_wrapper n p m σ :
  proxies σ !! p = Some m →
  storeFor n (VProxy p) σ
  = (if get_invariant (hasOwnDescriptor (heap σ) (target m) "__raw")
          (VRaw (RObject (target m)))
     then match storeOfRoot σ !! target m with
          | Some s => Normal s
          | None =>
              match storeOfProxy σ !! p with
              | Some s => Normal s
              | None => Throws (VRaw (RString
                  "useSnapshot() expects a value created by proxy() (root or nested)."))
              end
          end
     else Throws TypeError, σ).
Proof.
  intros Hm. unfold storeFor, getStoreFor, js_get.
  unfold mbind at 1, M_bind at 1.
  rewrite (proxy_get_checked _ _ _ _ _ m (VRaw (RObject (target m))) σ Hm);
    [| |done].
  2:{ unfold get_trap. by rewrite gets_bind, Hm. }
  destruct (get_invariant _ _); [|done].
  rewrite gets_bind. destruct (storeOfRoot σ !! target m); [done|].
  rewrite gets_bind. by destruct (storeOfProxy σ !! p).
Qed.

(** X20.  [getStoreFor(proxy(x))] is the store that writes to [x] notify.
    For an object that was never wrapped, [proxy] makes a store with the
    object as root and no listener, and a wrapper with the empty path whose
    traps notify that store; [getStoreFor] of the wrapper returns it.  (The
    exception is an object with an own property [__raw] that is neither
    writable nor configurable and holds something else than the object:
    the read of [__raw] that [getStoreFor] starts with throws a
    [TypeError].) *)
Theorem proxy_then_getStoreFor n a σ :
  wf σ →
  proxyCache σ !! a = None →
  ∃ σ',
    proxy a σ = (Normal (VProxy (nextId σ)), σ')
    ∧ proxies σ' !! nextId σ
      = Some {| target := a; store := length (stores σ); base := []; rootRef := a |}
    ∧ stores σ' !! length (stores σ)
      = Some {| root := a; componentSubscribers := [] |}
    ∧ storeFor n (VProxy (nextId σ)) σ'
      = (if get_invariant (hasOwnDescriptor (heap σ) a "__raw") (VRaw (RObject a))
         then Normal (length (stores σ)) else Throws TypeError, σ').
Proof.
  intros Hwf Hc. unfold proxy, createStore.
  rewrite bind_assoc, gets_bind, bind_assoc, modify_bind, bind_assoc, modify_bind,
    mret_bind.
  unfold makeProxy. rewrite gets_bind. simpl. rewrite Hc. simpl.
  eexists. split; [reflexivity|]. simpl.
  split; [by rewrite lookup_insert_eq|].
  split; [by rewrite lookup_app_r, Nat.sub_diag by lia|].
  rewrite (getStoreFor_wrapper n (nextId σ)
             {| target := a; store := length (stores σ); base := []; rootRef := a |});
    [|by simpl; rewrite lookup_insert_eq].
  simpl. by rewrite lookup_insert_eq.
Qed.

Lemma proxy_then_getStoreFor_witness :
  ∃ σ',
    proxy 0 (boot cart_heap) = (Normal (VProxy (nextId (boot cart_heap))), σ')
    ∧ proxies σ' !! nextId (boot cart_heap)
      = Some {| target := 0; store := length (stores (boot cart_heap)); base := [];
                rootRef := 0 |}
    ∧ stores σ' !! length (stores (boot cart_heap))
      = Some {| root := 0; componentSubscribers := [] |}
    ∧ storeFor 0 (VProxy (nextId (boot cart_heap))) σ'
      = (if get_invariant (hasOwnDescriptor (heap (boot cart_heap)) 0 "__raw")
              (VRaw (RObject 0))
         then Normal (length (stores (boot cart_heap))) else Throws TypeError, σ').
Proof.
  apply (proxy_then_getStoreFor 0 0 (boot cart_heap)); [apply wf_boot | done].
Defined.

(** X21.  A second [proxy()] call on an object returns the wrapper made by
    the first, but files a new store under the object in [storeOfRoot].
    From then on [getStoreFor] of the wrapper returns the new store, while
    the traps of the wrapper go on notifying the store of the first
    call.  (The exception of [getStoreFor] is the one above: a target whose
    own [__raw] property the host pins to another value.) *)
Theorem second_proxy_call_files_a_new_store n σ p m :
  wf σ →
  proxies σ !! p = Some m →
  store m < length (stores σ) →
  ∃ σ',
    proxy (target m) σ = (Normal (VProxy p), σ')
    ∧ proxies σ' !! p = Some m
    ∧ storeFor n (VProxy p) σ'
      = (if get_invariant (hasOwnDescriptor (heap σ) (target m) "__raw")
              (VRaw (RObject (target m)))
         then Normal (length (stores σ)) else Throws TypeError, σ')
    ∧ length (stores σ) ≠ store m.
Proof.
  intros (_ & Hcache & _) Hm Hlt. unfold proxy, createStore.
  rewrite bind_assoc, gets_bind, bind_assoc, modify_bind, bind_assoc, modify_bind,
    mret_bind.
  unfold makeProxy. rewrite gets_bind. simpl. rewrite (Hcache _ _ Hm). simpl.
  eexists. split; [reflexivity|]. simpl. split; [done|]. split; [|lia].
  rewrite (getStoreFor_wrapper n p m) by done.
  simpl. by rewrite lookup_insert_eq.
Qed.

Lemma second_proxy_call_files_a_new_store_witness :
  ∃ σ',
    proxy 0 cart = (Normal (VProxy 0), σ')
    ∧ proxies σ' !! 0 = Some {| target := 0; store := 0; base := []; rootRef := 0 |}
    ∧ storeFor 0 (VProxy 0) σ'
      = (if get_invariant (hasOwnDescriptor (heap cart) 0 "__raw") (VRaw (RObject 0))
         then Normal (length (stores cart)) else Throws TypeError, σ')
    ∧ length (stores cart) ≠ 0.
Proof.
  apply (second_proxy_call_files_a_new_store 0 cart 0
           {| target := 0; store := 0; base := []; rootRef := 0 |}).
  - apply (proxy_wf 0 (boot cart_heap)), wf_boot.
  - done.
  - vm_compute. lia.
Defined.

(** A target that carries a frozen property [__raw]: [proxy] wraps it, the
    traps of the wrapper work, but [getStoreFor] of the wrapper throws. *)
Lemma getStoreFor_refuses_pinned_raw :
  (storeFor 0 (VProxy 0)
     (after (proxy 0)
        (boot {[ 0 := plain [("__raw", Data (RNumber 1) false false);
                             ("n", Data (RNumber 1) true true)] ]}))).1
  = Throws TypeError
  ∧ (assign 5 0 "n" (RNumber 2)
       (after (proxy 0)
          (boot {[ 0 := plain [("__raw", Data (RNumber 1) false false);
                               ("n", Data (RNumber 1) true true)] ]}))).1
    = Normal true.
Proof. split; vm_compute; reflexivity. Qed.

(** ** What a deletion leaves *)

Lemma Reflect_deleteProperty_Done h a prop ok h' :
  Reflect_deleteProperty h a prop = Done ok h' →
  (∀ a', a' ≠ a → h' !! a' = h !! a')
  ∧ if ok then hasOwnDescriptor h' a prop = None else h' = h.
Proof.
  unfold Reflect_deleteProperty. intros H.
  destruct (h !! a) as [o|] eqn:Ho; [|done].
  assert (props o !! prop = None → hasOwnDescriptor h a prop = None) as Hnone.
  { intros Hp. unfold hasOwnDescriptor. by rewrite Ho. }
  destruct (props o !! prop) as [[v w c|g c]|] eqn:Hp; [| |by simplify_eq; auto].
  all: destruct c; simplify_eq; [|done].
  all: split; [by intros; rewrite lookup_insert_ne|].
  all: by rewrite hasOwnDescriptor_insert, lookup_delete_eq.
Qed.

(** X22.  What a deletion through the wrapper leaves in the data.  When the
    trap reports success the target object has no own property under the
    key (so a read finds what the prototype chain holds, or [undefined]);
    when it reports failure the data is unchanged.  Either way no other
    object changes. *)
Theorem deletion_removes_the_own_property n σ p prop m ok σ' :
  proxies σ !! p = Some m →
  deleteProp n p prop σ = (Normal ok, σ') →
  (∀ a, a ≠ target m → heap σ' !! a = heap σ !! a)
  ∧ if ok then hasOwnDescriptor (heap σ') (target m) prop = None
    else heap σ' = heap σ.
Proof.
  intros Hm H. unfold deleteProp, deleteProperty_trap in H.
  rewrite gets_bind, Hm, gets_bind in H.
  destruct (Reflect_deleteProperty (heap σ) (target m) prop) as [ok' h'|e|] eqn:Hdel;
    [|done..].
  rewrite modify_bind in H.
  destruct (notifyPathChange_trace (exec n) (exec_steps n) n (store m)
              (base m ++ [prop]) (set_heap h' σ)) as (_ & _ & _ & _ & Hheap).
  unfold after in Hheap.
  apply bind_Normal in H as (u & σ1 & Hpass & H). injection H as <- <-.
  rewrite Hpass in Hheap. simpl in Hheap. rewrite Hheap.
  by apply Reflect_deleteProperty_Done.
Qed.

Lemma deletion_removes_the_own_property_witness :
  (∀ a, a ≠ 0 → heap (after (deleteProp 5 0 "k") cart) !! a = heap cart !! a)
  ∧ hasOwnDescriptor (heap (after (deleteProp 5 0 "k") cart)) 0 "k" = None.
Proof.
  apply (deletion_removes_the_own_property 5 cart 0 "k"
           {| target := 0; store := 0; base := []; rootRef := 0 |} true);
    [done|]. vm_compute. reflexivity.
Defined.

(** ** What no operation undoes *)

Lemma keeps_runs_refl σ : keeps_runs σ σ.
Proof. intros k e He. by exists e. Qed.

Lemma keeps_runs_trans σ1 σ2 σ3 :
  keeps_runs σ1 σ2 → keeps_runs σ2 σ3 → keeps_runs σ1 σ3.
Proof.
  intros H12 H23 k e He. destruct (H12 k e He) as (e2 & He2 & Hr2).
  destruct (H23 k e2 He2) as (e3 & He3 & Hr3). exists e3. split; [done|].
  congruence.
Qed.

Lemma keeps_runs_bind {A B} (m : M A) (k : A → M B) σ :
  keeps_runs σ (m σ).2 →
  (∀ a σ1, m σ = (Normal a, σ1) → keeps_runs σ1 (k a σ1).2) →
  keeps_runs σ ((m ≫= k) σ).2.
Proof.
  unfold mbind, M_bind. destruct (m σ) as [[a|e|] σ1]; simpl; intros H1 H2;
    [eapply keeps_runs_trans; eauto | done | done].
Qed.

Lemma keeps_runs_steps σ σ' : steps None σ σ' → keeps_runs σ σ'.
Proof.
  intros Hs k e He. exists e. split; [|done].
  by apply (steps_entry _ _ _ Hs).
Qed.

Lemma keeps_runs_same σ σ' :
  computedRegistry σ' = computedRegistry σ → keeps_runs σ σ'.
Proof. intros Hr k e He. exists e. by rewrite Hr. Qed.

Section Permanent.

Variable ev : expr → M value.
Hypothesis ev_steps : ∀ e σ, steps None σ (ev e σ).2.

Lemma runComputed_keeps_runs k σ : keeps_runs σ (runComputed ev k σ).2.
Proof.
  unfold runComputed. rewrite gets_bind.
  destruct (computedRegistry σ !! k) as [entry|]; [|apply keeps_runs_refl].
  rewrite !modify_bind. unfold finally, log. rewrite modify_bind.
  set (σb := set_trace _ _).
  eapply keeps_runs_trans; [apply (keeps_runs_same σ σb); done|].
  unfold mbind at 1, M_bind at 1.
  pose proof (keeps_runs_steps _ _ (ev_steps (run entry) σb)) as Hev.
  destruct (ev (run entry) σb) as [[val|e|] σc]; simpl in *; [|done..].
  eapply keeps_runs_trans; [exact Hev|]. simpl.
  intros k' e' He'. simpl. destruct (decide (k = k')) as [->|Hne].
  - eexists. rewrite lookup_alter_eq, He'. simpl. done.
  - exists e'. by rewrite lookup_alter_ne.
Qed.

Lemma visitTracker_keeps_runs changed tracker deps w σ :
  keeps_runs σ (visitTracker ev changed tracker deps w σ).2.
Proof.
  unfold visitTracker. destruct tracker as [k|id]; [|apply keeps_runs_refl].
  destruct (negb _); [apply keeps_runs_refl|].
  rewrite gets_bind. destruct (computedRegistry σ !! k); [|apply keeps_runs_refl].
  apply keeps_runs_bind; [apply runComputed_keeps_runs|]. intros _ σ1 _.
  rewrite gets_bind. destruct (_ && _); apply keeps_runs_refl.
Qed.

Lemma scanTrackers_keeps_runs n i changed w σ :
  keeps_runs σ (scanTrackers ev n i changed w σ).2.
Proof.
  revert i w σ. induction n as [|n IH]; intros i w σ; [apply keeps_runs_refl|].
  rewrite scanTrackers_S, gets_bind.
  destruct (dependencyGraph σ !! i) as [[tracker deps]|]; [|apply keeps_runs_refl].
  apply keeps_runs_bind; [apply visitTracker_keeps_runs | intros; apply IH].
Qed.

Lemma drainQueue_keeps_runs n w σ : keeps_runs σ (drainQueue ev n w σ).2.
Proof.
  revert w σ. induction n as [|n IH]; intros w σ; [apply keeps_runs_refl|].
  rewrite drainQueue_S. destruct (queue w); [apply keeps_runs_refl|].
  apply keeps_runs_bind; [apply scanTrackers_keeps_runs | intros; apply IH].
Qed.

Lemma notifyPathChange_keeps_runs n s path σ :
  keeps_runs σ (notifyPathChange ev n s path σ).2.
Proof.
  destruct (notifyPathChange ev n s path σ) as [r σ'] eqn:Hpass.
  apply notifyPathChange_inv in Hpass as (r1 & σ1 & Hrec & Hr).
  pose proof (drainQueue_keeps_runs n
                {| queue := [keyOf path]; seen := list_to_set [keyOf path];
                   changedComputed := ∅ |}
                (set_trace (trace σ ++ [EvNotify s path]) σ)) as Hk.
  unfold recomputeAffectedComputeds in Hrec. rewrite Hrec in Hk. simpl in Hk.
  eapply keeps_runs_trans;
    [apply (keeps_runs_same σ (set_trace (trace σ ++ [EvNotify s path]) σ));
     reflexivity|].
  eapply keeps_runs_trans; [exact Hk|]. simpl.
  destruct r1; destruct Hr as [_ ->]; by apply keeps_runs_same.
Qed.

End Permanent.

(** X23.  A computed is registered once and for all.  No read, assignment,
    deletion or tracked call removes an entry from [computedRegistry], and
    none replaces the evaluation function of an entry: the getter, bound
    to the receiver of the first read, stays the one that later passes
    re-run. *)
Theorem computed_is_registered_once_and_for_all n σ k e :
  computedRegistry σ !! k = Some e →
  (∀ p prop, ∃ e', computedRegistry (after (readValue n p prop) σ) !! k = Some e'
                   ∧ run e' = run e)
  ∧ (∀ p prop v, ∃ e', computedRegistry (after (assign n p prop v) σ) !! k = Some e'
                       ∧ run e' = run e)
  ∧ (∀ p prop, ∃ e', computedRegistry (after (deleteProp n p prop) σ) !! k = Some e'
                     ∧ run e' = run e)
  ∧ (∀ id fn, ∃ e', computedRegistry (after (tracked n id fn) σ) !! k = Some e'
                    ∧ run e' = run e).
Proof.
  intros He. unfold after. split_and!.
  - intros p prop.
    assert (steps None σ (readValue n p prop σ).2) as Hs.
    { unfold readValue, read.
      apply steps_bind; [apply (proxy_get_steps (exec n) (exec_steps n))|].
      intros v σ1 _. apply (resolve_steps (exec n) (exec_steps n)). }
    exact (keeps_runs_steps _ _ Hs k e He).
  - intros p prop v.
    assert (keeps_runs σ (set_trap (exec n) n p prop v σ).2) as Hk.
    { unfold set_trap. rewrite gets_bind.
      destruct (proxies σ !! p) as [m|]; [|apply keeps_runs_refl].
      rewrite gets_bind.
      destruct (Reflect_set _ _ _ _) as [ok h'|x|]; [|apply keeps_runs_refl..].
      rewrite modify_bind, bind_mret_snd.
      eapply keeps_runs_trans;
        [apply (keeps_runs_same σ (set_heap h' σ)); reflexivity|].
      apply (notifyPathChange_keeps_runs (exec n) (exec_steps n)). }
    exact (Hk k e He).
  - intros p prop.
    assert (keeps_runs σ (deleteProperty_trap (exec n) n p prop σ).2) as Hk.
    { unfold deleteProperty_trap. rewrite gets_bind.
      destruct (proxies σ !! p) as [m|]; [|apply keeps_runs_refl].
      rewrite gets_bind.
      destruct (Reflect_deleteProperty _ _ _) as [ok h'|x|];
        [|apply keeps_runs_refl..].
      rewrite modify_bind, bind_mret_snd.
      eapply keeps_runs_trans;
        [apply (keeps_runs_same σ (set_heap h' σ)); reflexivity|].
      apply (notifyPathChange_keeps_runs (exec n) (exec_steps n)). }
    exact (Hk k e He).
  - intros id fn.
    assert (keeps_runs σ (withComponentTracking (exec n) id fn σ).2) as Hk.
    { unfold withComponentTracking. rewrite !modify_bind. unfold finally.
      set (σb := set_currentTracker _ _).
      pose proof (keeps_runs_steps _ _ (exec_steps n fn σb)) as Hev.
      eapply keeps_runs_trans; [apply (keeps_runs_same σ σb); reflexivity|].
      destruct (exec n fn σb) as [[v|x|] σc]; simpl in *;
        (eapply keeps_runs_trans; [exact Hev|]); by apply keeps_runs_same. }
    exact (Hk k e He).
Qed.

Lemma computed_is_registered_once_and_for_all_witness :
  (∀ p prop, ∃ e', computedRegistry (after (readValue 5 p prop) cart_double)
                     !! "__computed__:double" = Some e'
                   ∧ run e' = double_body (VProxy 0))
  ∧ (∀ p prop v, ∃ e', computedRegistry (after (assign 5 p prop v) cart_double)
                         !! "__computed__:double" = Some e'
                       ∧ run e' = double_body (VProxy 0))
  ∧ (∀ p prop, ∃ e', computedRegistry (after (deleteProp 5 p prop) cart_double)
                       !! "__computed__:double" = Some e'
                     ∧ run e' = double_body (VProxy 0))
  ∧ (∀ id fn, ∃ e', computedRegistry (after (tracked 5 id fn) cart_double)
                      !! "__computed__:double" = Some e'
                    ∧ run e' = double_body (VProxy 0)).
Proof.
  apply (computed_is_registered_once_and_for_all 5 cart_double "__computed__:double"
           {| run := double_body (VProxy 0); last := VRaw (RNumber 2); lastRun := 0 |}).
  vm_compute. reflexivity.
Defined.

(** ** [snapshot] inside a tracked scope *)

Lemma withComponentTracking_withTracking ev id fn :
  withComponentTracking ev id fn = withTracking id (ev fn).
Proof. reflexivity. Qed.

Lemma mapM_cons {A B} (f : A → M B) x l σ :
  mapM f (x :: l) σ = (y ← f x; k ← mapM f l; mret (y :: k)) σ.
Proof. reflexivity. Qed.

Lemma set_graph_twice x y σ :
  set_dependencyGraph x (set_dependencyGraph y σ) = set_dependencyGraph x σ.
Proof. reflexivity. Qed.

Lemma set_graph_same σ :
  set_dependencyGraph (dependencyGraph σ) σ = σ.
Proof. by destruct σ. Qed.

Lemma Map_set_same {V} (k : CompId) (v : V) (g : list (CompId * V)) :
  Map_get k g = Some v → Map_set k v g = g.
Proof.
  induction g as [|[k' v'] g IH]; simpl; [done|].
  destruct (decide (k' = k)) as [->|Hne]; [by intros [= ->]|].
  intros H. by rewrite IH.
Qed.

Section SnapshotFacts.

Variable ev : expr → M value.
Variable ownKeys : obj → list string.

Lemma snapshot_S fuel v :
  snapshot ev ownKeys (S fuel) v =
    match v with
    | VLive _ lp => x ← live_access ev lp; mret (SValue x)
    | _ =>
        arr ← gets (λ σ, isArray σ v);
        if arr : bool then
          l ← js_get ev v "length";
          l' ← resolve ev l;
          items ← mapM (λ i : nat,
                          has ← gets (λ σ, hasProperty σ v (pretty i));
                          if has : bool then
                            x ← js_get ev v (pretty i);
                            s ← snapshot ev ownKeys fuel x;
                            mret (Some s)
                          else mret None)
                       (seq 0 (toLength l'));
          mret (SArray items)
        else if isObject v then
          o ← gets (λ σ, address_of σ v ≫= (λ a, heap σ !! a));
          match o with
          | None => throw TypeError
          | Some o =>
              fields ← mapM (λ k : string,
                               x ← js_get ev v k;
                               s ← snapshot ev ownKeys fuel x;
                               mret (k, s))
                            (ownKeys o);
              mret (SObject fields)
          end
        else mret (SValue v)
    end.
Proof. reflexivity. Qed.

(** A primitive is copied as it is. *)
Lemma snapshot_primitive fuel v σ :
  isPrimitive (VRaw v) = true →
  snapshot ev ownKeys (S fuel) (VRaw v) σ = (Normal (SValue (VRaw v)), σ).
Proof. by destruct v. Qed.

(** The loop over the keys of an object whose properties read as
    primitives, under the scope [t]: the walk records every path. *)
Lemma snapshot_fields_flat fuel p m t (ks : list string) s0 σ :
  proxies σ !! p = Some m →
  currentTracker σ = Some t →
  Map_get (tracker_id t) (dependencyGraph σ) = Some s0 →
  Forall (λ k, k ≠ "__raw" ∧ k ≠ "__isProxy"
               ∧ ∃ v, plain_value (getDescriptorDeep (heap σ) (target m) k) = Some v
                      ∧ isPrimitive (VRaw v) = true) ks →
  mapM (λ k : string,
          x ← js_get ev (VProxy p) k;
          s ← snapshot ev ownKeys (S fuel) x;
          mret (k, s)) ks σ
  = (Normal ((λ k, (k, SValue (VRaw (default RUndefined
                       (plain_value (getDescriptorDeep (heap σ) (target m) k))))))
             <$> ks),
     set_dependencyGraph
       (Map_set (tracker_id t)
          (s0 ∪ list_to_set ((λ k, keyOf (base m ++ [k])) <$> ks))
          (dependencyGraph σ)) σ).
Proof.
  intros Hm Ht Hs0 Hall. revert s0 σ Hm Ht Hs0 Hall.
  induction ks as [|k ks IH]; intros s0 σ Hm Ht Hs0 Hall.
  - simpl. rewrite (right_id_L ∅ (∪)), Map_set_same by done.
    by rewrite set_graph_same.
  - apply Forall_cons in Hall as [(Hraw & Hisp & v & Hv & Hprim) Hall].
    rewrite mapM_cons.
    rewrite !bind_assoc. unfold mbind at 1, M_bind at 1.
    change (js_get ev (VProxy p) k σ) with (proxy_get ev p k (VProxy p) σ).
    rewrite (proxy_get_primitive _ _ _ _ _ m v) by done. rewrite Ht.
    rewrite bind_assoc. unfold mbind at 1, M_bind at 1.
    rewrite snapshot_primitive by done. rewrite mret_bind.
    unfold graph_add. rewrite Hs0.
    set (σ1 := set_dependencyGraph _ σ).
    unfold mbind at 1, M_bind at 1.
    rewrite (IH (s0 ∪ {[keyOf (base m ++ [k])]}) σ1); try done.
    + simpl. rewrite Hv. simpl. unfold σ1. rewrite set_graph_twice, Map_set_set.
      do 3 f_equal. by rewrite (assoc_L (∪)).
    + unfold σ1. simpl. apply Map_get_set_eq.
Qed.

(** The loop of [Array.prototype.map] over indices that are all present
    and read as primitives, under the scope [t]. *)
Lemma snapshot_items_flat fuel p m t (idx : list nat) s0 σ :
  proxies σ !! p = Some m →
  currentTracker σ = Some t →
  Map_get (tracker_id t) (dependencyGraph σ) = Some s0 →
  Forall (λ i : nat,
            pretty i ≠ "__raw" ∧ pretty i ≠ "__isProxy"
            ∧ is_Some (getDescriptorDeep (heap σ) (target m) (pretty i))
            ∧ ∃ v, plain_value (getDescriptorDeep (heap σ) (target m) (pretty i))
                   = Some v
                   ∧ isPrimitive (VRaw v) = true) idx →
  mapM (λ i : nat,
          has ← gets (λ σ, hasProperty σ (VProxy p) (pretty i));
          if has : bool then
            x ← js_get ev (VProxy p) (pretty i);
            s ← snapshot ev ownKeys (S fuel) x;
            mret (Some s)
          else mret None) idx σ
  = (Normal ((λ i : nat,
                Some (SValue (VRaw (default RUndefined
                        (plain_value
                           (getDescriptorDeep (heap σ) (target m) (pretty i)))))))
             <$> idx),
     set_dependencyGraph
       (Map_set (tracker_id t)
          (s0 ∪ list_to_set ((λ i : nat, keyOf (base m ++ [pretty i])) <$> idx))
          (dependencyGraph σ)) σ).
Proof.
  intros Hm Ht Hs0 Hall. revert s0 σ Hm Ht Hs0 Hall.
  induction idx as [|i idx IH]; intros s0 σ Hm Ht Hs0 Hall.
  - simpl. rewrite (right_id_L ∅ (∪)), Map_set_same by done.
    by rewrite set_graph_same.
  - apply Forall_cons in Hall as [(Hraw & Hisp & Hhas & v & Hv & Hprim) Hall].
    rewrite mapM_cons.
    rewrite !bind_assoc, gets_bind.
    assert (hasProperty σ (VProxy p) (pretty i) = true) as ->.
    { unfold hasProperty, address_of. rewrite Hm. simpl. by apply bool_decide_eq_true. }
    rewrite !bind_assoc. unfold mbind at 1, M_bind at 1.
    change (js_get ev (VProxy p) (pretty i) σ)
      with (proxy_get ev p (pretty i) (VProxy p) σ).
    rewrite (proxy_get_primitive _ _ _ _ _ m v) by done. rewrite Ht.
    rewrite bind_assoc. unfold mbind at 1, M_bind at 1.
    rewrite snapshot_primitive by done. rewrite mret_bind.
    unfold graph_add. rewrite Hs0.
    set (σ1 := set_dependencyGraph _ σ).
    unfold mbind at 1, M_bind at 1.
    rewrite (IH (s0 ∪ {[keyOf (base m ++ [pretty i])]}) σ1); try done.
    + simpl. rewrite Hv. simpl. unfold σ1. rewrite set_graph_twice, Map_set_set.
      do 3 f_equal. by rewrite (assoc_L (∪)).
    + unfold σ1. simpl. apply Map_get_set_eq.
Qed.

End SnapshotFacts.

Lemma flat_key_ok h a k :
  negb (String.eqb k "__raw") && negb (String.eqb k "__isProxy")
  && match plain_value (getDescriptorDeep h a k) with
     | Some v => isPrimitive (VRaw v)
     | None => false
     end = true →
  k ≠ "__raw" ∧ k ≠ "__isProxy"
  ∧ ∃ v, plain_value (getDescriptorDeep h a k) = Some v
         ∧ isPrimitive (VRaw v) = true.
Proof.
  intros [[H1 H2]%andb_true_iff H3]%andb_true_iff.
  apply negb_true_iff, String.eqb_neq in H1, H2.
  split; [done|]. split; [done|].
  destruct (plain_value (getDescriptorDeep h a k)) as [v|]; [|discriminate].
  by exists v.
Qed.



(** X25.  A tracked snapshot of an array subscribes to its length and to
    every index.  [snapshot] goes through [Array.prototype.map] on the
    wrapper: for an array whose elements are all present and read as
    primitives, the result is a new array of the current values, and the
    component's dependency set holds the path of [length] and the path of
    every index. *)
Theorem tracked_snapshot_of_array_subscribes_to_length_and_indices
    ownKeys n fuel id p m o len w c σ :
  proxies σ !! p = Some m →
  heap σ !! target m = Some o →
  is_array o = true →
  getDescriptorDeep (heap σ) (target m) "length"
  = Some (Data (RNumber (Z.of_nat len)) w c) →
  Forall (λ i : nat,
            pretty i ≠ "__raw" ∧ pretty i ≠ "__isProxy"
            ∧ is_Some (getDescriptorDeep (heap σ) (target m) (pretty i))
            ∧ ∃ v, plain_value (getDescriptorDeep (heap σ) (target m) (pretty i))
                   = Some v
                   ∧ isPrimitive (VRaw v) = true) (seq 0 len) →
  computeSelected (exec n) ownKeys (S (S fuel)) id None (VProxy p) σ
  = (Normal (SArray
               ((λ i : nat,
                   Some (SValue (VRaw (default RUndefined
                           (plain_value
                              (getDescriptorDeep (heap σ) (target m) (pretty i)))))))
                <$> seq 0 len)),
     set_currentTracker None
       (set_dependencyGraph
          (Map_set (CompSym id)
             ({[keyOf (base m ++ ["length"])]}
              ∪ list_to_set ((λ i : nat, keyOf (base m ++ [pretty i])) <$> seq 0 len))
             (dependencyGraph σ)) σ)).
Proof.
  intros Hm Ho Harr Hlen Hall. unfold computeSelected, withTracking.
  rewrite !modify_bind. unfold finally. rewrite mret_bind.
  set (σb := set_currentTracker _ _).
  assert (snapshot (exec n) ownKeys (S (S fuel)) (VProxy p) σb
          = (Normal (SArray
               ((λ i : nat,
                   Some (SValue (VRaw (default RUndefined
                           (plain_value
                              (getDescriptorDeep (heap σ) (target m) (pretty i)))))))
                <$> seq 0 len)),
             set_dependencyGraph
               (Map_set (CompSym id)
                  ((∅ ∪ {[keyOf (base m ++ ["length"])]})
                   ∪ list_to_set
                       ((λ i : nat, keyOf (base m ++ [pretty i])) <$> seq 0 len))
                  (dependencyGraph σb)) σb)) as ->.
  { rewrite snapshot_S. rewrite gets_bind.
    assert (isArray σb (VProxy p) = true) as ->.
    { unfold isArray, address_of, σb. simpl. rewrite Hm. simpl. by rewrite Ho. }
    unfold mbind at 1, M_bind at 1.
    change (js_get (exec n) (VProxy p) "length" σb)
      with (proxy_get (exec n) p "length" (VProxy p) σb).
    rewrite (proxy_get_primitive _ _ _ _ _ m (RNumber (Z.of_nat len)));
      [|done|done|done|by unfold σb; simpl; rewrite Hlen|done].
    assert (currentTracker σb = Some (TComponent id)) as -> by reflexivity.
    cbv beta iota.
    change (resolve (exec n) (VRaw (RNumber (Z.of_nat len))))
      with (mret (VRaw (RNumber (Z.of_nat len))) : M value).
    rewrite mret_bind. cbn [toLength]. rewrite Nat2Z.id.
    unfold graph_add.
    assert (Map_get (tracker_id (TComponent id)) (dependencyGraph σb) = Some ∅) as Hs0.
    { unfold σb. simpl. apply Map_get_set_eq. }
    rewrite Hs0.
    set (σ1 := set_dependencyGraph _ σb).
    unfold mbind at 1, M_bind at 1.
    rewrite (snapshot_items_flat (exec n) ownKeys fuel p m (TComponent id)
               (seq 0 len) (∅ ∪ {[keyOf (base m ++ ["length"])]}) σ1); try done.
    - simpl. unfold σ1. by rewrite set_graph_twice, Map_set_set.
    - unfold σ1. simpl. apply Map_get_set_eq. }
  unfold σb. simpl. rewrite Map_set_set, (left_id_L ∅ (∪)). done.
Qed.

Lemma array_index_ok h a (i : nat) :
  negb (String.eqb (pretty i) "__raw") && negb (String.eqb (pretty i) "__isProxy")
  && bool_decide (is_Some (getDescriptorDeep h a (pretty i)))
  && match plain_value (getDescriptorDeep h a (pretty i)) with
     | Some v => isPrimitive (VRaw v)
     | None => false
     end = true →
  pretty i ≠ "__raw" ∧ pretty i ≠ "__isProxy"
  ∧ is_Some (getDescriptorDeep h a (pretty i))
  ∧ ∃ v, plain_value (getDescriptorDeep h a (pretty i)) = Some v
         ∧ isPrimitive (VRaw v) = true.
Proof.
  intros [[[H1 H2]%andb_true_iff H3]%andb_true_iff H4]%andb_true_iff.
  apply negb_true_iff, String.eqb_neq in H1, H2.
  apply bool_decide_eq_true in H3.
  split; [done|]. split; [done|]. split; [done|].
  destruct (plain_value (getDescriptorDeep h a (pretty i))) as [v|]; [|discriminate].
  by exists v.
Qed.

Lemma tracked_snapshot_of_array_subscribes_to_length_and_indices_witness :
  computeSelected (exec 0) keys_in_order 2 7 None (VProxy 1) cart_length_subscribed
  = (Normal (SArray
               ((λ i : nat,
                   Some (SValue (VRaw (default RUndefined
                           (plain_value
                              (getDescriptorDeep (heap cart_length_subscribed) 1
                                 (pretty i)))))))
                <$> seq 0 2)),
     set_currentTracker None
       (set_dependencyGraph
          (Map_set (CompSym 7)
             ({[keyOf (["items"] ++ ["length"])]}
              ∪ list_to_set ((λ i : nat, keyOf (["items"] ++ [pretty i])) <$> seq 0 2))
             (dependencyGraph cart_length_subscribed)) cart_length_subscribed)).
Proof.
  apply (tracked_snapshot_of_array_subscribes_to_length_and_indices
           keys_in_order 0 0 7 1
           {| target := 1; store := 0; base := ["items"]; rootRef := 0 |}
           (array [RNumber 10; RNumber 20]) 2 true false cart_length_subscribed).
  - vm_compute. reflexivity.
  - vm_compute. reflexivity.
  - done.
  - vm_compute. reflexivity.
  - assert (forallb (λ i : nat,
                       negb (String.eqb (pretty i) "__raw")
                       && negb (String.eqb (pretty i) "__isProxy")
                       && bool_decide
                            (is_Some (getDescriptorDeep (heap cart_length_subscribed) 1
                                        (pretty i)))
                       && match plain_value
                                  (getDescriptorDeep (heap cart_length_subscribed) 1
                                     (pretty i)) with
                          | Some v => isPrimitive (VRaw v)
                          | None => false
                          end) (seq 0 2) = true)
      as HF by (vm_compute; reflexivity).
    apply Forall_forall. intros i Hi. rewrite forallb_forall in HF.
    apply list_elem_of_In in Hi. exact (array_index_ok _ _ _ (HF i Hi)).
Defined.
